(** * arib2bdnxml: timeline, clip range, timecodes and rect compositing

    A shallow embedding of the C++ sources

    - [bdn_xml_generator.cpp]: [time_to_tc], [format_tc], [adjust_timestamp],
      [determine_video_format], [xml_escape] and the text [write_to_file]
      writes;
    - [main.cpp]: [determine_canvas_size], [parse_canvas_size],
      [setup_libaribcaption_defaults], [adjust_timestamp_for_range] and the
      frame loop of [main];
    - [ffmpeg_wrapper.cpp]: the part of [get_next_subtitle_frame] that turns a
      decoded [AVSubtitle] into a [SubtitleFrame] (rect compositing and the
      display-time fields), and the options [init_decoder] sets;
    - [bitmap_processor.cpp]: [generate_png_filename] and the checks of
      [save_bitmap_as_png];
    - [options.cpp]: [parse_libaribcaption_opts] and [parse_options].

    Conventions.
    - A C++ [double] is a binary64 value, Rocq's primitive [float]; its
      operators are the IEEE 754 ones ([PrimFloat.mul], [PrimFloat.sub],
      [PrimFloat.ltb], ...), so a run of the model on concrete numbers is
      bit-for-bit the run of the program.
    - A C++ [float] (the blend arithmetic of the compositor) is a binary32
      value, modelled with [SpecFloat] at precision 24; every operation is
      rounded on its own (no fused multiply-add, no excess precision).
    - A C++ [int] is a [Z] in the 32-bit range.  Signed overflow, division by
      zero and a floating value that does not fit the integer type are
      undefined behaviour: the model stops with [Undefined].
    - The frame source is the list of decoded packets of the subtitle stream;
      writing a PNG is a function that says whether the file was written.

    The definitions come first, the properties after them: the arithmetic of
    [time_to_tc] (C3, C4, C10), the clip range (C5), the frame loop (C1, C2,
    C6, C8, C9) and the compositor (C7), then further properties of the
    code (X1 to X26). *)

From Stdlib Require Import ZArith Floats Lia Bool List String Ascii DecimalString DecimalPos.
Import ListNotations.

#[local] Set Warnings "-inexact-float".
#[local] Open Scope Z_scope.

(** ** Results of C++ evaluation *)

Inductive ub : Type :=
| DivByZero        (* integer division or remainder by zero *)
| IntOverflow      (* signed 32-bit overflow *)
| FloatToIntRange. (* static_cast<int> of a NaN, an infinity or a value out of range *)

Inductive result (A : Type) : Type :=
| Ok (a : A)
| Undefined (u : ub).
Arguments Ok {A} a.
Arguments Undefined {A} u.

Definition bind {A B} (r : result A) (k : A -> result B) : result B :=
  match r with
  | Ok a => k a
  | Undefined u => Undefined u
  end.

Notation "x <- r ;; k" := (bind r (fun x => k))
  (at level 61, r at next level, right associativity).
Notation "' p <- r ;; k" := (bind r (fun x => let p := x in k))
  (at level 61, p pattern, r at next level, right associativity).

(** ** 32-bit [int] arithmetic *)

Module Int.
Definition min : Z := - 2 ^ 31.
Definition max : Z := 2 ^ 31 - 1.

Definition in_range (z : Z) : bool := (min <=? z) && (z <=? max).

Definition wrap (z : Z) : result Z :=
  if in_range z then Ok z else Undefined IntOverflow.

Definition add (a b : Z) : result Z := wrap (a + b).
Definition mul (a b : Z) : result Z := wrap (a * b).

(** [a / b]: truncation towards zero. *)
Definition div (a b : Z) : result Z :=
  if b =? 0 then Undefined DivByZero else wrap (Z.quot a b).

(** [a % b]: the sign of the dividend; undefined when [a / b] is. *)
Definition rem (a b : Z) : result Z :=
  if b =? 0 then Undefined DivByZero
  else if in_range (Z.quot a b) then Ok (Z.rem a b)
  else Undefined IntOverflow.
End Int.

(** ** [std::round] and [static_cast<int>] on a [double] *)

(** The magnitude [m * 2^e] rounded to the nearest integer, halves upwards
    (that is, away from zero once the sign is put back). *)
Definition round_magnitude (m : positive) (e : Z) : Z :=
  match e with
  | Z.neg k => (Z.pos m + 2 ^ (Z.pos k - 1)) / 2 ^ Z.pos k
  | _ => Z.pos m * 2 ^ e
  end.

(** [std::round(x)] as an integer; [None] for a NaN or an infinity, which
    [std::round] returns unchanged. *)
Definition std_round (x : float) : option Z :=
  match Prim2SF x with
  | S754_zero _ => Some 0
  | S754_finite s m e =>
      let r := round_magnitude m e in Some (if s then - r else r)
  | S754_infinity _ | S754_nan => None
  end.

(** [static_cast<int>(std::round(x))]. *)
Definition round_to_int (x : float) : result Z :=
  match std_round x with
  | Some z => if Int.in_range z then Ok z else Undefined FloatToIntRange
  | None => Undefined FloatToIntRange
  end.

(** ** bdn_xml_generator.cpp *)

Record timecode : Type := mkTC
  { tc_hours : Z; tc_minutes : Z; tc_secs : Z; tc_frames : Z }.

(** [if (seconds < 0) seconds = 0;] *)
Definition clamp_seconds (seconds : float) : float :=
  if (seconds <? 0)%float then 0%float else seconds.

(** [int total_frames = static_cast<int>(std::round(seconds * fps));] *)
Definition total_frames (seconds fps : float) : result Z :=
  round_to_int (clamp_seconds seconds * fps)%float.

(** The divisions of [time_to_tc], before the two carry tests. *)
Definition tc_split (total fps_int : Z) : result timecode :=
  frames_per_hour <- Int.mul fps_int 3600 ;;
  frames_per_minute <- Int.mul fps_int 60 ;;
  hours <- Int.div total frames_per_hour ;;
  remaining_frames <- Int.rem total frames_per_hour ;;
  minutes <- Int.div remaining_frames frames_per_minute ;;
  remaining_frames <- Int.rem remaining_frames frames_per_minute ;;
  secs <- Int.div remaining_frames fps_int ;;
  frames <- Int.rem remaining_frames fps_int ;;
  Ok (mkTC hours minutes secs frames).

(** [if (secs >= 60) { minutes += secs / 60; secs = secs % 60; }] *)
Definition carry_secs (t : timecode) : result timecode :=
  if 60 <=? tc_secs t then
    q <- Int.div (tc_secs t) 60 ;;
    minutes <- Int.add (tc_minutes t) q ;;
    secs <- Int.rem (tc_secs t) 60 ;;
    Ok (mkTC (tc_hours t) minutes secs (tc_frames t))
  else Ok t.

(** [if (minutes >= 60) { hours += minutes / 60; minutes = minutes % 60; }] *)
Definition carry_minutes (t : timecode) : result timecode :=
  if 60 <=? tc_minutes t then
    q <- Int.div (tc_minutes t) 60 ;;
    hours <- Int.add (tc_hours t) q ;;
    minutes <- Int.rem (tc_minutes t) 60 ;;
    Ok (mkTC hours minutes (tc_secs t) (tc_frames t))
  else Ok t.

(** The four fields [time_to_tc] hands to [format_tc]. *)
Definition time_to_tc_fields (seconds fps : float) : result timecode :=
  total <- total_frames seconds fps ;;
  fps_int <- round_to_int fps ;;
  t <- tc_split total fps_int ;;
  t <- carry_secs t ;;
  carry_minutes t.

(** [oss << std::setfill('0') << std::setw(w) << n]: the decimal digits of
    [n] (with a minus sign when negative), padded on the left with ['0'] up
    to width [w]; a longer number is printed in full. *)
Fixpoint fill0 (k : nat) (s : string) : string :=
  match k with
  | O => s
  | S k' => String "0"%char (fill0 k' s)
  end.

Definition setw (w : nat) (n : Z) : string :=
  let s := NilZero.string_of_int (Z.to_int n) in
  fill0 (w - String.length s) s.

Definition setw2 (n : Z) : string := setw 2 n.

Definition format_tc (hours minutes seconds frames : Z) : string :=
  (setw2 hours ++ ":" ++ setw2 minutes ++ ":" ++ setw2 seconds ++ ":" ++ setw2 frames)%string.

Definition time_to_tc (seconds fps : float) : result string :=
  t <- time_to_tc_fields seconds fps ;;
  Ok (format_tc (tc_hours t) (tc_minutes t) (tc_secs t) (tc_frames t)).

(** [return timestamp - start_time;] *)
Definition adjust_timestamp (timestamp start_time : float) : float :=
  (timestamp - start_time)%float.

(** [BDNXmlGenerator::determine_video_format] *)
Definition determine_video_format (canvas_height : Z) (is_interlaced : bool) : string :=
  if canvas_height =? 1080 then
    if is_interlaced then "1080i" else "1080p"
  else if canvas_height =? 720 then "720p"
  else if canvas_height =? 480 then
    if is_interlaced then "480i" else "480p"
  else "1080p".

(** ** main.cpp: clip range *)

(** [adjust_timestamp_for_range]: [None] is the C++ [false] (the references
    are then left as they were); [Some (s, e)] is [true] with the values the
    two references hold on return.  [x >= y] on doubles is [y <= x]. *)
Definition adjust_timestamp_for_range (adjusted_start adjusted_end : float)
    (ss to : option float) : option (float * float) :=
  if match ss with Some s => (adjusted_start <? s)%float | None => false end then None
  else if match to with Some t => (t <=? adjusted_start)%float | None => false end then None
  else
    let adjusted_end :=
      match to with
      | Some t => if (t <? adjusted_end)%float then t else adjusted_end
      | None => adjusted_end
      end in
    match ss with
    | Some s => Some ((adjusted_start - s)%float, (adjusted_end - s)%float)
    | None => Some (adjusted_start, adjusted_end)
    end.

(** ** Frames and events *)

Record BitmapData : Type := mkBitmap
  { bmp_data : list Z;   (* RGBA bytes *)
    bmp_width : Z;
    bmp_height : Z;
    bmp_stride : Z }.

Record SubtitleFrame : Type := mkFrame
  { bitmap : option BitmapData;   (* [nullptr] is [None] *)
    pts : Z;
    timestamp : float;
    start_time : float;
    end_time : float;
    frame_x : Z;
    frame_y : Z }.

(** The frame as [get_next_subtitle_frame] leaves it when it returns [false],
    and as [SubtitleFrame]'s default member initialisers make it. *)
Definition blank_frame : SubtitleFrame :=
  mkFrame None 0 0%float 0%float 0%float 0 0.

Record SubtitleEvent : Type := mkEvent
  { in_tc : string;
    out_tc : string;
    png_file : string;
    ev_x : Z;
    ev_y : Z;
    ev_width : Z;
    ev_height : Z }.

(** [BitmapProcessor::generate_png_filename]. *)
Definition generate_png_filename (index : Z) (base_name : string) : string :=
  (base_name ++ setw 5 index ++ ".png")%string.

(** [e.out_tc = tc;] *)
Definition with_out_tc (tc : string) (e : SubtitleEvent) : SubtitleEvent :=
  mkEvent (in_tc e) tc (png_file e) (ev_x e) (ev_y e) (ev_width e) (ev_height e).

(** [events.back().out_tc = tc;] on a non-empty vector. *)
Fixpoint set_back_out_tc (tc : string) (events : list SubtitleEvent) : list SubtitleEvent :=
  match events with
  | [] => []
  | [e] => [with_out_tc tc e]
  | e :: rest => e :: set_back_out_tc tc rest
  end.

(** ** main.cpp: the frame loop *)

(** What the loop reads of [opts], [video_info] and [bdn_info]. *)
Record Config : Type := mkConfig
  { video_start_time : float;   (* video_info.start_time *)
    bdn_fps : float;            (* bdn_info.fps *)
    opt_ss : option float;      (* opts.ss *)
    opt_to : option float;      (* opts.to *)
    base_name : string }.

(** [bdn_info.fps = video_info.fps > 0 ? video_info.fps : 29.97;] *)
Definition choose_fps (video_fps : float) : float :=
  if (0 <? video_fps)%float then video_fps else 29.97%float.

(** The loop's variables that outlive an iteration. *)
Record LoopState : Type := mkState
  { events : list SubtitleEvent;
    frame_index : Z }.

(** [f.start_time > 0 && f.end_time > f.start_time]: the test the loop makes
    before it trusts a frame's display times. *)
Definition display_times_valid (f : SubtitleFrame) : bool :=
  (0 <? start_time f)%float && (start_time f <? end_time f)%float.

(** The values of [adjusted_start] and [adjusted_end] before the range check. *)
Definition resolve_times (cfg : Config) (cur : SubtitleFrame)
    (has_next_frame : bool) (next : SubtitleFrame) : float * float :=
  if display_times_valid cur then
    (adjust_timestamp (start_time cur) (video_start_time cfg),
     adjust_timestamp (end_time cur) (video_start_time cfg))
  else
    let adjusted_start := adjust_timestamp (timestamp cur) (video_start_time cfg) in
    let adjusted_end :=
      if has_next_frame then
        match bitmap next with
        | Some _ =>
            if display_times_valid next
            then adjust_timestamp (start_time next) (video_start_time cfg)
            else adjust_timestamp (timestamp next) (video_start_time cfg)
        | None => adjust_timestamp (timestamp next) (video_start_time cfg)
        end
      else (adjusted_start + 1)%float in
    (adjusted_start, adjusted_end).

(** The end time a clear command gives the last event, in seconds. *)
Definition clear_timestamp (cfg : Config) (cur : SubtitleFrame) : float :=
  let t := adjust_timestamp (timestamp cur) (video_start_time cfg) in
  let t := match opt_to cfg with
           | Some to => if (to <? t)%float then to else t
           | None => t
           end in
  match opt_ss cfg with
  | Some ss => (t - ss)%float
  | None => t
  end.

Section FrameLoop.
Variable cfg : Config.
(** [BitmapProcessor::save_bitmap_as_png], by file name: the answer of the
    file system. *)
Variable save_bitmap_as_png : BitmapData -> string -> bool.

(** One pass through the body of the [do ... while], up to the statements
    that advance to the next frame. *)
Definition process_frame (cur : SubtitleFrame) (has_next_frame : bool)
    (next : SubtitleFrame) (st : LoopState) : result LoopState :=
  match bitmap cur with
  | None =>
      if (0 <? timestamp cur)%float then
        match events st with
        | [] => Ok st
        | _ :: _ =>
            tc <- time_to_tc (clear_timestamp cfg cur) (bdn_fps cfg) ;;
            Ok (mkState (set_back_out_tc tc (events st)) (frame_index st))
        end
      else Ok st
  | Some bmp =>
      if (bmp_width bmp =? 0) || (bmp_height bmp =? 0) then Ok st
      else
        let '(adjusted_start, adjusted_end) := resolve_times cfg cur has_next_frame next in
        match adjust_timestamp_for_range adjusted_start adjusted_end
                (opt_ss cfg) (opt_to cfg) with
        | None => Ok st
        | Some (start_timestamp, end_timestamp) =>
            if (end_timestamp <=? start_timestamp)%float then Ok st
            else
              let png_filename := generate_png_filename (frame_index st) (base_name cfg) in
              if negb (save_bitmap_as_png bmp png_filename) then Ok st
              else
                tc_in <- time_to_tc start_timestamp (bdn_fps cfg) ;;
                tc_out <- time_to_tc end_timestamp (bdn_fps cfg) ;;
                index' <- Int.add (frame_index st) 1 ;;
                Ok (mkState
                      (events st ++
                       [mkEvent tc_in tc_out png_filename (frame_x cur) (frame_y cur)
                                (bmp_width bmp) (bmp_height bmp)])
                      index')
        end
  end.

(** The [do ... while (subtitle_frame.bitmap != nullptr || has_next_frame)]
    loop.  [cur] is [subtitle_frame]; [rest] holds the frames the source
    has still to return, its head being [next_subtitle_frame] once read. *)
Fixpoint frame_loop (cur : SubtitleFrame) (rest : list SubtitleFrame)
    (st : LoopState) : result LoopState :=
  match rest with
  | [] => process_frame cur false blank_frame st
  | next :: rest' =>
      st' <- process_frame cur true next st ;;
      if (match bitmap next with Some _ => true | None => false end)
         || (match rest' with [] => false | _ :: _ => true end)
      then frame_loop next rest' st'
      else Ok st'
  end.

(** The events [main] hands to the generator, for the frames the source
    returns in order. *)
Definition main_events (frames : list SubtitleFrame) : result (list SubtitleEvent) :=
  match frames with
  | [] => Ok []
  | first :: rest =>
      st <- frame_loop first rest (mkState [] 0) ;;
      Ok (events st)
  end.
End FrameLoop.

(** ** ffmpeg_wrapper.cpp: compositing the rects of one subtitle *)

(** Single-precision arithmetic of the blend: each operation rounds to
    binary32 (precision 24, exponents below 128). *)
Module F32.
Definition prec : Z := 24.
Definition emax : Z := 128.

(** An [int] (or a promoted [uint8_t]) converted to [float]. *)
Definition of_int (z : Z) : spec_float := binary_normalize prec emax z 0 false.
Definition add : spec_float -> spec_float -> spec_float := SFadd prec emax.
Definition sub : spec_float -> spec_float -> spec_float := SFsub prec emax.
Definition mul : spec_float -> spec_float -> spec_float := SFmul prec emax.
Definition div : spec_float -> spec_float -> spec_float := SFdiv prec emax.

(** The integer part, towards zero. *)
Definition trunc (x : spec_float) : option Z :=
  match x with
  | S754_zero _ => Some 0
  | S754_finite s m e =>
      let q := match e with
               | Z.neg k => Z.pos m / 2 ^ Z.pos k
               | _ => Z.pos m * 2 ^ e
               end in
      Some (if s then - q else q)
  | S754_infinity _ | S754_nan => None
  end.

(** [(uint8_t) x]: undefined unless the integer part is a [uint8_t]. *)
Definition to_uint8 (x : spec_float) : result Z :=
  match trunc x with
  | Some z => if (0 <=? z) && (z <=? 255) then Ok z else Undefined FloatToIntRange
  | None => Undefined FloatToIntRange
  end.
End F32.

Record rgba : Type := mkRGBA
  { px_r : Z; px_g : Z; px_b : Z; px_a : Z }.

(** [r = (argb >> 16) & 0xFF; g = (argb >> 8) & 0xFF; b = argb & 0xFF;
     a = (argb >> 24) & 0xFF;] on a palette entry. *)
Definition unpack_argb (argb : Z) : rgba :=
  mkRGBA (Z.land (Z.shiftr argb 16) 255)
         (Z.land (Z.shiftr argb 8) 255)
         (Z.land (Z.shiftr argb 0) 255)
         (Z.land (Z.shiftr argb 24) 255).

(** [(uint8_t)(c * alpha + d * inv_alpha)] *)
Definition blend_channel (c : Z) (alpha : spec_float) (d : Z) (inv_alpha : spec_float)
    : result Z :=
  F32.to_uint8 (F32.add (F32.mul (F32.of_int c) alpha) (F32.mul (F32.of_int d) inv_alpha)).

(** [(uint8_t)(a + d * inv_alpha)] *)
Definition blend_alpha (a d : Z) (inv_alpha : spec_float) : result Z :=
  F32.to_uint8 (F32.add (F32.of_int a) (F32.mul (F32.of_int d) inv_alpha)).

(** The [else] branch: the four stores of the alpha blend. *)
Definition alpha_blend (src dst : rgba) : result rgba :=
  let alpha := F32.div (F32.of_int (px_a src)) (F32.of_int 255) in
  let inv_alpha := F32.sub (F32.of_int 1) alpha in
  r <- blend_channel (px_r src) alpha (px_r dst) inv_alpha ;;
  g <- blend_channel (px_g src) alpha (px_g dst) inv_alpha ;;
  b <- blend_channel (px_b src) alpha (px_b dst) inv_alpha ;;
  a <- blend_alpha (px_a src) (px_a dst) inv_alpha ;;
  Ok (mkRGBA r g b a).

(** What the four bytes at [offset] hold after one source pixel is drawn
    over them: the [if (a > 0) { if (a == 255 || dst.a == 0) ... else ... }]
    statement. *)
Definition composite_pixel (src dst : rgba) : result rgba :=
  if 0 <? px_a src then
    if (px_a src =? 255) || (px_a dst =? 0) then Ok src
    else alpha_blend src dst
  else Ok dst.

(** Byte buffers: [data[i]] and [data[i] = v]. *)
Definition load (data : list Z) (i : Z) : Z := nth (Z.to_nat i) data 0.

Fixpoint store_nat (data : list Z) (i : nat) (v : Z) : list Z :=
  match data, i with
  | [], _ => []
  | _ :: rest, O => v :: rest
  | d :: rest, S i' => d :: store_nat rest i' v
  end.

Definition store (data : list Z) (i : Z) (v : Z) : list Z :=
  store_nat data (Z.to_nat i) v.

Definition load_pixel (data : list Z) (offset : Z) : rgba :=
  mkRGBA (load data offset) (load data (offset + 1))
         (load data (offset + 2)) (load data (offset + 3)).

Definition store_pixel (data : list Z) (offset : Z) (p : rgba) : list Z :=
  store (store (store (store data offset (px_r p)) (offset + 1) (px_g p))
               (offset + 2) (px_b p)) (offset + 3) (px_a p).

(** An [AVSubtitleRect] of the decoder.  [rect_indices] is [data[0]] (one
    palette index per pixel, [rect_linesize] per row) and [rect_palette] is
    [data[1]] (32-bit ARGB entries); [None] is a null pointer.  The decoder
    hands over buffers that cover the rect, so a read inside the rect is
    inside the buffer. *)
Record AVSubtitleRect : Type := mkRect
  { rect_is_bitmap : bool;     (* type == SUBTITLE_BITMAP *)
    rect_x : Z; rect_y : Z; rect_w : Z; rect_h : Z;
    rect_linesize : Z;
    rect_indices : option (list Z);
    rect_palette : option (list Z) }.

(** [0 .. n-1], the values a [for (int i = 0; i < n; i++)] loop takes. *)
Definition upto (n : Z) : list Z := map Z.of_nat (seq 0 (Z.to_nat n)).

(** The body of the two nested loops for the source pixel [(x, y)] of a
    rect placed at [(dest_x, dest_y)] in a composite [composite_width] by
    [composite_height]. *)
Definition draw_pixel (indices palette : list Z) (linesize dest_x dest_y : Z)
    (composite_width composite_height : Z) (y x : Z) (data : list Z)
    : result (list Z) :=
  let index := load indices (y * linesize + x) in
  let src := unpack_argb (load palette index) in
  let comp_x := dest_x + x in
  let comp_y := dest_y + y in
  if (0 <=? comp_x) && (comp_x <? composite_width)
     && (0 <=? comp_y) && (comp_y <? composite_height) then
    let offset := (comp_y * composite_width + comp_x) * 4 in
    p <- composite_pixel src (load_pixel data offset) ;;
    Ok (store_pixel data offset p)
  else Ok data.

Definition for_each {S : Type} (l : list Z) (body : Z -> S -> result S) (s : S)
    : result S :=
  fold_left (fun acc i => s' <- acc ;; body i s') l (Ok s).

(** One pass of the [for (i ...)] loop that draws the rects: non-bitmap
    rects and rects with a null plane are passed over. *)
Definition draw_rect (min_x min_y composite_width composite_height : Z)
    (rect : AVSubtitleRect) (data : list Z) : result (list Z) :=
  if negb (rect_is_bitmap rect) then Ok data
  else
    match rect_indices rect, rect_palette rect with
    | Some indices, Some palette =>
        let dest_x := rect_x rect - min_x in
        let dest_y := rect_y rect - min_y in
        for_each (upto (rect_h rect))
          (fun y data =>
             for_each (upto (rect_w rect))
               (fun x data =>
                  draw_pixel indices palette (rect_linesize rect) dest_x dest_y
                             composite_width composite_height y x data)
               data)
          data
    | _, _ => Ok data
    end.

(** The bounding box of the bitmap rects: [(min_x, min_y, max_x, max_y)],
    from [(INT_MAX, INT_MAX, INT_MIN, INT_MIN)]. *)
Definition bounding_box (rects : list AVSubtitleRect) : Z * Z * Z * Z :=
  fold_left
    (fun '(min_x, min_y, max_x, max_y) rect =>
       if rect_is_bitmap rect then
         (Z.min min_x (rect_x rect), Z.min min_y (rect_y rect),
          Z.max max_x (rect_x rect + rect_w rect),
          Z.max max_y (rect_y rect + rect_h rect))
       else (min_x, min_y, max_x, max_y))
    rects (Int.max, Int.max, Int.min, Int.min).

(** The composite bitmap of a subtitle with at least one bitmap rect,
    together with its top-left corner.  The canvas is at most 1920 by 1080,
    so the sums and products of coordinates stay far inside [int]. *)
Definition composite_rects (rects : list AVSubtitleRect) : result (BitmapData * Z * Z) :=
  let '(min_x, min_y, max_x, max_y) := bounding_box rects in
  let composite_width := max_x - min_x in
  let composite_height := max_y - min_y in
  let blank := repeat 0 (Z.to_nat (composite_width * composite_height * 4)) in
  data <- fold_left
            (fun acc rect =>
               data <- acc ;;
               draw_rect min_x min_y composite_width composite_height rect data)
            rects (Ok blank) ;;
  Ok (mkBitmap data composite_width composite_height (composite_width * 4), min_x, min_y).

(** ** ffmpeg_wrapper.cpp: from a decoded subtitle to a [SubtitleFrame] *)

Definition AV_NOPTS_VALUE : Z := - 2 ^ 63.

(** [0xFFFFFFFF]: the display time that means "not given". *)
Definition NO_DISPLAY_TIME : Z := 4294967295.

(** An integer converted to [double] (to nearest, ties to even; exact below
    [2^53]). *)
Definition Z_to_double (z : Z) : float :=
  SF2Prim (binary_normalize FloatOps.prec FloatOps.emax z 0 false).

Record AVRational : Type := mkRational { num : Z; den : Z }.

(** [a.num / (double) a.den] *)
Definition av_q2d (a : AVRational) : float :=
  (Z_to_double (num a) / Z_to_double (den a))%float.

Definition pts_to_seconds (pts : Z) (time_base : AVRational) : float :=
  if pts =? AV_NOPTS_VALUE then 0%float
  else (Z_to_double pts * av_q2d time_base)%float.

Record AVSubtitle : Type := mkSubtitle
  { sub_pts : Z;
    start_display_time : Z;   (* uint32_t, milliseconds *)
    end_display_time : Z;     (* uint32_t, milliseconds *)
    sub_rects : list AVSubtitleRect }.

(** A packet of the subtitle stream for which [avcodec_decode_subtitle2]
    succeeded with [got_subtitle] set; every other packet is read and
    dropped without effect. *)
Record DecodedPacket : Type := mkPacket
  { packet_pts : Z;
    subtitle : AVSubtitle }.

(** [subtitle_frame.pts]: the packet's, else the subtitle's. *)
Definition frame_pts (p : DecodedPacket) : Z :=
  if negb (packet_pts p =? AV_NOPTS_VALUE) then packet_pts p
  else sub_pts (subtitle p).

(** [base_timestamp], which is also [subtitle_frame.timestamp]. *)
Definition base_timestamp (time_base : AVRational) (p : DecodedPacket) : float :=
  if negb (frame_pts p =? AV_NOPTS_VALUE)
  then pts_to_seconds (frame_pts p) time_base
  else 0%float.

(** Whether both display times are given. *)
Definition display_times_given (s : AVSubtitle) : bool :=
  negb (start_display_time s =? NO_DISPLAY_TIME)
  && negb (end_display_time s =? NO_DISPLAY_TIME).

(** [(subtitle_frame.start_time, subtitle_frame.end_time)] *)
Definition display_times (time_base : AVRational) (p : DecodedPacket) : float * float :=
  let base := base_timestamp time_base p in
  if display_times_given (subtitle p) then
    ((base + Z_to_double (start_display_time (subtitle p)) / 1000)%float,
     (base + Z_to_double (end_display_time (subtitle p)) / 1000)%float)
  else (base, base).

(** The frame [get_next_subtitle_frame] returns for a decoded packet;
    [None] when the packet is passed over (rects, but none a bitmap). *)
Definition subtitle_frame_of (time_base : AVRational) (p : DecodedPacket)
    : result (option SubtitleFrame) :=
  let base := base_timestamp time_base p in
  let '(start, stop) := display_times time_base p in
  match sub_rects (subtitle p) with
  | [] =>
      (* num_rects == 0: a clear command *)
      Ok (Some (mkFrame None (frame_pts p) base start stop 0 0))
  | _ :: _ =>
      if existsb rect_is_bitmap (sub_rects (subtitle p)) then
        '(bmp, min_x, min_y) <- composite_rects (sub_rects (subtitle p)) ;;
        Ok (Some (mkFrame (Some bmp) (frame_pts p) base start stop min_x min_y))
      else Ok None
  end.

(** The frames that successive calls of [get_next_subtitle_frame] return
    over a stream. *)
Fixpoint decode_frames (time_base : AVRational) (stream : list DecodedPacket)
    : result (list SubtitleFrame) :=
  match stream with
  | [] => Ok []
  | p :: rest =>
      f <- subtitle_frame_of time_base p ;;
      frames <- decode_frames time_base rest ;;
      Ok (match f with Some fr => fr :: frames | None => frames end)
  end.

(** The whole run: decode, then the frame loop. *)
Definition run (cfg : Config) (save_bitmap_as_png : BitmapData -> string -> bool)
    (time_base : AVRational) (stream : list DecodedPacket)
    : result (list SubtitleEvent) :=
  frames <- decode_frames time_base stream ;;
  main_events cfg save_bitmap_as_png frames.

(** ** The timecode of the specification

    Section 4.4 in its own words, over unbounded integers: clamp, one
    rounded frame count, the nominal rate [fpsInt], successive integer
    divisions by [fpsInt*3600], [fpsInt*60] and [fpsInt], and the carry of
    seconds into minutes and of minutes into hours.  [/] and [mod] round
    down; with the positive divisor of a frame rate that is Euclidean
    division. *)
Definition timeToTimecode (seconds fps : float) : option timecode :=
  let seconds := if (seconds <? 0)%float then 0%float else seconds in
  match std_round (seconds * fps)%float, std_round fps with
  | Some totalFrames, Some fpsInt =>
      let hours := totalFrames / (fpsInt * 3600) in
      let rest := totalFrames mod (fpsInt * 3600) in
      let minutes := rest / (fpsInt * 60) in
      let rest := rest mod (fpsInt * 60) in
      let secs := rest / fpsInt in
      let frames := rest mod fpsInt in
      let '(minutes, secs) :=
        if 60 <=? secs then (minutes + secs / 60, secs mod 60) else (minutes, secs) in
      let '(hours, minutes) :=
        if 60 <=? minutes then (hours + minutes / 60, minutes mod 60) else (hours, minutes) in
      Some (mkTC hours minutes secs frames)
  | _, _ => None
  end.

(** The frame rates of the round-trip property. *)
Definition tested_rates : list float :=
  [23.976; 24; 25; 29.97; 30; 59.94; 60]%float.

(** ** Clip-range trimming in the words of the specification (section 4.3) *)

(** An event is dropped when its start is before [rangeStart] or at or
    after [rangeEnd]. *)
Definition range_drops (rangeStart rangeEnd : option float) (start : float) : bool :=
  match rangeStart with Some rs => (start <? rs)%float | None => false end
  || match rangeEnd with Some re => (re <=? start)%float | None => false end.

(** The end, clamped to [rangeEnd] when it exceeds it. *)
Definition range_clamp (rangeEnd : option float) (stop : float) : float :=
  match rangeEnd with
  | Some re => if (re <? stop)%float then re else stop
  | None => stop
  end.

(** Re-basing to zero at [rangeStart]. *)
Definition range_rebase (rangeStart : option float) (t : float) : float :=
  match rangeStart with
  | Some rs => (t - rs)%float
  | None => t
  end.

Definition trim_to_range (rangeStart rangeEnd : option float) (start stop : float)
    : option (float * float) :=
  if range_drops rangeStart rangeEnd start then None
  else Some (range_rebase rangeStart start,
             range_rebase rangeStart (range_clamp rangeEnd stop)).

(** ** Decode order *)

(** The start timecode the loop computes for [cur] when [cur] carries a
    bitmap and passes the clip range; [None] when no event can start with
    this frame. *)
Definition frame_in_tc (cfg : Config) (cur : SubtitleFrame) (has_next_frame : bool)
    (next : SubtitleFrame) : option string :=
  match bitmap cur with
  | Some _ =>
      let '(adjusted_start, adjusted_end) := resolve_times cfg cur has_next_frame next in
      match adjust_timestamp_for_range adjusted_start adjusted_end
              (opt_ss cfg) (opt_to cfg) with
      | Some (start_timestamp, _) =>
          match time_to_tc start_timestamp (bdn_fps cfg) with
          | Ok tc => Some tc
          | Undefined _ => None
          end
      | None => None
      end
  | None => None
  end.

(** The start timecodes of the frames [cur :: rest], frame by frame, in the
    order the source returns them. *)
Fixpoint decode_order_in_tcs (cfg : Config) (cur : SubtitleFrame)
    (rest : list SubtitleFrame) : list (option string) :=
  match rest with
  | [] => [frame_in_tc cfg cur false blank_frame]
  | next :: rest' => frame_in_tc cfg cur true next :: decode_order_in_tcs cfg next rest'
  end.

(** [l1] is [l2] with some elements left out, the order kept. *)
Inductive Subsequence {A : Type} : list A -> list A -> Prop :=
| sub_nil (l : list A) : Subsequence [] l
| sub_skip (x : A) (l1 l2 : list A) : Subsequence l1 l2 -> Subsequence l1 (x :: l2)
| sub_take (x : A) (l1 l2 : list A) : Subsequence l1 l2 -> Subsequence (x :: l1) (x :: l2).

(** Timecodes of the fixed width [HH:MM:SS:FF] compare as their strings
    do; [tc_sorted] says a list of them never decreases. *)
Fixpoint tc_sorted (l : list string) : bool :=
  match l with
  | [] => true
  | a :: rest =>
      match rest with
      | [] => true
      | b :: _ => String.leb a b && tc_sorted rest
      end
  end.

(** ** Sample streams

    A 90 kHz stream with one-pixel opaque subtitles. *)
Module Sample.
Definition time_base : AVRational := mkRational 1 90000.

Definition argb (a r g b : Z) : Z := a * 2 ^ 24 + r * 2 ^ 16 + g * 2 ^ 8 + b.

(** A one-pixel bitmap rect at (100, 200) whose palette holds [colour]. *)
Definition dot (colour : Z) : AVSubtitleRect :=
  mkRect true 100 200 1 1 1 (Some [0]) (Some [colour]).

(** A subtitle shown from packet time [pts] (in ticks) with the display
    offsets [from] and [to] in milliseconds. *)
Definition show (pts from to : Z) : DecodedPacket :=
  mkPacket pts (mkSubtitle 0 from to [dot (argb 255 16 32 48)]).

(** A clear command at packet time [pts]. *)
Definition clear (pts : Z) : DecodedPacket :=
  mkPacket pts (mkSubtitle 0 0 NO_DISPLAY_TIME []).

Definition cfg : Config := mkConfig 0%float 29.97%float None None "sub".

(** The same for a stream that starts at 1.5 s, without and with a clip
    range from 2 s to 20 s. *)
Definition cfg_late : Config := mkConfig 1.5%float 29.97%float None None "sub".
Definition cfg_cut : Config :=
  mkConfig 1.5%float 29.97%float (Some 2%float) (Some 20%float) "sub".

(** Every PNG is written. *)
Definition saved (_ : BitmapData) (_ : string) : bool := true.
End Sample.

(** The start timecodes of a whole frame sequence, in decode order. *)
Definition in_tcs_in_decode_order (cfg : Config) (frames : list SubtitleFrame)
    : list (option string) :=
  match frames with
  | [] => []
  | first :: rest => decode_order_in_tcs cfg first rest
  end.

(** ** Auxiliary notions of the proofs *)

(** Dividend and divisor on the same side of zero: C++'s [/] and [%] agree
    with [Z.div] and [Z.modulo] exactly there. *)
Definition same_side (a b : Z) : Prop := (0 <= a /\ 0 < b) \/ (a <= 0 /\ b < 0).

(** The fields of a frame count by rounding-down division alone. *)
Definition split_fields (total n : Z) : timecode :=
  mkTC (total / (n * 3600))
       ((total mod (n * 3600)) / (n * 60))
       (((total mod (n * 3600)) mod (n * 60)) / n)
       (((total mod (n * 3600)) mod (n * 60)) mod n).


(** The k-th event names the PNG of index k. *)
Definition numbered (base : string) (evs : list SubtitleEvent) : Prop :=
  map png_file evs
  = map (fun k => generate_png_filename (Z.of_nat k) base) (seq 0 (List.length evs)).

(** The byte offset of the pixel [(cx, cy)] in a composite of width [w]. *)
Definition pixel_offset (w cx cy : Z) : Z := (cy * w + cx) * 4.

(** Whether the pixel [(cx, cy)] of the composite lies under [rect], for a
    composite whose corner is [(min_x, min_y)]. *)
Definition covers (min_x min_y : Z) (rect : AVSubtitleRect) (cx cy : Z) : Prop :=
  rect_x rect - min_x <= cx < rect_x rect - min_x + rect_w rect
  /\ rect_y rect - min_y <= cy < rect_y rect - min_y + rect_h rect.

(** The source pixel [(x, y)] of a rect, resolved through its palette. *)
Definition source_pixel (indices palette : list Z) (linesize x y : Z) : rgba :=
  unpack_argb (load palette (load indices (y * linesize + x))).

(** ** bdn_xml_generator.cpp: [xml_escape]

    The double quote is the character of code 34. *)

(** One pass of the [switch (c)]. *)
Definition escape_char (c : ascii) : string :=
  if Ascii.eqb c "&" then "&amp;"
  else if Ascii.eqb c "<" then "&lt;"
  else if Ascii.eqb c ">" then "&gt;"
  else if Ascii.eqb c "034" then "&quot;"
  else if Ascii.eqb c "'" then "&apos;"
  else String c EmptyString.

Fixpoint xml_escape (str : string) : string :=
  match str with
  | EmptyString => EmptyString
  | String c rest => (escape_char c ++ xml_escape rest)%string
  end.

(** The characters of a string. *)
Definition chars (s : string) : list ascii := list_ascii_of_string s.

(** The five characters [xml_escape] replaces. *)
Definition xml_special (c : ascii) : bool :=
  Ascii.eqb c "&" || Ascii.eqb c "<" || Ascii.eqb c ">"
  || Ascii.eqb c "034" || Ascii.eqb c "'".

(** Reading a run of decimal digits back as a number. *)
Definition read_decimal (s : string) : option Z :=
  option_map Z.of_uint (NilEmpty.uint_of_string s).

(** ** Whole-run properties of the frame loop *)

(** A frame the loop treats as a clear command: no bitmap and a positive
    [timestamp]. *)
Definition clear_command (f : SubtitleFrame) : bool :=
  match bitmap f with
  | None => (0 <? timestamp f)%float
  | Some _ => false
  end.

(** The event [e] shows the bitmap of the frame [f], saved under its file
    name. *)
Definition shows_frame (save_bitmap_as_png : BitmapData -> string -> bool)
    (e : SubtitleEvent) (f : SubtitleFrame) : Prop :=
  exists bmp,
    bitmap f = Some bmp
    /\ save_bitmap_as_png bmp (png_file e) = true
    /\ ev_x e = frame_x f /\ ev_y e = frame_y f
    /\ ev_width e = bmp_width bmp /\ ev_height e = bmp_height bmp.

(** The event's two timecodes are those of a start and an end, in seconds,
    of which the end is not at or before the start. *)
Definition positive_duration (fps : float) (e : SubtitleEvent) : Prop :=
  exists s t,
    (t <=? s)%float = false
    /\ time_to_tc s fps = Ok (in_tc e)
    /\ time_to_tc t fps = Ok (out_tc e).

(** ** The shape of a timecode *)

Definition is_digit (c : ascii) : bool :=
  (48 <=? nat_of_ascii c)%nat && (nat_of_ascii c <=? 57)%nat.

(** Two digits, three times followed by a colon and two digits:
    [HH:MM:SS:FF]. *)
Definition timecode_shaped (s : string) : bool :=
  match chars s with
  | [h1; h2; c1; m1; m2; c2; s1; s2; c3; f1; f2] =>
      is_digit h1 && is_digit h2 && Ascii.eqb c1 ":"
      && is_digit m1 && is_digit m2 && Ascii.eqb c2 ":"
      && is_digit s1 && is_digit s2 && Ascii.eqb c3 ":"
      && is_digit f1 && is_digit f2
  | _ => false
  end.

(** ** main.cpp: the canvas size *)

(** [std::isspace] in the "C" locale. *)
Definition is_space (c : ascii) : bool :=
  let n := nat_of_ascii c in
  (n =? 32)%nat || ((9 <=? n)%nat && (n <=? 13)%nat).

Fixpoint skip_spaces (s : string) : string :=
  match s with
  | String c rest => if is_space c then skip_spaces rest else s
  | EmptyString => s
  end.

(** The longest prefix of decimal digits. *)
Fixpoint digit_prefix (s : string) : string :=
  match s with
  | String c rest => if is_digit c then String c (digit_prefix rest) else EmptyString
  | EmptyString => EmptyString
  end.

(** [std::stoi(s)]: leading white space is skipped, a sign may follow, then
    the longest run of digits is read; what comes after is ignored.  [None]
    is an exception: [std::invalid_argument] when there is no digit,
    [std::out_of_range] when the number does not fit an [int]. *)
Definition stoi (s : string) : option Z :=
  let s := skip_spaces s in
  let '(negative, s) :=
    match s with
    | String "-" rest => (true, rest)
    | String "+" rest => (false, rest)
    | _ => (false, s)
    end in
  match digit_prefix s with
  | EmptyString => None
  | digits =>
      match read_decimal digits with
      | Some v =>
          let v := if negative then - v else v in
          if Int.in_range v then Some v else None
      | None => None
      end
  end.

(** [s.find(c)]: the first position of [c]; [None] is [npos]. *)
Fixpoint find_char (c : ascii) (s : string) : option nat :=
  match s with
  | EmptyString => None
  | String d rest =>
      if Ascii.eqb d c then Some O
      else option_map S (find_char c rest)
  end.

(** [s.substr(pos)], for [pos <= s.length()]. *)
Definition substr_from (pos : nat) (s : string) : string :=
  substring pos (String.length s - pos) s.

(** [determine_canvas_size]; the empty string is the error return. *)
Definition determine_canvas_size (resolution : option string)
    (video_width video_height : Z) : string :=
  match resolution with
  | Some res =>
      if String.eqb res "1920x1080" || String.eqb res "1440x1080"
         || String.eqb res "1280x720" || String.eqb res "720x480"
      then res
      else EmptyString
  | None =>
      if (video_width =? 1920) && (video_height =? 1080) then "1920x1080"
      else if (video_width =? 1440) && (video_height =? 1080) then "1920x1080"
      else if (video_width =? 1280) && (video_height =? 720) then "1280x720"
      else if (video_width =? 720) && (video_height =? 480) then "720x480"
      else EmptyString
  end.

(** [parse_canvas_size]: [Some (width, height)] when it returns [true]. *)
Definition parse_canvas_size (canvas_size : string) : option (Z * Z) :=
  match find_char "x" canvas_size with
  | None => None
  | Some x_pos =>
      match stoi (substring 0 x_pos canvas_size) with
      | None => None
      | Some width =>
          match stoi (substr_from (x_pos + 1) canvas_size) with
          | None => None
          | Some height => Some (width, height)
          end
      end
  end.

(** The decimal digits of an [int], as [operator<<] and [std::to_string]
    write them. *)
Definition to_string (n : Z) : string := NilZero.string_of_int (Z.to_int n).

(** [main], from the resolution option and the video's size to the canvas
    and the video format; [None] is [return 1]. *)
Definition canvas_and_format (resolution : option string)
    (video_width video_height : Z) (is_interlaced : bool)
    : option (string * Z * Z * string) :=
  let canvas_size := determine_canvas_size resolution video_width video_height in
  if (String.length canvas_size =? 0)%nat then None
  else
    match parse_canvas_size canvas_size with
    | None => None
    | Some (canvas_width, canvas_height) =>
        Some (canvas_size, canvas_width, canvas_height,
              determine_video_format canvas_height is_interlaced)
    end.

(** ** bdn_xml_generator.cpp: the document *)

Record BDNInfo : Type := mkInfo
  { info_video_width : Z;
    info_video_height : Z;
    info_fps : float;
    info_video_format : string }.

(** The double-quote and the newline character. *)
Definition dq : string := String "034"%char EmptyString.
Definition nl : string := String "010"%char EmptyString.

(** [m * 2^e] rounded to an integer, to nearest and ties to even: the digits
    the C library prints for a [double] are those of its exact value. *)
Definition round_half_even (m : Z) (e : Z) : Z :=
  match e with
  | Z.neg k =>
      let q := m / 2 ^ Z.pos k in
      let r := m mod 2 ^ Z.pos k in
      let half := 2 ^ (Z.pos k - 1) in
      if (half <? r) || ((r =? half) && Z.odd q) then q + 1 else q
  | _ => m * 2 ^ e
  end.

(** [file << std::fixed << std::setprecision(3) << x].  A NaN is written
    without its sign; the rate [main] passes is never a NaN. *)
Definition fixed3 (x : float) : string :=
  match Prim2SF x with
  | S754_nan => "nan"
  | S754_infinity s => if s then "-inf" else "inf"
  | S754_zero s => if s then "-0.000" else "0.000"
  | S754_finite s m e =>
      let thousandths := round_half_even (Z.pos m * 1000) e in
      ((if s then "-" else "") ++ to_string (thousandths / 1000) ++ "."
       ++ setw 3 (thousandths mod 1000))%string
  end.

(** What the body of the [for (const auto& event : events_)] loop writes. *)
Definition event_xml (e : SubtitleEvent) : string :=
  ("    <Event InTC=" ++ dq ++ xml_escape (in_tc e) ++ dq ++ " "
   ++ "OutTC=" ++ dq ++ xml_escape (out_tc e) ++ dq ++ " "
   ++ "Forced=" ++ dq ++ "False" ++ dq ++ ">" ++ nl
   ++ "      <Graphic Width=" ++ dq ++ to_string (ev_width e) ++ dq ++ " "
   ++ "Height=" ++ dq ++ to_string (ev_height e) ++ dq ++ " "
   ++ "X=" ++ dq ++ to_string (ev_x e) ++ dq ++ " "
   ++ "Y=" ++ dq ++ to_string (ev_y e) ++ dq ++ ">"
   ++ xml_escape (png_file e) ++ "</Graphic>" ++ nl
   ++ "    </Event>" ++ nl)%string.

(** What is written before the events. *)
Definition document_head (info : BDNInfo) : string :=
  ("<?xml version=" ++ dq ++ "1.0" ++ dq ++ " encoding=" ++ dq ++ "UTF-8" ++ dq ++ "?>" ++ nl
   ++ "<BDN Version=" ++ dq ++ "0.93" ++ dq
   ++ " xmlns:xsi=" ++ dq ++ "http://www.w3.org/2001/XMLSchema-instance" ++ dq ++ " "
   ++ "xsi:noNamespaceSchemaLocation=" ++ dq ++ "BDN.xsd" ++ dq ++ ">" ++ nl
   ++ "  <Description>" ++ nl
   ++ "    <Name Title=" ++ dq ++ "BDN Subtitle" ++ dq ++ "/>" ++ nl
   ++ "    <Language Code=" ++ dq ++ "und" ++ dq ++ "/>" ++ nl
   ++ "    <Format VideoFormat=" ++ dq ++ info_video_format info ++ dq ++ " "
   ++ "FrameRate=" ++ dq ++ fixed3 (info_fps info) ++ dq ++ " "
   ++ "DropFrame=" ++ dq ++ "False" ++ dq ++ "/>" ++ nl
   ++ "  </Description>" ++ nl
   ++ "  <Events>" ++ nl)%string.

Definition document_foot : string :=
  ("  </Events>" ++ nl ++ "</BDN>" ++ nl)%string.

(** The text [write_to_file] writes once the file is open. *)
Definition bdn_document (info : BDNInfo) (events : list SubtitleEvent) : string :=
  (document_head info
   ++ fold_right (fun e rest => event_xml e ++ rest) EmptyString events
   ++ document_foot)%string.

(** How often [c] occurs in [s]. *)
Definition count_char (c : ascii) (s : string) : nat :=
  List.length (filter (Ascii.eqb c) (chars s)).

(** The characters that delimit markup: [<], [>] and the double quote. *)
Definition is_markup (c : ascii) : bool :=
  Ascii.eqb c "<" || Ascii.eqb c ">" || Ascii.eqb c "034".

(** ** bitmap_processor.cpp: the checks before a PNG is written *)

(** [BitmapProcessor::save_bitmap_as_png]: an empty buffer or a width or
    height that is not positive is refused before the file is opened;
    [write_png] stands for the file system and libpng once it is. *)
Definition save_bitmap_as_png (write_png : BitmapData -> string -> bool)
    (bitmap : BitmapData) (filename : string) : bool :=
  if (match bmp_data bitmap with [] => true | _ :: _ => false end)
     || (bmp_width bitmap <=? 0) || (bmp_height bitmap <=? 0)
  then false
  else write_png bitmap filename.

(** ** The options of the decoder *)

(** A [std::map<std::string, std::string>]: the entries in the order of
    their keys, one entry per key. *)
Definition dict : Type := list (string * string).

(** [m.find(key)]; [None] is [m.end()]. *)
Fixpoint map_find (key : string) (m : dict) : option string :=
  match m with
  | [] => None
  | (k, v) :: rest => if String.eqb key k then Some v else map_find key rest
  end.

(** [m[key] = value] *)
Fixpoint map_set (key value : string) (m : dict) : dict :=
  match m with
  | [] => [(key, value)]
  | (k, v) :: rest =>
      match String.compare key k with
      | Eq => (key, value) :: rest
      | Lt => (key, value) :: m
      | Gt => (k, v) :: map_set key value rest
      end
  end.

(** [if (opts.find(key) == opts.end()) opts[key] = value;] *)
Definition set_default (key value : string) (opts : dict) : dict :=
  match map_find key opts with
  | None => map_set key value opts
  | Some _ => opts
  end.

(** main.cpp, [setup_libaribcaption_defaults] *)
Definition setup_libaribcaption_defaults (opts : dict) : dict :=
  set_default "replace_drcs" "0"
    (set_default "replace_msz_japanese" "0"
       (set_default "replace_msz_ascii" "0"
          (set_default "outline_width" "0.0" opts))).

(** The map [main] hands to [init_decoder]: the user's options, the canvas
    size, then the defaults. *)
Definition decoder_options (user_opts : dict) (canvas_size : string) : dict :=
  setup_libaribcaption_defaults (map_set "canvas_size" canvas_size user_opts).

(** The [av_dict_set] calls of [init_decoder], in order, as pairs of key
    and value, for a stream whose decoder was found and given a context;
    [None] when the canvas size makes it return [false].  [is_arib] says
    whether the decoder's name contains ["arib"]. *)
Definition init_decoder_dict (is_arib : bool) (libaribcaption_opts : dict)
    : option (list (string * string)) :=
  let user :=
    filter (fun '(key, _) => negb (String.eqb key "sub_type")
                             && negb (String.eqb key "canvas_size"))%string
           libaribcaption_opts in
  if is_arib then
    match map_find "canvas_size" libaribcaption_opts with
    | Some canvas_size =>
        match parse_canvas_size canvas_size with
        | Some _ => Some (("sub_type", "bitmap") :: ("canvas_size", canvas_size) :: user)%string
        | None => None
        end
    | None => None
    end
  else Some user.

(** The value [setup_libaribcaption_defaults] gives a key the user left out. *)
Definition default_value (key : string) : option string :=
  if String.eqb key "outline_width" then Some "0.0"%string
  else if String.eqb key "replace_msz_ascii" || String.eqb key "replace_msz_japanese"
          || String.eqb key "replace_drcs"
       then Some "0"%string
       else None.

(** ** options.cpp: the option string of libaribcaption *)

(** A character of [" \t"]. *)
Definition is_blank (c : ascii) : bool := Ascii.eqb c " " || Ascii.eqb c "009".

(** [s.erase(0, s.find_first_not_of(" \t"))] *)
Fixpoint ltrim (s : string) : string :=
  match s with
  | String c rest => if is_blank c then ltrim rest else s
  | EmptyString => EmptyString
  end.

(** [s.erase(s.find_last_not_of(" \t") + 1)] *)
Fixpoint rtrim (s : string) : string :=
  match s with
  | EmptyString => EmptyString
  | String c rest =>
      match rtrim rest with
      | EmptyString => if is_blank c then EmptyString else String c EmptyString
      | kept => String c kept
      end
  end.

Definition trim (s : string) : string := rtrim (ltrim s).

Definition is_quote (c : ascii) : bool := Ascii.eqb c "034" || Ascii.eqb c "'".

(** The value without the quotes around it, when it is at least two
    characters long and starts and ends with the same kind of quote. *)
Definition strip_quotes (value : string) : string :=
  match value, String.get (String.length value - 1) value with
  | String first _, Some last =>
      if (2 <=? String.length value)%nat
         && ((Ascii.eqb first "034" && Ascii.eqb last "034")
             || (Ascii.eqb first "'" && Ascii.eqb last "'"))
      then substring 1 (String.length value - 2) value
      else value
  | _, _ => value
  end.

Definition EXCLUDED_OPTS : list string :=
  ["sub_type"; "ass_single_rect"; "canvas_size"]%string.

Definition is_excluded_opt (key : string) : bool :=
  existsb (String.eqb key) EXCLUDED_OPTS.

(** The test made at a comma outside quotes, on the text after the comma:
    whether a non-empty key without a comma stands before the next ['=']. *)
Definition next_is_key (after_comma : string) : bool :=
  let next := ltrim after_comma in
  match find_char "=" next with
  | None => false
  | Some next_eq =>
      let potential_key := trim (substring 0 next_eq next) in
      negb (String.eqb potential_key EmptyString)
      && match find_char "," potential_key with None => true | Some _ => false end
  end.

(** The inner [while (i < remaining.length())] loop from position [i] on:
    the characters added to [value], and what follows the comma the loop
    stopped at (nothing when it ran to the end).  [prev] is
    [remaining[i-1]], or [None] at [value_start]. *)
Fixpoint scan_value (prev : option ascii) (in_quotes : bool) (quote_char : ascii)
    (s : string) : string * string :=
  match s with
  | EmptyString => (EmptyString, EmptyString)
  | String c rest =>
      if is_quote c
         && match prev with None => true | Some p => negb (Ascii.eqb p "\") end
      then
        let '(in_quotes', quote_char') :=
          if negb in_quotes then (true, c)
          else if Ascii.eqb c quote_char then (false, "000"%char)
          else (in_quotes, quote_char) in
        let '(value, remaining) := scan_value (Some c) in_quotes' quote_char' rest in
        (String c value, remaining)
      else if Ascii.eqb c "," && negb in_quotes && next_is_key rest
      then (EmptyString, rest)
      else
        let '(value, remaining) := scan_value (Some c) in_quotes quote_char rest in
        (String c value, remaining)
  end.

(** The outer [while (!remaining.empty())] loop; every pass takes at least
    the ['='] off [remaining], so [fuel] above its length is never used up. *)
Fixpoint parse_loop (fuel : nat) (remaining : string) (result : dict) : dict :=
  match fuel with
  | O => result
  | S fuel' =>
      let remaining := ltrim remaining in
      match remaining with
      | EmptyString => result
      | String _ _ =>
          match find_char "=" remaining with
          | None => result
          | Some eq_pos =>
              let key := rtrim (ltrim (substring 0 eq_pos remaining)) in
              let '(value, remaining') :=
                scan_value None false "000" (substr_from (eq_pos + 1) remaining) in
              let value := strip_quotes (rtrim (ltrim value)) in
              let result :=
                if is_excluded_opt key then result else map_set key value result in
              parse_loop fuel' remaining' result
          end
      end
  end.

(** [parse_libaribcaption_opts(opts_str, result)] *)
Definition parse_libaribcaption_opts (opts_str : string) (result : dict) : dict :=
  parse_loop (S (String.length opts_str)) opts_str result.

(** A character of a plain key or value: no blank, comma or quote. *)
Definition is_plain (c : ascii) : bool :=
  negb (is_blank c) && negb (Ascii.eqb c ",") && negb (is_quote c).

Definition plain_value (s : string) : bool := forallb is_plain (chars s).

(** A plain key is not empty and holds no ['='] either. *)
Definition plain_key (s : string) : bool :=
  negb (String.eqb s EmptyString)
  && forallb (fun c => is_plain c && negb (Ascii.eqb c "=")) (chars s).

(** [key=value] pairs written one after the other with commas between. *)
Fixpoint join_opts (l : list (string * string)) : string :=
  match l with
  | [] => EmptyString
  | [(k, v)] => (k ++ "=" ++ v)%string
  | (k, v) :: rest => (k ++ "=" ++ v ++ "," ++ join_opts rest)%string
  end.

(** What the options are stored as: one after the other, the excluded ones
    left out. *)
Definition store_opts (l : list (string * string)) (result : dict) : dict :=
  fold_left (fun m '(k, v) => if is_excluded_opt k then m else map_set k v m) l result.

(** ** options.cpp: the command line *)

Record Options : Type := mkOptions
  { o_input_file : string;
    o_output_dir : option string;
    o_resolution : option string;
    o_libaribcaption_opts : dict;
    o_ss : option float;
    o_to : option float;
    o_debug : bool;
    o_help : bool;
    o_version : bool }.

(** [Options opts;] with the default member initialisers. *)
Definition default_options : Options :=
  mkOptions EmptyString None None [] None None false false false.

(** The two ways [parse_options] ends: [return opts;] and [std::exit(code)]. *)
Inductive cli : Type :=
| Parsed (opts : Options)
| Exit (code : Z).

(** [arg[0] != '-']; [arg[0]] of an empty string is the null character. *)
Definition not_dashed (arg : string) : bool :=
  match arg with
  | String c _ => negb (Ascii.eqb c "-")
  | EmptyString => true
  end.

(** The last three branches of the chain, which take no value; [continue]
    is the rest of the [for] loop. *)
Definition plain_argument (arg : string) (opts : Options) (continue : Options -> cli) : cli :=
  if String.eqb arg "--debug" then
    continue (mkOptions (o_input_file opts) (o_output_dir opts) (o_resolution opts)
                (o_libaribcaption_opts opts) (o_ss opts) (o_to opts)
                true (o_help opts) (o_version opts))
  else if not_dashed arg then
    if String.eqb (o_input_file opts) EmptyString then
      continue (mkOptions arg (o_output_dir opts) (o_resolution opts)
                  (o_libaribcaption_opts opts) (o_ss opts) (o_to opts)
                  (o_debug opts) (o_help opts) (o_version opts))
    else Exit 1
  else Exit 1.

(** The [for (int i = 1; i < argc; i++)] loop over [argv[i..]], and the test
    after it. *)
Fixpoint parse_arguments (args : list string) (opts : Options) : cli :=
  match args with
  | [] => if String.eqb (o_input_file opts) EmptyString then Exit 1 else Parsed opts
  | arg :: rest =>
      if String.eqb arg "--help" || String.eqb arg "-h" then Exit 0
      else if String.eqb arg "--version" || String.eqb arg "-v" then Exit 0
      else
        match rest with
        | value :: rest' =>
            if String.eqb arg "--libaribcaption-opt" then
              parse_arguments rest'
                (mkOptions (o_input_file opts) (o_output_dir opts) (o_resolution opts)
                   (parse_libaribcaption_opts value (o_libaribcaption_opts opts))
                   (o_ss opts) (o_to opts) (o_debug opts) (o_help opts) (o_version opts))
            else if String.eqb arg "--output" then
              parse_arguments rest'
                (mkOptions (o_input_file opts) (Some value) (o_resolution opts)
                   (o_libaribcaption_opts opts)
                   (o_ss opts) (o_to opts) (o_debug opts) (o_help opts) (o_version opts))
            else if String.eqb arg "--resolution" || String.eqb arg "-r" then
              parse_arguments rest'
                (mkOptions (o_input_file opts) (o_output_dir opts) (Some value)
                   (o_libaribcaption_opts opts)
                   (o_ss opts) (o_to opts) (o_debug opts) (o_help opts) (o_version opts))
            else plain_argument arg opts (parse_arguments rest)
        | [] => plain_argument arg opts (parse_arguments rest)
        end
  end.

(** [parse_options(argc, argv)], for [args = argv[1 .. argc-1]]. *)
Definition parse_options (args : list string) : cli :=
  match args with
  | [] => Exit 1
  | _ :: _ => parse_arguments args default_options
  end.

(** * Properties *)

(** ** Facts about the arithmetic *)

Lemma wrap_ok z r : Int.wrap z = Ok r -> r = z /\ Int.in_range z = true.
Proof.
  unfold Int.wrap. destruct (Int.in_range z); intros H; inversion H; auto.
Qed.

Lemma in_range_bounds z : Int.in_range z = true <-> Int.min <= z <= Int.max.
Proof.
  unfold Int.in_range. rewrite andb_true_iff, !Z.leb_le. tauto.
Qed.

Lemma mul_ok a b r : Int.mul a b = Ok r -> r = a * b /\ Int.min <= a * b <= Int.max.
Proof.
  intros H. apply wrap_ok in H. rewrite in_range_bounds in H. exact H.
Qed.

Lemma add_ok a b r : Int.add a b = Ok r -> r = a + b /\ Int.min <= a + b <= Int.max.
Proof.
  intros H. apply wrap_ok in H. rewrite in_range_bounds in H. exact H.
Qed.

Lemma div_ok a b r : Int.div a b = Ok r -> b <> 0 /\ r = Z.quot a b.
Proof.
  unfold Int.div. destruct (Z.eqb_spec b 0); [discriminate|].
  intros H. apply wrap_ok in H. tauto.
Qed.

Lemma rem_ok a b r : Int.rem a b = Ok r -> b <> 0 /\ r = Z.rem a b.
Proof.
  unfold Int.rem. destruct (Z.eqb_spec b 0); [discriminate|].
  destruct (Int.in_range _); intros H; inversion H; auto.
Qed.

Lemma div_not_by_zero a b : b <> 0 -> Int.div a b <> Undefined DivByZero.
Proof.
  unfold Int.div, Int.wrap. destruct (Z.eqb_spec b 0); [contradiction|].
  destruct (Int.in_range _); discriminate.
Qed.

Lemma rem_not_by_zero a b : b <> 0 -> Int.rem a b <> Undefined DivByZero.
Proof.
  unfold Int.rem. destruct (Z.eqb_spec b 0); [contradiction|].
  destruct (Int.in_range _); discriminate.
Qed.

Lemma bind_ok {A B} (r : result A) (k : A -> result B) b :
  bind r k = Ok b -> exists a, r = Ok a /\ k a = Ok b.
Proof.
  destruct r as [a|u]; simpl; [eauto | discriminate].
Qed.

Lemma round_magnitude_nonneg m e : 0 <= round_magnitude m e.
Proof.
  unfold round_magnitude. destruct e as [|p|p].
  - simpl. lia.
  - assert (0 < 2 ^ Z.pos p) by (apply Z.pow_pos_nonneg; lia). lia.
  - assert (0 < 2 ^ Z.pos p) by (apply Z.pow_pos_nonneg; lia).
    assert (0 <= 2 ^ (Z.pos p - 1)) by (apply Z.pow_nonneg; lia).
    apply Z.div_pos; lia.
Qed.

(** Rounding to the format never changes the sign. *)
Lemma binary_round_aux_sign prec emax s m e l :
  match binary_round_aux prec emax s m e l with
  | S754_zero s' | S754_infinity s' | S754_finite s' _ _ => s' = s
  | S754_nan => True
  end.
Proof.
  unfold binary_round_aux.
  destruct (shr_fexp prec emax m e l) as [mrs' e'].
  destruct (shr_fexp prec emax _ e' loc_Exact) as [mrs'' e''].
  destruct (shr_m mrs''); [reflexivity | | exact I].
  destruct (e'' <=? emax - prec); reflexivity.
Qed.

Lemma clamp_seconds_not_negative seconds : (clamp_seconds seconds <? 0)%float = false.
Proof.
  unfold clamp_seconds. destruct (seconds <? 0)%float eqn:E; [reflexivity | exact E].
Qed.

(** A double that is not below zero has a clear sign bit unless it is a
    zero, an infinity or a NaN. *)
Lemma not_negative_finite x s m e :
  (x <? 0)%float = false -> Prim2SF x = S754_finite s m e -> s = false.
Proof.
  rewrite FloatAxioms.ltb_spec. intros H E. rewrite E in H.
  replace (Prim2SF 0) with (S754_zero false) in H by reflexivity.
  destruct s; [discriminate H | reflexivity].
Qed.

Lemma round_to_int_ok x n :
  round_to_int x = Ok n -> std_round x = Some n /\ Int.min <= n <= Int.max.
Proof.
  unfold round_to_int. destruct (std_round x) as [z|]; [|discriminate].
  destruct (Int.in_range z) eqn:E; intros H; inversion H; subst.
  apply in_range_bounds in E. auto.
Qed.

Lemma not_below_zero x : (0 <=? x)%float = true -> (x <? 0)%float = false.
Proof.
  rewrite FloatAxioms.leb_spec, FloatAxioms.ltb_spec.
  replace (Prim2SF 0) with (S754_zero false) by reflexivity.
  destruct (Prim2SF x) as [s|s| |s m e]; try destruct s; simpl;
    intros H; try reflexivity; discriminate H.
Qed.

Lemma clamp_seconds_id x : (0 <=? x)%float = true -> clamp_seconds x = x.
Proof.
  intros H. unfold clamp_seconds. rewrite (not_below_zero x H). reflexivity.
Qed.


(** ** Truncating against rounding-down division *)

Lemma quot_same_side a b : same_side a b -> Z.quot a b = a / b.
Proof.
  intros [[Ha Hb]|[Ha Hb]].
  - apply Z.quot_div_nonneg; assumption.
  - rewrite <- (Z.opp_involutive a), <- (Z.opp_involutive b).
    rewrite Z.quot_opp_opp, Z.div_opp_opp by lia.
    apply Z.quot_div_nonneg; lia.
Qed.

Lemma rem_same_side a b : same_side a b -> Z.rem a b = a mod b.
Proof.
  intros H. pose proof (quot_same_side a b H) as Hq.
  assert (Hb : b <> 0) by (destruct H; lia).
  pose proof (Z.quot_rem' a b). pose proof (Z.div_mod a b Hb). rewrite Hq in *. lia.
Qed.

Lemma div_same_side_nonneg a b : same_side a b -> 0 <= a / b.
Proof.
  intros [[Ha Hb]|[Ha Hb]].
  - apply Z.div_pos; lia.
  - rewrite <- (Z.opp_involutive a), <- (Z.opp_involutive b).
    rewrite Z.div_opp_opp by lia. apply Z.div_pos; lia.
Qed.

Lemma mod_same_side a b c : same_side a (b * c) -> 0 < c -> same_side (a mod (b * c)) b.
Proof.
  intros [[Ha Hb]|[Ha Hb]] Hc.
  - left. pose proof (Z.mod_pos_bound a (b * c) Hb). nia.
  - right. pose proof (Z.mod_neg_bound a (b * c) Hb). nia.
Qed.

Lemma div_mod_lt a b c : same_side a (b * c) -> 0 < c -> (a mod (b * c)) / b < c.
Proof.
  intros [[Ha Hb]|[Ha Hb]] Hc.
  - pose proof (Z.mod_pos_bound a (b * c) Hb).
    apply Z.div_lt_upper_bound; nia.
  - pose proof (Z.mod_neg_bound a (b * c) Hb).
    set (r := a mod (b * c)) in *.
    rewrite <- (Z.opp_involutive r), <- (Z.opp_involutive b).
    rewrite Z.div_opp_opp by lia.
    apply Z.div_lt_upper_bound; nia.
Qed.

(** ** The divisions of [time_to_tc] *)

Lemma tc_split_fields total n t :
  same_side total n -> tc_split total n = Ok t -> t = split_fields total n.
Proof.
  intros Hs H. unfold tc_split in H.
  apply bind_ok in H. destruct H as (fph & Hfph & H). apply mul_ok in Hfph.
  apply bind_ok in H. destruct H as (fpm & Hfpm & H). apply mul_ok in Hfpm.
  apply bind_ok in H. destruct H as (h & Hh & H). apply div_ok in Hh.
  apply bind_ok in H. destruct H as (r1 & Hr1 & H). apply rem_ok in Hr1.
  apply bind_ok in H. destruct H as (m & Hm & H). apply div_ok in Hm.
  apply bind_ok in H. destruct H as (r2 & Hr2 & H). apply rem_ok in Hr2.
  apply bind_ok in H. destruct H as (s & Hs' & H). apply div_ok in Hs'.
  apply bind_ok in H. destruct H as (f & Hf & H). apply rem_ok in Hf.
  inversion H; subst t; clear H.
  destruct Hfph as [-> _], Hfpm as [-> _].
  assert (S1 : same_side total (n * 3600)) by (unfold same_side in *; lia).
  assert (S2 : same_side (total mod (n * 3600)) (n * 60)).
  { replace (n * 3600) with (n * 60 * 60) by lia. apply mod_same_side; [|lia].
    replace (n * 60 * 60) with (n * 3600) by lia. exact S1. }
  assert (S3 : same_side ((total mod (n * 3600)) mod (n * 60)) n)
    by (apply mod_same_side; [exact S2 | lia]).
  destruct Hh as [_ ->], Hr1 as [_ ->].
  rewrite (rem_same_side _ _ S1) in *.
  destruct Hm as [_ ->], Hr2 as [_ ->].
  rewrite (rem_same_side _ _ S2) in *.
  destruct Hs' as [_ ->], Hf as [_ ->].
  unfold split_fields.
  rewrite (quot_same_side _ _ S1), (quot_same_side _ _ S2),
          (quot_same_side _ _ S3), (rem_same_side _ _ S3).
  reflexivity.
Qed.

Lemma split_fields_bounds total n :
  same_side total n ->
  0 <= tc_hours (split_fields total n)
  /\ 0 <= tc_minutes (split_fields total n) < 60
  /\ 0 <= tc_secs (split_fields total n) < 60.
Proof.
  intros Hs. unfold split_fields; simpl.
  assert (S1 : same_side total (n * 3600)) by (unfold same_side in *; lia).
  assert (S1' : same_side total (n * 60 * 60)) by (unfold same_side in *; lia).
  assert (S2 : same_side (total mod (n * 3600)) (n * 60)).
  { replace (n * 3600) with (n * 60 * 60) by lia. apply mod_same_side; [exact S1'|lia]. }
  assert (S3 : same_side ((total mod (n * 3600)) mod (n * 60)) n)
    by (apply mod_same_side; [exact S2 | lia]).
  repeat split.
  - apply div_same_side_nonneg; exact S1.
  - apply div_same_side_nonneg; exact S2.
  - replace (n * 3600) with (n * 60 * 60) by lia. apply div_mod_lt; [exact S1'|lia].
  - apply div_same_side_nonneg; exact S3.
  - apply div_mod_lt; [exact S2|lia].
Qed.

Lemma carry_secs_below t : tc_secs t < 60 -> carry_secs t = Ok t.
Proof.
  intros H. unfold carry_secs. destruct (Z.leb_spec 60 (tc_secs t)); [lia | reflexivity].
Qed.

Lemma carry_minutes_below t : tc_minutes t < 60 -> carry_minutes t = Ok t.
Proof.
  intros H. unfold carry_minutes. destruct (Z.leb_spec 60 (tc_minutes t)); [lia | reflexivity].
Qed.

(** ** The frame count and the nominal rate lie on the same side of zero *)

Lemma std_round_same_side seconds fps total n :
  std_round fps = Some n -> n <> 0 ->
  std_round (clamp_seconds seconds * fps)%float = Some total ->
  same_side total n.
Proof.
  intros Hf Hn Ht. unfold std_round in Hf, Ht.
  rewrite FloatAxioms.mul_spec in Ht.
  pose proof (clamp_seconds_not_negative seconds) as Hc.
  destruct (Prim2SF fps) as [sf|sf| |sf mf ef]; inversion Hf; subst n; [contradiction|].
  pose proof (round_magnitude_nonneg mf ef) as Hmf.
  assert (Side : forall z, 0 <= z -> same_side (if sf then - z else z)
                                        (if sf then - round_magnitude mf ef
                                         else round_magnitude mf ef)).
  { intros z Hz. unfold same_side. destruct sf; lia. }
  destruct (Prim2SF (clamp_seconds seconds)) as [s|s| |s m e] eqn:Ec; simpl in Ht;
    try discriminate.
  - inversion Ht. replace 0 with (if sf then - 0 else 0) by (destruct sf; reflexivity).
    apply Side; lia.
  - rewrite (not_negative_finite _ _ _ _ Hc Ec) in Ht. simpl in Ht.
    pose proof (binary_round_aux_sign prec emax sf (Z.pos (m * mf)) (e + ef) loc_Exact) as Hs.
    destruct (binary_round_aux prec emax sf (Z.pos (m * mf)) (e + ef) loc_Exact)
      as [s'|s'| |s' m' e']; inversion Ht; subst.
    + replace 0 with (if sf then - 0 else 0) by (destruct sf; reflexivity).
      apply Side; lia.
    + apply Side, round_magnitude_nonneg.
Qed.

(** Whenever [time_to_tc] is defined, its fields are the plain quotients
    and remainders of the one frame count. *)
Lemma time_to_tc_fields_inv seconds fps t :
  time_to_tc_fields seconds fps = Ok t ->
  exists total n,
    total_frames seconds fps = Ok total /\ round_to_int fps = Ok n /\ n <> 0
    /\ same_side total n /\ t = split_fields total n.
Proof.
  intros H. unfold time_to_tc_fields in H.
  apply bind_ok in H. destruct H as (total & Ht & H).
  apply bind_ok in H. destruct H as (n & Hn & H).
  apply bind_ok in H. destruct H as (t0 & Hsplit & H).
  apply bind_ok in H. destruct H as (t1 & Hc1 & Hc2).
  assert (Hn0 : n <> 0).
  { unfold tc_split in Hsplit.
    apply bind_ok in Hsplit. destruct Hsplit as (fph & Hfph & Hsplit).
    apply bind_ok in Hsplit. destruct Hsplit as (fpm & Hfpm & Hsplit).
    apply bind_ok in Hsplit. destruct Hsplit as (h & Hh & _).
    apply mul_ok in Hfph. apply div_ok in Hh. lia. }
  assert (Hside : same_side total n).
  { apply round_to_int_ok in Ht. apply round_to_int_ok in Hn.
    apply (std_round_same_side seconds fps); tauto. }
  pose proof (tc_split_fields _ _ _ Hside Hsplit) as ->.
  pose proof (split_fields_bounds total n Hside) as (_ & Hm & Hs).
  rewrite carry_secs_below in Hc1 by lia. inversion Hc1; subst t1.
  rewrite carry_minutes_below in Hc2 by lia. inversion Hc2; subst t.
  exists total, n. auto.
Qed.

Lemma split_fields_total total n :
  n <> 0 ->
  (tc_hours (split_fields total n) * 3600 + tc_minutes (split_fields total n) * 60
   + tc_secs (split_fields total n)) * n + tc_frames (split_fields total n) = total.
Proof.
  intros Hn. unfold split_fields; simpl.
  pose proof (Z.div_mod total (n * 3600) ltac:(lia)).
  pose proof (Z.div_mod (total mod (n * 3600)) (n * 60) ltac:(lia)).
  pose proof (Z.div_mod ((total mod (n * 3600)) mod (n * 60)) n Hn).
  lia.
Qed.

(** In range, [time_to_tc] is defined. *)
Lemma time_to_tc_fields_defined seconds fps total n :
  std_round (clamp_seconds seconds * fps)%float = Some total ->
  std_round fps = Some n ->
  1 <= n -> n * 3600 <= Int.max -> total <= Int.max ->
  time_to_tc_fields seconds fps = Ok (split_fields total n).
Proof.
  intros Ht Hn Hn1 Hfph Htot.
  assert (Hside : same_side total n)
    by (apply (std_round_same_side seconds fps); [assumption | lia | assumption]).
  assert (Ht0 : 0 <= total) by (destruct Hside; lia).
  assert (Hmax : Int.max = 2147483647) by reflexivity.
  assert (Hmin : Int.min = -2147483648) by reflexivity.
  assert (Range : forall z, 0 <= z <= total -> Int.in_range z = true)
    by (intros z Hz; apply in_range_bounds; lia).
  unfold time_to_tc_fields, total_frames, round_to_int.
  rewrite Ht, (Range total) by lia. simpl.
  rewrite Hn. replace (Int.in_range n) with true
    by (symmetry; apply in_range_bounds; lia). simpl.
  assert (S1 : same_side total (n * 3600)) by (unfold same_side in *; lia).
  assert (S1' : same_side total (n * 60 * 60)) by (unfold same_side in *; lia).
  assert (S2 : same_side (total mod (n * 3600)) (n * 60)).
  { replace (n * 3600) with (n * 60 * 60) by lia. apply mod_same_side; [exact S1'|lia]. }
  assert (S3 : same_side ((total mod (n * 3600)) mod (n * 60)) n)
    by (apply mod_same_side; [exact S2 | lia]).
  pose proof (Z.mod_pos_bound total (n * 3600) ltac:(lia)) as B1.
  pose proof (Z.mod_pos_bound (total mod (n * 3600)) (n * 60) ltac:(lia)) as B2.
  pose proof (Z.mod_le total (n * 3600) ltac:(lia) ltac:(lia)) as L1.
  pose proof (Z.mod_le (total mod (n * 3600)) (n * 60) ltac:(lia) ltac:(lia)) as L2.
  assert (Q : forall a b, 0 <= a <= total -> 0 < b -> 0 <= a / b <= total).
  { intros a b Ha Hb. split; [apply Z.div_pos; lia|].
    apply Z.le_trans with a; [|lia]. apply Z.div_le_upper_bound; nia. }
  unfold tc_split, Int.mul, Int.div, Int.rem, Int.wrap.
  replace (Int.in_range (n * 3600)) with true by (symmetry; apply in_range_bounds; lia).
  replace (Int.in_range (n * 60)) with true by (symmetry; apply in_range_bounds; lia).
  simpl.
  replace (n * 3600 =? 0) with false by (symmetry; apply Z.eqb_neq; lia).
  rewrite (quot_same_side _ _ S1), (rem_same_side _ _ S1).
  rewrite (Range (total / (n * 3600))) by (apply Q; lia). simpl.
  replace (n * 60 =? 0) with false by (symmetry; apply Z.eqb_neq; lia).
  rewrite (quot_same_side _ _ S2), (rem_same_side _ _ S2).
  rewrite (Range (total mod (n * 3600) / (n * 60))) by (apply Q; lia). simpl.
  replace (n =? 0) with false by (symmetry; apply Z.eqb_neq; lia).
  rewrite (quot_same_side _ _ S3), (rem_same_side _ _ S3).
  rewrite (Range ((total mod (n * 3600)) mod (n * 60) / n)) by (apply Q; lia). simpl.
  fold (split_fields total n).
  pose proof (split_fields_bounds total n Hside) as (_ & Hm & Hs).
  rewrite carry_secs_below by lia. simpl.
  apply carry_minutes_below. lia.
Qed.

(** ** How far a rounded product can be from the exact one

    The format's rounding ([binary_round_aux]) shifts the mantissa right,
    rounds, and shifts again; the facts below bound the outcome from above,
    which is all the range of [static_cast<int>] needs. *)

Lemma shr_1_m r : 0 <= shr_m r -> shr_m (shr_1 r) = shr_m r / 2.
Proof.
  destruct r as [m rb sb]; simpl. intros H.
  destruct m as [|p|p]; [reflexivity | | lia].
  destruct p as [p|p|]; simpl.
  - rewrite Pos2Z.inj_xI. apply Z.div_unique with 1; lia.
  - rewrite Pos2Z.inj_xO. apply Z.div_unique with 0; lia.
  - reflexivity.
Qed.

Lemma iter_shr_1_m p : forall r,
  0 <= shr_m r -> shr_m (iter_pos shr_1 p r) = shr_m r / 2 ^ Z.pos p.
Proof.
  induction p as [p IH|p IH|]; intros r H; simpl iter_pos.
  - assert (H1 : 0 <= shr_m (shr_1 r)) by (rewrite shr_1_m by lia; apply Z.div_pos; lia).
    assert (H2 : 0 <= shr_m (iter_pos shr_1 p (shr_1 r)))
      by (rewrite IH by lia; apply Z.div_pos; [lia | apply Z.pow_pos_nonneg; lia]).
    rewrite IH, IH, shr_1_m by lia.
    rewrite !Z.div_div by (try apply Z.pow_pos_nonneg; lia).
    f_equal. rewrite Pos2Z.inj_xI, <- Z.pow_add_r, <- (Z.pow_1_r 2) at 1 by lia.
    rewrite <- Z.pow_add_r by lia. f_equal. lia.
  - assert (H2 : 0 <= shr_m (iter_pos shr_1 p r))
      by (rewrite IH by lia; apply Z.div_pos; [lia | apply Z.pow_pos_nonneg; lia]).
    rewrite IH, IH by lia.
    rewrite !Z.div_div by (try apply Z.pow_pos_nonneg; lia).
    f_equal. rewrite Pos2Z.inj_xO, <- Z.pow_add_r by lia. f_equal. lia.
  - rewrite shr_1_m by lia. reflexivity.
Qed.

Lemma shr_scaled r e n S :
  0 <= shr_m r -> 0 <= e + S ->
  let '(r', e') := shr r e n in
  0 <= shr_m r' /\ e <= e' /\ shr_m r' * 2 ^ (e' + S) <= shr_m r * 2 ^ (e + S).
Proof.
  intros Hm He. unfold shr. destruct n as [|p|p]; try (repeat split; lia).
  rewrite iter_shr_1_m by lia.
  assert (Hp : 0 < 2 ^ Z.pos p) by (apply Z.pow_pos_nonneg; lia).
  assert (Hs : 0 < 2 ^ (e + S)) by (apply Z.pow_pos_nonneg; lia).
  repeat split.
  - apply Z.div_pos; lia.
  - lia.
  - replace (e + Z.pos p + S) with (Z.pos p + (e + S)) by lia.
    rewrite Z.pow_add_r by lia.
    pose proof (Z.mul_div_le (shr_m r) (2 ^ Z.pos p) Hp). nia.
Qed.

Lemma round_nearest_even_bounds m l :
  m <= round_nearest_even m l <= m + 1.
Proof.
  unfold round_nearest_even. destruct l as [|[| |]]; try lia.
  destruct (Z.even m); lia.
Qed.

Lemma digits2_pos_bound p : Z.pos p < 2 ^ Z.pos (digits2_pos p).
Proof.
  induction p as [p IH|p IH|]; simpl digits2_pos.
  - rewrite Pos2Z.inj_succ, Z.pow_succ_r by lia. lia.
  - rewrite Pos2Z.inj_succ, Z.pow_succ_r by lia. lia.
  - reflexivity.
Qed.

Lemma digits2_pos_lower p : 2 ^ (Z.pos (digits2_pos p) - 1) <= Z.pos p.
Proof.
  induction p as [p IH|p IH|]; simpl digits2_pos.
  - rewrite Pos2Z.inj_succ. replace (Z.succ (Z.pos (digits2_pos p)) - 1)
      with (Z.succ (Z.pos (digits2_pos p) - 1)) by lia.
    rewrite Z.pow_succ_r by lia. lia.
  - rewrite Pos2Z.inj_succ. replace (Z.succ (Z.pos (digits2_pos p)) - 1)
      with (Z.succ (Z.pos (digits2_pos p) - 1)) by lia.
    rewrite Z.pow_succ_r by lia. lia.
  - reflexivity.
Qed.

(** The mantissa and exponent that [binary_round_aux] settles on never
    exceed the exact value by more than one unit of the first shift. *)
Lemma binary_round_aux_scaled prec emax s M E S :
  0 < M -> 0 <= E + S ->
  let e1 := Z.max E (fexp prec emax (Zdigits2 M + E)) in
  match binary_round_aux prec emax s M E loc_Exact with
  | S754_finite _ m e =>
      E <= e /\ Z.pos m * 2 ^ (e + S) <= M * 2 ^ (E + S) + 2 ^ (e1 + S)
  | S754_infinity _ =>
      exists e, emax - prec < e /\ 2 ^ (e + S) <= M * 2 ^ (E + S) + 2 ^ (e1 + S)
  | S754_zero _ => True
  | S754_nan => False
  end.
Proof.
  intros HM HE e1. unfold binary_round_aux, shr_fexp.
  set (n := fexp prec emax (Zdigits2 M + E) - E).
  pose proof (shr_scaled (shr_record_of_loc M loc_Exact) E n S) as H1.
  simpl shr_m in H1. specialize (H1 ltac:(lia) HE).
  destruct (shr (shr_record_of_loc M loc_Exact) E n) as [r1 e'] eqn:E1.
  destruct H1 as (Hr1 & He' & Hv1).
  assert (He1 : e' = e1).
  { unfold shr in E1. subst e1. fold n in E1 |- *.
    destruct n as [|p|p] eqn:En; inversion E1; subst; lia. }
  set (m1 := round_nearest_even (shr_m r1) (loc_of_shr_record r1)).
  pose proof (round_nearest_even_bounds (shr_m r1) (loc_of_shr_record r1)) as Hrd.
  fold m1 in Hrd.
  set (n' := fexp prec emax (Zdigits2 m1 + e') - e').
  pose proof (shr_scaled (shr_record_of_loc m1 loc_Exact) e' n' S) as H2.
  simpl shr_m in H2. specialize (H2 ltac:(lia) ltac:(lia)).
  destruct (shr (shr_record_of_loc m1 loc_Exact) e' n') as [r2 e''] eqn:E2.
  destruct H2 as (Hr2 & He'' & Hv2).
  assert (Hp : 0 < 2 ^ (e' + S)) by (apply Z.pow_pos_nonneg; lia).
  assert (Hbound : shr_m r2 * 2 ^ (e'' + S) <= M * 2 ^ (E + S) + 2 ^ (e1 + S)).
  { rewrite <- He1. nia. }
  destruct (shr_m r2) as [|m|m] eqn:Em; [exact I | | lia].
  destruct (e'' <=? emax - prec) eqn:Ele; [split; [lia | exact Hbound]|].
  apply Z.leb_gt in Ele. exists e''. split; [exact Ele|].
  assert (0 < 2 ^ (e'' + S)) by (apply Z.pow_pos_nonneg; lia). nia.
Qed.

Lemma round_magnitude_scaled m e S V :
  0 <= S -> 0 <= e + S -> 0 <= V ->
  Z.pos m * 2 ^ (e + S) <= 2 ^ (V + S) ->
  round_magnitude m e <= 2 ^ V.
Proof.
  intros HS He HV H. unfold round_magnitude.
  destruct e as [|p|k].
  - rewrite Z.pow_0_r, Z.mul_1_r. rewrite Z.add_0_l in H.
    rewrite (Z.pow_add_r 2 V S) in H by lia.
    assert (HpS : 0 < 2 ^ S) by (apply Z.pow_pos_nonneg; lia).
    apply (Z.mul_le_mono_pos_r _ _ _ HpS). exact H.
  - rewrite (Z.pow_add_r 2 (Z.pos p) S), (Z.pow_add_r 2 V S) in H by lia.
    assert (HpS : 0 < 2 ^ S) by (apply Z.pow_pos_nonneg; lia).
    apply (Z.mul_le_mono_pos_r _ _ _ HpS). rewrite <- Z.mul_assoc. exact H.
  - assert (Hk : 0 < 2 ^ Z.pos k) by (apply Z.pow_pos_nonneg; lia).
    assert (Hq : 0 < 2 ^ (Z.neg k + S)) by (apply Z.pow_pos_nonneg; lia).
    assert (Hm : Z.pos m <= 2 ^ V * 2 ^ Z.pos k).
    { replace (V + S) with (V + Z.pos k + (Z.neg k + S)) in H by lia.
      rewrite (Z.pow_add_r 2 (V + Z.pos k)), (Z.pow_add_r 2 V) in H by lia. nia. }
    assert (Hh : 2 * 2 ^ (Z.pos k - 1) = 2 ^ Z.pos k).
    { rewrite <- Z.pow_succ_r by lia. f_equal. lia. }
    assert (0 < 2 ^ V) by (apply Z.pow_pos_nonneg; lia).
    assert (Hlt : (Z.pos m + 2 ^ (Z.pos k - 1)) / 2 ^ Z.pos k < 2 ^ V + 1)
      by (apply Z.div_lt_upper_bound; nia).
    lia.
Qed.

Lemma valid_binary_finite s m e :
  valid_binary (S754_finite s m e) = true ->
  Z.pos (digits2_pos m) <= 53 /\ -1074 <= e.
Proof.
  simpl. unfold bounded, canonical_mantissa, fexp.
  rewrite andb_true_iff, Z.eqb_eq. intros [H _].
  change (SpecFloat.emin prec emax) with (-1074) in H. change prec with 53 in H. lia.
Qed.

Lemma SFleb_finite_exponent m1 e1 m2 e2 :
  SFleb (S754_finite false m1 e1) (S754_finite false m2 e2) = true -> e1 <= e2.
Proof.
  unfold SFleb, SFcompare. destruct (Z.compare_spec e1 e2) as [Heq|Hlt|Hgt]; intros Hle; try lia; discriminate Hle.
Qed.

(** The frame count of a time up to one day, at a rate below 64, fits an
    [int] with room to spare. *)
Lemma product_in_int_range x fps mf ef :
  Prim2SF fps = S754_finite false mf ef ->
  Z.pos (digits2_pos mf) <= 53 -> -100 <= ef <= -47 ->
  (0 <=? x)%float = true -> (x <=? 86400)%float = true ->
  exists total, std_round (x * fps)%float = Some total /\ 0 <= total <= 2 ^ 24.
Proof.
  intros Ef Hdf Hef H0 HB.
  pose proof (not_below_zero x H0) as Hneg.
  rewrite FloatAxioms.leb_spec in HB.
  replace (Prim2SF 86400) with (S754_finite false 5937362789990400 (-36)) in HB
    by (vm_compute; reflexivity).
  rewrite FloatAxioms.leb_spec in H0.
  replace (Prim2SF 0) with (S754_zero false) in H0 by reflexivity.
  unfold std_round. rewrite FloatAxioms.mul_spec, Ef.
  pose proof (Prim2SF_valid x) as Hv.
  destruct (Prim2SF x) as [s|s| |s mx ex] eqn:Ex.
  - exists 0. simpl. split; [reflexivity | lia].
  - destruct s; discriminate.
  - discriminate.
  - rewrite (not_negative_finite _ _ _ _ Hneg Ex) in *.
    destruct (valid_binary_finite _ _ _ Hv) as (Hdx & Hex).
    apply SFleb_finite_exponent in HB.
    unfold SF64mul, SFmul. simpl xorb.
    set (M := Z.pos (mx * mf)). set (E := ex + ef).
    pose proof (binary_round_aux_scaled prec emax false M E 1200
                  ltac:(reflexivity) ltac:(unfold E; lia)) as Hb.
    pose proof (binary_round_aux_sign prec emax false M E loc_Exact) as Hs.
    cbv zeta in Hb.
    assert (HM : M < 2 ^ 106).
    { unfold M. rewrite Pos2Z.inj_mul.
      pose proof (digits2_pos_bound mx). pose proof (digits2_pos_bound mf).
      assert (2 ^ Z.pos (digits2_pos mx) <= 2 ^ 53) by (apply Z.pow_le_mono_r; lia).
      assert (2 ^ Z.pos (digits2_pos mf) <= 2 ^ 53) by (apply Z.pow_le_mono_r; lia).
      change (2 ^ 106) with (2 ^ 53 * 2 ^ 53). nia. }
    assert (Hd : Zdigits2 M <= 106).
    { unfold M. simpl Zdigits2.
      pose proof (digits2_pos_lower (mx * mf)) as Hl. fold M in Hl.
      destruct (Z_le_gt_dec (Z.pos (digits2_pos (mx * mf))) 106) as [|Hgt]; [assumption|].
      assert (2 ^ 106 <= 2 ^ (Z.pos (digits2_pos (mx * mf)) - 1))
        by (apply Z.pow_le_mono_r; lia).
      lia. }
    assert (He1 : Z.max E (fexp prec emax (Zdigits2 M + E)) <= 23).
    { unfold fexp. change (SpecFloat.emin prec emax) with (-1074). change prec with 53.
      unfold E. lia. }
    assert (Hsum : M * 2 ^ (E + 1200)
                   + 2 ^ (Z.max E (fexp prec emax (Zdigits2 M + E)) + 1200)
                   <= 2 ^ (24 + 1200)).
    { assert (2 ^ (E + 1200) <= 2 ^ (-83 + 1200))
        by (apply Z.pow_le_mono_r; unfold E; lia).
      assert (2 ^ (Z.max E (fexp prec emax (Zdigits2 M + E)) + 1200) <= 2 ^ (23 + 1200))
        by (apply Z.pow_le_mono_r; lia).
      assert (0 < 2 ^ (E + 1200)) by (apply Z.pow_pos_nonneg; unfold E; lia).
      change (2 ^ (24 + 1200)) with (2 ^ 106 * 2 ^ (-83 + 1200) + 2 ^ (23 + 1200)).
      nia. }
    destruct (binary_round_aux prec emax false M E loc_Exact) as [s'|s'| |s' m e].
    + exists 0. split; [reflexivity | lia].
    + exfalso. destruct Hb as (e & He & Hle).
      assert (2 ^ (24 + 1200) < 2 ^ (e + 1200)).
      { apply Z.pow_lt_mono_r; [lia | | ].
        - unfold E in *. change (emax - prec) with 971 in He. lia.
        - change (emax - prec) with 971 in He. lia. }
      lia.
    + contradiction.
    + subst s'. exists (round_magnitude m e). split; [reflexivity|].
      split; [apply round_magnitude_nonneg|].
      destruct Hb as (HEe & Hb).
      apply (round_magnitude_scaled m e 1200 24); unfold E in *; lia.
Qed.

Lemma round_to_int_no_div0 x : round_to_int x <> Undefined DivByZero.
Proof.
  unfold round_to_int. destruct (std_round x) as [z|]; [|discriminate].
  destruct (Int.in_range z); discriminate.
Qed.

Lemma wrap_no_div0 z : Int.wrap z <> Undefined DivByZero.
Proof.
  unfold Int.wrap. destruct (Int.in_range z); discriminate.
Qed.

Lemma bind_no_div0 {A B} (r : result A) (k : A -> result B) :
  r <> Undefined DivByZero ->
  (forall a, r = Ok a -> k a <> Undefined DivByZero) ->
  bind r k <> Undefined DivByZero.
Proof.
  intros Hr Hk. destruct r as [a|u]; simpl; [apply Hk; reflexivity |].
  intros E. apply Hr. inversion E. reflexivity.
Qed.

Lemma carry_no_div0 t :
  carry_secs t <> Undefined DivByZero /\ carry_minutes t <> Undefined DivByZero.
Proof.
  unfold carry_secs, carry_minutes. split.
  - destruct (60 <=? tc_secs t); [|discriminate].
    apply bind_no_div0; [apply div_not_by_zero; lia|]. intros q _.
    apply bind_no_div0; [apply wrap_no_div0|]. intros m _.
    apply bind_no_div0; [apply rem_not_by_zero; lia|]. discriminate.
  - destruct (60 <=? tc_minutes t); [|discriminate].
    apply bind_no_div0; [apply div_not_by_zero; lia|]. intros q _.
    apply bind_no_div0; [apply wrap_no_div0|]. intros m _.
    apply bind_no_div0; [apply rem_not_by_zero; lia|]. discriminate.
Qed.

Lemma tc_split_no_div0 total n : n <> 0 -> tc_split total n <> Undefined DivByZero.
Proof.
  intros Hn. unfold tc_split.
  apply bind_no_div0; [apply wrap_no_div0|]. intros fph Hfph. apply mul_ok in Hfph.
  apply bind_no_div0; [apply wrap_no_div0|]. intros fpm Hfpm. apply mul_ok in Hfpm.
  apply bind_no_div0; [apply div_not_by_zero; lia|]. intros h _.
  apply bind_no_div0; [apply rem_not_by_zero; lia|]. intros r1 _.
  apply bind_no_div0; [apply div_not_by_zero; lia|]. intros m _.
  apply bind_no_div0; [apply rem_not_by_zero; lia|]. intros r2 _.
  apply bind_no_div0; [apply div_not_by_zero; lia|]. intros s _.
  apply bind_no_div0; [apply rem_not_by_zero; lia|]. discriminate.
Qed.

(** ** Claims about [time_to_tc] *)

(** C3. [time_to_tc] clamps negative seconds to 0, takes the one frame count
    [round(seconds * fps)] with the exact rate, the nominal rate
    [round(fps)], and derives hours, minutes, seconds and frames by
    successive division by [fpsInt*3600], [fpsInt*60] and [fpsInt], with the
    carry of a field that reaches 60: whenever the C++ function is defined
    its fields are those of [timeToTimecode], and it is defined whenever the
    nominal rate is at least 1 and the counts fit an [int]. *)
Theorem time_to_tc_is_timeToTimecode (seconds fps : float) :
  (forall t, time_to_tc_fields seconds fps = Ok t ->
             timeToTimecode seconds fps = Some t)
  /\ (forall total n,
        std_round (clamp_seconds seconds * fps)%float = Some total ->
        std_round fps = Some n ->
        1 <= n -> n * 3600 <= Int.max -> total <= Int.max ->
        exists t, time_to_tc_fields seconds fps = Ok t
                  /\ timeToTimecode seconds fps = Some t
                  /\ time_to_tc seconds fps
                     = Ok (format_tc (tc_hours t) (tc_minutes t) (tc_secs t) (tc_frames t))).
Proof.
  assert (P1 : forall t, time_to_tc_fields seconds fps = Ok t ->
                         timeToTimecode seconds fps = Some t).
  { intros t H.
    destruct (time_to_tc_fields_inv _ _ _ H) as (total & n & Ht & Hn & Hn0 & Hside & ->).
    apply round_to_int_ok in Ht. destruct Ht as [Ht _].
    apply round_to_int_ok in Hn. destruct Hn as [Hn _].
    unfold timeToTimecode. fold (clamp_seconds seconds). rewrite Ht, Hn.
    pose proof (split_fields_bounds total n Hside) as (_ & Hm & Hs).
    unfold split_fields in *; simpl in Hm, Hs.
    destruct (Z.leb_spec 60 (((total mod (n * 3600)) mod (n * 60)) / n)); [lia|].
    destruct (Z.leb_spec 60 ((total mod (n * 3600)) / (n * 60))); [lia|].
    reflexivity. }
  split; [exact P1|].
  intros total n Ht Hn Hn1 Hfph Htot.
  pose proof (time_to_tc_fields_defined _ _ _ _ Ht Hn Hn1 Hfph Htot) as Hd.
  exists (split_fields total n). split; [exact Hd|]. split; [apply P1, Hd|].
  unfold time_to_tc. rewrite Hd. reflexivity.
Qed.

Lemma time_to_tc_is_timeToTimecode_witness :
  timeToTimecode 3661.5%float 29.97%float = Some (mkTC 1 0 57 25)
  /\ time_to_tc (-2)%float 29.97%float = Ok "00:00:00:00"%string.
Proof.
  split.
  - apply (proj1 (time_to_tc_is_timeToTimecode 3661.5%float 29.97%float)).
    vm_compute. reflexivity.
  - destruct (proj2 (time_to_tc_is_timeToTimecode (-2)%float 29.97%float) 0 30)
      as (t & Hf & _ & Hs);
      [vm_compute; reflexivity | vm_compute; reflexivity | lia
      | vm_compute; discriminate | vm_compute; discriminate |].
    rewrite Hs. vm_compute in Hf. inversion Hf. reflexivity.
Defined.

Lemma tested_rate_shape fps :
  In fps tested_rates ->
  exists mf ef n,
    Prim2SF fps = S754_finite false mf ef
    /\ Z.pos (digits2_pos mf) <= 53 /\ -100 <= ef <= -47
    /\ std_round fps = Some n /\ In n [24; 25; 30; 60].
Proof.
  unfold tested_rates. simpl.
  intros H.
  repeat (destruct H as [<- | H];
          [eexists _, _, _; split; [vm_compute; reflexivity|];
           split; [vm_compute; discriminate|];
           split; [split; vm_compute; discriminate|];
           split; [vm_compute; reflexivity | simpl; tauto]|]).
  contradiction.
Qed.

(** Up to one day, at each of the tested rates, [time_to_tc] is defined. *)
Lemma time_to_tc_defined_one_day seconds fps :
  In fps tested_rates ->
  (0 <=? seconds)%float = true -> (seconds <=? 86400)%float = true ->
  exists total n,
    std_round (seconds * fps)%float = Some total
    /\ std_round fps = Some n
    /\ time_to_tc_fields seconds fps = Ok (split_fields total n).
Proof.
  intros Hrate H0 HB.
  destruct (tested_rate_shape fps Hrate) as (mf & ef & n & Ef & Hd & He & Hn & Hin).
  destruct (product_in_int_range seconds fps mf ef Ef Hd He H0 HB) as (total & Ht & Hr).
  exists total, n. split; [exact Ht|]. split; [exact Hn|].
  assert (Hmax : Int.max = 2147483647) by reflexivity.
  assert (H24 : 2 ^ 24 = 16777216) by reflexivity.
  apply time_to_tc_fields_defined.
  - rewrite (clamp_seconds_id _ H0). exact Ht.
  - exact Hn.
  - simpl in Hin. lia.
  - simpl in Hin. lia.
  - lia.
Qed.

(** C4. Round trip: for each of the rates 23.976, 24, 25, 29.97, 30, 59.94
    and 60 and every [seconds >= 0], when [time_to_tc] yields the fields
    (HH, MM, SS, FF), [(HH*3600 + MM*60 + SS) * round(fps) + FF] is
    [round(seconds * fps)] exactly; and it does yield fields for every time
    up to one day. *)
Theorem timecode_round_trip (fps seconds : float) :
  In fps tested_rates ->
  (0 <=? seconds)%float = true ->
  (forall t,
     time_to_tc_fields seconds fps = Ok t ->
     exists fps_int total,
       std_round fps = Some fps_int
       /\ In fps_int [24; 25; 30; 60]
       /\ std_round (seconds * fps)%float = Some total
       /\ (tc_hours t * 3600 + tc_minutes t * 60 + tc_secs t) * fps_int + tc_frames t
          = total)
  /\ ((seconds <=? 86400)%float = true ->
      exists t, time_to_tc_fields seconds fps = Ok t).
Proof.
  intros Hrate Hpos. split.
  - intros t H.
    destruct (time_to_tc_fields_inv _ _ _ H) as (total & n & Ht & Hn & Hn0 & Hside & ->).
    apply round_to_int_ok in Ht. destruct Ht as [Ht _].
    apply round_to_int_ok in Hn. destruct Hn as [Hn _].
    rewrite (clamp_seconds_id _ Hpos) in Ht.
    destruct (tested_rate_shape fps Hrate) as (_ & _ & n' & _ & _ & _ & Hn' & Hin).
    assert (n' = n) by congruence. subst n'.
    exists n, total. split; [exact Hn|]. split; [exact Hin|]. split; [exact Ht|].
    apply split_fields_total. exact Hn0.
  - intros HB.
    destruct (time_to_tc_defined_one_day seconds fps Hrate Hpos HB) as (total & n & _ & _ & H).
    eauto.
Qed.

Lemma timecode_round_trip_witness :
  (exists fps_int total,
     std_round 29.97%float = Some fps_int
     /\ In fps_int [24; 25; 30; 60]
     /\ std_round (7261.5 * 29.97)%float = Some total
     /\ (2 * 3600 + 0 * 60 + 54) * fps_int + 7 = total)
  /\ exists t, time_to_tc_fields 7261.5%float 29.97%float = Ok t.
Proof.
  destruct (timecode_round_trip 29.97%float 7261.5%float) as (Hid & Hdef);
    [simpl; tauto | vm_compute; reflexivity |].
  split.
  - apply (Hid (mkTC 2 0 54 7)). vm_compute. reflexivity.
  - apply Hdef. vm_compute. reflexivity.
Defined.

(** C10. With [round(fps) >= 1], for every [seconds]: no division of
    [time_to_tc] is by zero, and the fields that come out of the divisions
    already satisfy [0 <= minutes < 60], [0 <= secs < 60] and
    [0 <= frames < round(fps)], so that neither carry test succeeds and
    both carry statements leave the fields as they are. *)
Theorem time_to_tc_carry_unreachable (seconds fps : float) (fps_int : Z) :
  round_to_int fps = Ok fps_int ->
  1 <= fps_int ->
  time_to_tc_fields seconds fps <> Undefined DivByZero
  /\ forall total t,
       total_frames seconds fps = Ok total ->
       tc_split total fps_int = Ok t ->
       0 <= tc_minutes t < 60
       /\ 0 <= tc_secs t < 60
       /\ 0 <= tc_frames t < fps_int
       /\ (60 <=? tc_secs t) = false
       /\ (60 <=? tc_minutes t) = false
       /\ carry_secs t = Ok t
       /\ carry_minutes t = Ok t.
Proof.
  intros Hn Hn1. split.
  - unfold time_to_tc_fields.
    apply bind_no_div0; [apply round_to_int_no_div0|]. intros total _.
    rewrite Hn. simpl.
    apply bind_no_div0; [apply tc_split_no_div0; lia|]. intros t0 _.
    apply bind_no_div0; [apply carry_no_div0|]. intros t1 _.
    apply carry_no_div0.
  - intros total t Ht Hsplit.
    assert (Hside : same_side total fps_int).
    { apply round_to_int_ok in Ht. apply round_to_int_ok in Hn.
      apply (std_round_same_side seconds fps); [tauto | lia | tauto]. }
    pose proof (tc_split_fields _ _ _ Hside Hsplit) as ->.
    pose proof (split_fields_bounds total fps_int Hside) as (_ & Hm & Hs).
    assert (Hf : 0 <= tc_frames (split_fields total fps_int) < fps_int)
      by (unfold split_fields; simpl; apply Z.mod_pos_bound; lia).
    repeat split; try lia.
    + apply carry_secs_below. lia.
    + apply carry_minutes_below. lia.
Qed.

Lemma time_to_tc_carry_unreachable_witness :
  time_to_tc_fields 3599.99%float 59.94%float <> Undefined DivByZero
  /\ 0 <= tc_minutes (mkTC 0 59 56 23) < 60
  /\ 0 <= tc_secs (mkTC 0 59 56 23) < 60
  /\ 0 <= tc_frames (mkTC 0 59 56 23) < 60
  /\ carry_secs (mkTC 0 59 56 23) = Ok (mkTC 0 59 56 23)
  /\ carry_minutes (mkTC 0 59 56 23) = Ok (mkTC 0 59 56 23).
Proof.
  destruct (time_to_tc_carry_unreachable 3599.99%float 59.94%float 60) as (Hz & H);
    [vm_compute; reflexivity | lia |].
  split; [exact Hz|].
  destruct (H 215783 (mkTC 0 59 56 23)) as (Hm & Hs & Hf & _ & _ & Hcs & Hcm);
    [vm_compute; reflexivity | vm_compute; reflexivity |].
  auto.
Defined.

(** ** Clip range *)

Lemma range_trim_eq (start stop : float) (ss to : option float) :
  adjust_timestamp_for_range start stop ss to = trim_to_range ss to start stop.
Proof.
  unfold adjust_timestamp_for_range, trim_to_range, range_drops, range_clamp, range_rebase.
  destruct ss as [s|], to as [t|]; simpl.
  - destruct (start <? s)%float; simpl; [reflexivity|].
    destruct (t <=? start)%float; reflexivity.
  - destruct (start <? s)%float; reflexivity.
  - destruct (t <=? start)%float; reflexivity.
  - reflexivity.
Qed.

Lemma range_drops_iff rangeStart rangeEnd start :
  range_drops rangeStart rangeEnd start = true <->
  (exists rs, rangeStart = Some rs /\ (start <? rs)%float = true)
  \/ (exists re, rangeEnd = Some re /\ (re <=? start)%float = true).
Proof.
  unfold range_drops. rewrite orb_true_iff. split.
  - intros [H|H].
    + destruct rangeStart as [rs|]; [left; eauto | discriminate].
    + destruct rangeEnd as [re|]; [right; eauto | discriminate].
  - intros [(rs & -> & H)|(re & -> & H)]; [left | right]; exact H.
Qed.

(** C5. Clip-range trimming: the event is dropped exactly when
    [rangeStart] is set and [start < rangeStart], or [rangeEnd] is set and
    [start >= rangeEnd]; otherwise it is kept, its end clamped to [rangeEnd]
    when it exceeds it, and [rangeStart], when set, subtracted from both its
    start and its end; nothing else happens to the times. *)
Theorem adjust_timestamp_for_range_trims (start stop : float) (ss to : option float) :
  (adjust_timestamp_for_range start stop ss to = None <->
   (exists rs, ss = Some rs /\ (start <? rs)%float = true)
   \/ (exists re, to = Some re /\ (re <=? start)%float = true))
  /\ (forall s e,
        adjust_timestamp_for_range start stop ss to = Some (s, e) ->
        s = match ss with Some rs => (start - rs)%float | None => start end
        /\ e = let clamped :=
                 match to with
                 | Some re => if (re <? stop)%float then re else stop
                 | None => stop
                 end in
               match ss with Some rs => (clamped - rs)%float | None => clamped end).
Proof.
  rewrite range_trim_eq, <- range_drops_iff. unfold trim_to_range.
  destruct (range_drops ss to start); split.
  - tauto.
  - discriminate.
  - split; discriminate.
  - intros s e H. inversion H. unfold range_rebase, range_clamp.
    destruct ss, to; auto.
Qed.

Lemma adjust_timestamp_for_range_trims_witness :
  adjust_timestamp_for_range 0%float 1.5%float (Some 1%float) (Some 4%float) = None
  /\ exists s e,
       adjust_timestamp_for_range 3%float 4.5%float (Some 1%float) (Some 4%float)
       = Some (s, e) /\ s = 2%float /\ e = 3%float.
Proof.
  split.
  - apply (proj1 (adjust_timestamp_for_range_trims 0%float 1.5%float
                    (Some 1%float) (Some 4%float))).
    left. exists 1%float. split; reflexivity.
  - exists 2%float, 3%float. split; [reflexivity|].
    apply (proj2 (adjust_timestamp_for_range_trims 3%float 4.5%float
                    (Some 1%float) (Some 4%float)) 2%float 3%float).
    reflexivity.
Defined.

(** The trim scenario of the specification: starts 0, 2 and 5, each lasting
    1.5 s, against the range (1, 4). *)
Example trim_scenario :
  map (fun s => adjust_timestamp_for_range s (s + 1.5)%float (Some 1%float) (Some 4%float))
      [0%float; 2%float; 5%float]
  = [None; Some (1%float, 2.5%float); None].
Proof. vm_compute. reflexivity. Qed.

(** ** One pass of the loop body *)

Lemma process_frame_cases cfg save cur has_next next st st' :
  process_frame cfg save cur has_next next st = Ok st' ->
  st' = st
  \/ (bitmap cur = None /\ (0 <? timestamp cur)%float = true /\ events st <> []
      /\ exists tc, time_to_tc (clear_timestamp cfg cur) (bdn_fps cfg) = Ok tc
                    /\ st' = mkState (set_back_out_tc tc (events st)) (frame_index st))
  \/ (exists bmp s e tc_in tc_out,
        bitmap cur = Some bmp
        /\ bmp_width bmp <> 0 /\ bmp_height bmp <> 0
        /\ adjust_timestamp_for_range (fst (resolve_times cfg cur has_next next))
             (snd (resolve_times cfg cur has_next next)) (opt_ss cfg) (opt_to cfg)
           = Some (s, e)
        /\ (e <=? s)%float = false
        /\ save bmp (generate_png_filename (frame_index st) (base_name cfg)) = true
        /\ time_to_tc s (bdn_fps cfg) = Ok tc_in
        /\ time_to_tc e (bdn_fps cfg) = Ok tc_out
        /\ st' = mkState
                   (events st ++
                    [mkEvent tc_in tc_out
                       (generate_png_filename (frame_index st) (base_name cfg))
                       (frame_x cur) (frame_y cur) (bmp_width bmp) (bmp_height bmp)])
                   (frame_index st + 1)).
Proof.
  unfold process_frame. destruct (bitmap cur) as [bmp|].
  - destruct (Z.eqb_spec (bmp_width bmp) 0) as [|Hw]; simpl;
      [intros H; inversion H; auto|].
    destruct (Z.eqb_spec (bmp_height bmp) 0) as [|Hh]; simpl;
      [intros H; inversion H; auto|].
    destruct (resolve_times cfg cur has_next next) as [a_start a_end]; simpl.
    destruct (adjust_timestamp_for_range a_start a_end (opt_ss cfg) (opt_to cfg))
      as [[s e]|]; [|intros H; inversion H; auto].
    destruct (e <=? s)%float eqn:Hz; [intros H; inversion H; auto|].
    destruct (save bmp _) eqn:Hsave; simpl; [|intros H; inversion H; auto].
    intros H.
    apply bind_ok in H. destruct H as (tc_in & Hin & H).
    apply bind_ok in H. destruct H as (tc_out & Hout & H).
    apply bind_ok in H. destruct H as (idx & Hidx & H).
    apply add_ok in Hidx. destruct Hidx as [-> _].
    inversion H; subst st'. right; right.
    exists bmp, s, e, tc_in, tc_out. repeat split; auto.
  - destruct (0 <? timestamp cur)%float; [|intros H; inversion H; auto].
    destruct (events st) as [|e0 evs] eqn:Hev; [intros H; inversion H; auto|].
    intros H. apply bind_ok in H. destruct H as (tc & Htc & H).
    inversion H; subst st'. right; left.
    repeat split; try reflexivity; [discriminate|]. exists tc. auto.
Qed.

Lemma set_back_out_tc_app tc l e :
  set_back_out_tc tc (l ++ [e])
  = l ++ [with_out_tc tc e].
Proof.
  induction l as [|a l IH]; simpl; [reflexivity|].
  rewrite IH. destruct (l ++ [e]) eqn:E; [destruct l; discriminate | reflexivity].
Qed.

Lemma set_back_out_tc_in_tc tc l : map in_tc (set_back_out_tc tc l) = map in_tc l.
Proof.
  induction l as [|a l IH]; simpl; [reflexivity|].
  destruct l as [|b l]; [reflexivity|].
  simpl in *. rewrite IH. reflexivity.
Qed.

Lemma set_back_out_tc_length tc l :
  List.length (set_back_out_tc tc l) = List.length l.
Proof.
  induction l as [|a l IH]; simpl; [reflexivity|].
  destruct l as [|b l]; [reflexivity|].
  simpl in *. rewrite IH. reflexivity.
Qed.

(** ** Frames as the decoder builds them *)

Lemma SFcompare_refl x : SFcompare x x = Some Eq \/ SFcompare x x = None.
Proof.
  destruct x as [s|s| |s m e]; simpl; auto.
  - destruct s; auto.
  - rewrite Z.compare_refl, Pos.compare_cont_refl. destruct s; auto.
Qed.

Lemma ltb_irrefl x : (x <? x)%float = false.
Proof.
  rewrite FloatAxioms.ltb_spec. unfold SFltb.
  destruct (SFcompare_refl (Prim2SF x)) as [-> | ->]; reflexivity.
Qed.

Lemma subtitle_frame_of_times tb p f :
  subtitle_frame_of tb p = Ok (Some f) ->
  timestamp f = base_timestamp tb p
  /\ start_time f = fst (display_times tb p)
  /\ end_time f = snd (display_times tb p).
Proof.
  unfold subtitle_frame_of.
  destruct (display_times tb p) as [start stop].
  destruct (sub_rects (subtitle p)) as [|r rs].
  - intros H; inversion H; subst f; simpl; auto.
  - destruct (existsb rect_is_bitmap (r :: rs)); [|discriminate].
    destruct (composite_rects (r :: rs)) as [[[bmp mx] my]|u]; simpl; [|discriminate].
    intros H; inversion H; subst f; simpl; auto.
Qed.

(** A frame passes the loop's test only when the decoder was given both
    display times; its display times are then the primary timestamp plus
    the offsets, in seconds. *)
Lemma valid_display_times_given tb p f :
  subtitle_frame_of tb p = Ok (Some f) ->
  display_times_valid f = true ->
  display_times_given (subtitle p) = true
  /\ start_time f
     = (base_timestamp tb p + Z_to_double (start_display_time (subtitle p)) / 1000)%float
  /\ end_time f
     = (base_timestamp tb p + Z_to_double (end_display_time (subtitle p)) / 1000)%float.
Proof.
  intros Hf Hv. destruct (subtitle_frame_of_times _ _ _ Hf) as (_ & Hs & He).
  unfold display_times_valid in Hv. rewrite Hs, He in Hv. rewrite Hs, He.
  unfold display_times in *.
  destruct (display_times_given (subtitle p)); simpl in *; [auto|].
  rewrite ltb_irrefl, andb_false_r in Hv. discriminate.
Qed.

(** Without both display times the frame never passes the loop's test. *)
Lemma absent_display_times_invalid tb p f :
  subtitle_frame_of tb p = Ok (Some f) ->
  display_times_given (subtitle p) = false ->
  display_times_valid f = false.
Proof.
  intros Hf Hg. destruct (subtitle_frame_of_times _ _ _ Hf) as (_ & Hs & He).
  unfold display_times_valid. rewrite Hs, He. unfold display_times. rewrite Hg. simpl.
  rewrite ltb_irrefl. apply andb_false_r.
Qed.

Lemma process_frame_show cfg save cur has_next next st st' bmp :
  bitmap cur = Some bmp ->
  process_frame cfg save cur has_next next st = Ok st' ->
  st' = st
  \/ exists ev s e,
       events st' = events st ++ [ev]
       /\ trim_to_range (opt_ss cfg) (opt_to cfg)
            (fst (resolve_times cfg cur has_next next))
            (snd (resolve_times cfg cur has_next next)) = Some (s, e)
       /\ (e <=? s)%float = false
       /\ time_to_tc s (bdn_fps cfg) = Ok (in_tc ev)
       /\ time_to_tc e (bdn_fps cfg) = Ok (out_tc ev)
       /\ ev_x ev = frame_x cur /\ ev_y ev = frame_y cur
       /\ ev_width ev = bmp_width bmp /\ ev_height ev = bmp_height bmp.
Proof.
  intros Hb H.
  destruct (process_frame_cases _ _ _ _ _ _ _ H)
    as [-> | [(Hnone & _) | (b & s & e & ti & to & Hb' & _ & _ & Hr & Hz & _ & Hi & Ho & ->)]].
  - left; reflexivity.
  - congruence.
  - right. rewrite Hb in Hb'. inversion Hb'; subst b.
    eexists _, s, e. simpl. rewrite <- range_trim_eq.
    repeat split; try eassumption; reflexivity.
Qed.

(** A clear command: no bitmap and a positive timestamp. *)
Lemma process_frame_clear cfg save cur has_next next st :
  bitmap cur = None -> (0 <? timestamp cur)%float = true ->
  process_frame cfg save cur has_next next st
  = match events st with
    | [] => Ok st
    | _ :: _ =>
        tc <- time_to_tc (clear_timestamp cfg cur) (bdn_fps cfg) ;;
        Ok (mkState (set_back_out_tc tc (events st)) (frame_index st))
    end.
Proof.
  intros Hb Ht. unfold process_frame. rewrite Hb, Ht. reflexivity.
Qed.

Lemma removelast_set_back_out_tc tc l :
  removelast (set_back_out_tc tc l) = removelast l.
Proof.
  destruct l as [|a l] using rev_ind; [reflexivity|].
  rewrite set_back_out_tc_app, !removelast_last. reflexivity.
Qed.

(** When every test of the Show path lets the frame through, the event is
    appended. *)
Lemma process_frame_appends cfg save cur bmp has_next next st s e tc_in tc_out :
  bitmap cur = Some bmp ->
  bmp_width bmp <> 0 -> bmp_height bmp <> 0 ->
  trim_to_range (opt_ss cfg) (opt_to cfg)
    (fst (resolve_times cfg cur has_next next))
    (snd (resolve_times cfg cur has_next next)) = Some (s, e) ->
  (e <=? s)%float = false ->
  save bmp (generate_png_filename (frame_index st) (base_name cfg)) = true ->
  time_to_tc s (bdn_fps cfg) = Ok tc_in ->
  time_to_tc e (bdn_fps cfg) = Ok tc_out ->
  Int.in_range (frame_index st + 1) = true ->
  process_frame cfg save cur has_next next st
  = Ok (mkState
          (events st ++
           [mkEvent tc_in tc_out (generate_png_filename (frame_index st) (base_name cfg))
                    (frame_x cur) (frame_y cur) (bmp_width bmp) (bmp_height bmp)])
          (frame_index st + 1)).
Proof.
  intros Hb Hw Hh Ht Hz Hs Hi Ho Hr.
  unfold process_frame. rewrite Hb.
  replace (bmp_width bmp =? 0) with false by (symmetry; apply Z.eqb_neq; exact Hw).
  replace (bmp_height bmp =? 0) with false by (symmetry; apply Z.eqb_neq; exact Hh).
  cbn [orb].
  rewrite <- range_trim_eq in Ht.
  destruct (resolve_times cfg cur has_next next) as [a_start a_end].
  cbn [fst snd] in Ht. rewrite Ht, Hz, Hs. cbn [negb].
  rewrite Hi, Ho. cbn [bind]. unfold Int.add, Int.wrap. rewrite Hr. reflexivity.
Qed.

Lemma resolve_times_valid cfg cur has_next next :
  display_times_valid cur = true ->
  resolve_times cfg cur has_next next
  = (adjust_timestamp (start_time cur) (video_start_time cfg),
     adjust_timestamp (end_time cur) (video_start_time cfg)).
Proof.
  intros H. unfold resolve_times. rewrite H. reflexivity.
Qed.

Lemma trim_to_range_unset start stop : trim_to_range None None start stop = Some (start, stop).
Proof. reflexivity. Qed.

(** ** Claims about the frame loop *)

(** C1 (amended). A Show frame whose display times pass the loop's test
    ([start_time > 0] and [end_time > start_time], which needs both offsets
    given, [start_time] and [end_time] being the primary timestamp plus the
    offsets) is treated the same whatever the next frame is; the event
    appended for it, if any, has the timecodes of
    [primary + startOffset - streamStart] and
    [primary + endOffset - streamStart] after the clip range is applied
    (unchanged when no range is set).  A clear command with a positive
    timestamp that comes next, and whose own time
    ([timestamp - streamStart], clamped to the end of the range, re-based at
    its start) lies after the start of the event, overwrites the [out_tc] of
    the event with the timecode of that time. *)
Theorem explicit_display_times_interval cfg save tb p cur bmp :
  subtitle_frame_of tb p = Ok (Some cur) ->
  bitmap cur = Some bmp ->
  display_times_valid cur = true ->
  let start :=
    (base_timestamp tb p + Z_to_double (start_display_time (subtitle p)) / 1000
     - video_start_time cfg)%float in
  let stop :=
    (base_timestamp tb p + Z_to_double (end_display_time (subtitle p)) / 1000
     - video_start_time cfg)%float in
  display_times_given (subtitle p) = true
  /\ (forall has_next next st,
        process_frame cfg save cur has_next next st
        = process_frame cfg save cur false blank_frame st
        /\ forall st',
             process_frame cfg save cur has_next next st = Ok st' ->
             st' = st
             \/ exists ev s e,
                  events st' = events st ++ [ev]
                  /\ trim_to_range (opt_ss cfg) (opt_to cfg) start stop = Some (s, e)
                  /\ time_to_tc s (bdn_fps cfg) = Ok (in_tc ev)
                  /\ time_to_tc e (bdn_fps cfg) = Ok (out_tc ev)
                  /\ (opt_ss cfg = None -> opt_to cfg = None -> s = start /\ e = stop)
                  /\ forall c has_next' next' tc,
                       bitmap c = None -> (0 <? timestamp c)%float = true ->
                       let t0 := (timestamp c - video_start_time cfg)%float in
                       let t1 := match opt_to cfg with
                                 | Some to => if (to <? t0)%float then to else t0
                                 | None => t0
                                 end in
                       let t := match opt_ss cfg with
                                | Some ss => (t1 - ss)%float
                                | None => t1
                                end in
                       (t <=? s)%float = false ->
                       time_to_tc t (bdn_fps cfg) = Ok tc ->
                       process_frame cfg save c has_next' next' st'
                       = Ok (mkState (events st ++ [with_out_tc tc ev]) (frame_index st'))).
Proof.
  intros Hf Hb Hv start stop.
  destruct (valid_display_times_given _ _ _ Hf Hv) as (Hg & Hs & He).
  split; [exact Hg|].
  intros has_next next st.
  assert (R : forall hn nx, resolve_times cfg cur hn nx = (start, stop)).
  { intros hn nx. rewrite (resolve_times_valid _ _ _ _ Hv), Hs, He. reflexivity. }
  split.
  - unfold process_frame. rewrite !R. reflexivity.
  - intros st' H.
    destruct (process_frame_show _ _ _ _ _ _ _ _ Hb H)
      as [-> | (ev & s & e & Hev & Ht & _ & Hi & Ho & _)]; [left; reflexivity|].
    right. exists ev, s, e. rewrite R in Ht. simpl in Ht.
    split; [exact Hev|]. split; [exact Ht|]. split; [exact Hi|]. split; [exact Ho|].
    split.
    + intros Hss Hto. rewrite Hss, Hto, trim_to_range_unset in Ht.
      inversion Ht. auto.
    + intros c has_next' next' tc Hc Hpos t0 t1 t _ Htc.
      rewrite (process_frame_clear _ _ _ _ _ _ Hc Hpos), Hev.
      destruct (events st ++ [ev]) eqn:E; [destruct (events st); discriminate|].
      rewrite <- E.
      change (time_to_tc (clear_timestamp cfg c) (bdn_fps cfg))
        with (time_to_tc t (bdn_fps cfg)).
      rewrite Htc. cbn [bind]. rewrite set_back_out_tc_app. reflexivity.
Qed.

Lemma explicit_display_times_interval_witness :
  process_frame Sample.cfg_late Sample.saved
    (mkFrame (Some (mkBitmap [16; 32; 48; 255] 1 1 4)) 900000 10 10 12 100 200)
    true (mkFrame None 1350000 15 15 15 0 0) (mkState [] 0)
  = process_frame Sample.cfg_late Sample.saved
      (mkFrame (Some (mkBitmap [16; 32; 48; 255] 1 1 4)) 900000 10 10 12 100 200)
      false blank_frame (mkState [] 0)
  /\ exists ev s e,
       [mkEvent "00:00:08:15" "00:00:10:15" "sub00000.png" 100 200 1 1] = [ev]
       /\ trim_to_range None None 8.5%float 10.5%float = Some (s, e)
       /\ time_to_tc s 29.97%float = Ok (in_tc ev)
       /\ time_to_tc e 29.97%float = Ok (out_tc ev)
       /\ (s = 8.5%float /\ e = 10.5%float)
       /\ process_frame Sample.cfg_late Sample.saved
            (mkFrame None 1350000 15 15 15 0 0) true (mkFrame None 1800000 20 20 20 0 0)
            (mkState [mkEvent "00:00:08:15" "00:00:10:15" "sub00000.png" 100 200 1 1] 1)
          = Ok (mkState [with_out_tc "00:00:13:15" ev] 1).
Proof.
  pose proof (explicit_display_times_interval Sample.cfg_late Sample.saved Sample.time_base
                (Sample.show 900000 0 2000)
                (mkFrame (Some (mkBitmap [16; 32; 48; 255] 1 1 4)) 900000 10 10 12 100 200)
                (mkBitmap [16; 32; 48; 255] 1 1 4)) as H.
  destruct H as (_ & H);
    [vm_compute; reflexivity | reflexivity | vm_compute; reflexivity |].
  destruct (H true (mkFrame None 1350000 15 15 15 0 0) (mkState [] 0)) as (Hsame & Hev).
  split; [exact Hsame|].
  destruct (Hev (mkState [mkEvent "00:00:08:15" "00:00:10:15" "sub00000.png" 100 200 1 1] 1))
    as [E | (ev & s & e & Hl & Ht & Hi & Ho & Hn & Hclear)];
    [vm_compute; reflexivity | discriminate E |].
  exists ev, s, e.
  split; [exact Hl|]. split; [exact Ht|]. split; [exact Hi|]. split; [exact Ho|].
  destruct (Hn eq_refl eq_refl) as (Es & Ee).
  split; [split; assumption|].
  apply (Hclear (mkFrame None 1350000 15 15 15 0 0) true
           (mkFrame None 1800000 20 20 20 0 0) "00:00:13:15"%string).
  - reflexivity.
  - reflexivity.
  - rewrite Es. vm_compute. reflexivity.
  - vm_compute. reflexivity.
Defined.

(** C1, as first stated, fails: the Show frame at 10 s with offsets 0 and
    2000 ms gets the end timecode of 12 s when it is alone, but a clear
    command at 15 s moves the end to 15 s. *)
Lemma explicit_end_rewritten_by_clear :
  run Sample.cfg Sample.saved Sample.time_base [Sample.show 900000 0 2000]
  = Ok [mkEvent "00:00:10:00" "00:00:12:00" "sub00000.png" 100 200 1 1]
  /\ run Sample.cfg Sample.saved Sample.time_base
       [Sample.show 900000 0 2000; Sample.clear 1350000; Sample.clear 1800000]
     = Ok [mkEvent "00:00:10:00" "00:00:15:00" "sub00000.png" 100 200 1 1]
  /\ time_to_tc (adjust_timestamp (10 + 2000 / 1000) 0) 29.97 = Ok "00:00:12:00"%string.
Proof.
  repeat split; vm_compute; reflexivity.
Qed.

(** C6. A Show frame whose display times do not pass the loop's test starts
    at its primary timestamp less the stream start; its end comes from the
    one-frame lookahead: the next frame's [primary + startOffset] when that
    is a Show frame with valid display times, the next frame's primary
    timestamp when it is a Show frame without them or a clear command (each
    less the stream start), and [start + 1.0] when there is no next frame.
    An event is appended for the frame only with the timecodes of these two
    times after the clip range, and it is appended whenever the bitmap is
    not empty, the range keeps the frame, the end lies after the start and
    the PNG is written. *)
Theorem lookahead_end_time cfg save tb p cur bmp :
  subtitle_frame_of tb p = Ok (Some cur) ->
  bitmap cur = Some bmp ->
  display_times_valid cur = false ->
  let start := (base_timestamp tb p - video_start_time cfg)%float in
  (forall pn next,
     subtitle_frame_of tb pn = Ok (Some next) ->
     resolve_times cfg cur true next
     = (start,
        (match bitmap next with
         | Some _ =>
             if display_times_valid next
             then (base_timestamp tb pn
                   + Z_to_double (start_display_time (subtitle pn)) / 1000)%float
             else base_timestamp tb pn
         | None => base_timestamp tb pn
         end - video_start_time cfg)%float))
  /\ resolve_times cfg cur false blank_frame = (start, (start + 1)%float)
  /\ (forall has_next next st st',
        process_frame cfg save cur has_next next st = Ok st' ->
        st' = st
        \/ exists ev s e,
             events st' = events st ++ [ev]
             /\ trim_to_range (opt_ss cfg) (opt_to cfg)
                  (fst (resolve_times cfg cur has_next next))
                  (snd (resolve_times cfg cur has_next next)) = Some (s, e)
             /\ time_to_tc s (bdn_fps cfg) = Ok (in_tc ev)
             /\ time_to_tc e (bdn_fps cfg) = Ok (out_tc ev))
  /\ (forall has_next next st s e tc_in tc_out,
        bmp_width bmp <> 0 -> bmp_height bmp <> 0 ->
        trim_to_range (opt_ss cfg) (opt_to cfg)
          (fst (resolve_times cfg cur has_next next))
          (snd (resolve_times cfg cur has_next next)) = Some (s, e) ->
        (e <=? s)%float = false ->
        save bmp (generate_png_filename (frame_index st) (base_name cfg)) = true ->
        time_to_tc s (bdn_fps cfg) = Ok tc_in ->
        time_to_tc e (bdn_fps cfg) = Ok tc_out ->
        Int.in_range (frame_index st + 1) = true ->
        process_frame cfg save cur has_next next st
        = Ok (mkState
                (events st ++
                 [mkEvent tc_in tc_out
                    (generate_png_filename (frame_index st) (base_name cfg))
                    (frame_x cur) (frame_y cur) (bmp_width bmp) (bmp_height bmp)])
                (frame_index st + 1))).
Proof.
  intros Hf Hb Hv start.
  destruct (subtitle_frame_of_times _ _ _ Hf) as (Hts & _).
  split; [|split; [|split]].
  - intros pn next Hn.
    destruct (subtitle_frame_of_times _ _ _ Hn) as (Hnts & _).
    unfold resolve_times, adjust_timestamp. rewrite Hv, Hts, Hnts.
    destruct (bitmap next); [|reflexivity].
    destruct (display_times_valid next) eqn:Hnv; [|reflexivity].
    destruct (valid_display_times_given _ _ _ Hn Hnv) as (_ & -> & _).
    reflexivity.
  - unfold resolve_times, adjust_timestamp. rewrite Hv, Hts. reflexivity.
  - intros has_next next st st' H.
    destruct (process_frame_show _ _ _ _ _ _ _ _ Hb H)
      as [-> | (ev & s & e & Hev & Ht & _ & Hi & Ho & _)]; [left; reflexivity|].
    right. exists ev, s, e. auto.
  - intros has_next next st s e tc_in tc_out.
    apply process_frame_appends. exact Hb.
Qed.

Lemma lookahead_end_time_witness :
  resolve_times Sample.cfg_late
    (mkFrame (Some (mkBitmap [16; 32; 48; 255] 1 1 4)) 900000 10 10 10 100 200)
    true
    (mkFrame (Some (mkBitmap [16; 32; 48; 255] 1 1 4)) 1080000 12 12.5 14 100 200)
  = (8.5%float, 11%float)
  /\ resolve_times Sample.cfg_late
       (mkFrame (Some (mkBitmap [16; 32; 48; 255] 1 1 4)) 900000 10 10 10 100 200)
       false blank_frame
     = (8.5%float, 9.5%float)
  /\ process_frame Sample.cfg_late Sample.saved
       (mkFrame (Some (mkBitmap [16; 32; 48; 255] 1 1 4)) 900000 10 10 10 100 200)
       true
       (mkFrame (Some (mkBitmap [16; 32; 48; 255] 1 1 4)) 1080000 12 12.5 14 100 200)
       (mkState [] 0)
     = Ok (mkState [mkEvent "00:00:08:15" "00:00:11:00" "sub00000.png" 100 200 1 1] 1).
Proof.
  pose proof (lookahead_end_time Sample.cfg_late Sample.saved Sample.time_base
                (Sample.show 900000 0 0)
                (mkFrame (Some (mkBitmap [16; 32; 48; 255] 1 1 4)) 900000 10 10 10 100 200)
                (mkBitmap [16; 32; 48; 255] 1 1 4)) as H.
  destruct H as (Hnext & Hlast & _ & Happend);
    [vm_compute; reflexivity | reflexivity | vm_compute; reflexivity |].
  split; [|split; [exact Hlast|]].
  - apply (Hnext (Sample.show 1080000 500 2000)). vm_compute. reflexivity.
  - apply (Happend true
             (mkFrame (Some (mkBitmap [16; 32; 48; 255] 1 1 4)) 1080000 12 12.5 14 100 200)
             (mkState [] 0) 8.5%float 11%float "00:00:08:15"%string "00:00:11:00"%string).
    + discriminate.
    + discriminate.
    + vm_compute. reflexivity.
    + reflexivity.
    + reflexivity.
    + vm_compute. reflexivity.
    + vm_compute. reflexivity.
    + reflexivity.
Defined.

(** C9 (amended). A clear command (no bitmap, positive timestamp) never
    appends an event and never touches the frame counter or any event but
    the last.  With an empty event list it changes nothing and is not an
    error.  With a non-empty list, and its own time ([timestamp -
    streamStart], clamped to the end of the clip range, re-based at its
    start) after the start of the last event, it overwrites the [out_tc] of
    that event with the timecode of that time, whether or not the event had
    been ended before. *)
Theorem clear_command_effect cfg save c has_next next st :
  bitmap c = None ->
  (0 <? timestamp c)%float = true ->
  (events st = [] -> process_frame cfg save c has_next next st = Ok st)
  /\ (forall st',
        process_frame cfg save c has_next next st = Ok st' ->
        frame_index st' = frame_index st
        /\ List.length (events st') = List.length (events st)
        /\ removelast (events st') = removelast (events st)
        /\ map in_tc (events st') = map in_tc (events st))
  /\ (forall l ev s tc,
        events st = l ++ [ev] ->
        let t0 := (timestamp c - video_start_time cfg)%float in
        let t1 := match opt_to cfg with
                  | Some to => if (to <? t0)%float then to else t0
                  | None => t0
                  end in
        let t := match opt_ss cfg with
                 | Some ss => (t1 - ss)%float
                 | None => t1
                 end in
        time_to_tc s (bdn_fps cfg) = Ok (in_tc ev) ->
        (t <=? s)%float = false ->
        time_to_tc t (bdn_fps cfg) = Ok tc ->
        process_frame cfg save c has_next next st
        = Ok (mkState (l ++ [with_out_tc tc ev]) (frame_index st))).
Proof.
  intros Hb Ht. rewrite (process_frame_clear _ _ _ _ _ _ Hb Ht).
  split; [|split].
  - intros ->. reflexivity.
  - intros st'. destruct (events st) as [|e0 l] eqn:E.
    + intros H; inversion H; subst st'. rewrite E. auto.
    + intros H. apply bind_ok in H. destruct H as (tc & _ & H).
      inversion H; subst st'; cbn [events frame_index].
      change (match l with
              | [] => [with_out_tc tc e0]
              | _ :: _ => e0 :: set_back_out_tc tc l
              end) with (set_back_out_tc tc (e0 :: l)).
      rewrite set_back_out_tc_length, removelast_set_back_out_tc, set_back_out_tc_in_tc.
      auto.
  - intros l ev s tc -> t0 t1 t _ _ Htc.
    destruct (l ++ [ev]) eqn:E; [destruct l; discriminate|]. rewrite <- E.
    change (time_to_tc (clear_timestamp cfg c) (bdn_fps cfg))
      with (time_to_tc t (bdn_fps cfg)).
    rewrite Htc. cbn [bind]. rewrite set_back_out_tc_app. reflexivity.
Qed.

Lemma clear_command_effect_witness :
  process_frame Sample.cfg_cut Sample.saved (mkFrame None 2700000 30 30 30 0 0)
    false blank_frame (mkState [] 0) = Ok (mkState [] 0)
  /\ process_frame Sample.cfg_cut Sample.saved (mkFrame None 2700000 30 30 30 0 0)
       true (mkFrame None 3000000 33 33 33 0 0)
       (mkState [mkEvent "00:00:01:00" "00:00:03:00" "sub00000.png" 100 200 1 1;
                 mkEvent "00:00:06:15" "00:00:08:15" "sub00001.png" 100 200 1 1] 2)
     = Ok (mkState [mkEvent "00:00:01:00" "00:00:03:00" "sub00000.png" 100 200 1 1;
                    mkEvent "00:00:06:15" "00:00:17:29" "sub00001.png" 100 200 1 1] 2).
Proof.
  split.
  - apply (clear_command_effect Sample.cfg_cut Sample.saved
             (mkFrame None 2700000 30 30 30 0 0) false blank_frame (mkState [] 0));
      reflexivity.
  - destruct (clear_command_effect Sample.cfg_cut Sample.saved
                (mkFrame None 2700000 30 30 30 0 0) true
                (mkFrame None 3000000 33 33 33 0 0)
                (mkState [mkEvent "00:00:01:00" "00:00:03:00" "sub00000.png" 100 200 1 1;
                          mkEvent "00:00:06:15" "00:00:08:15" "sub00001.png" 100 200 1 1] 2)
                eq_refl eq_refl) as (_ & _ & H).
    apply (H [mkEvent "00:00:01:00" "00:00:03:00" "sub00000.png" 100 200 1 1]
             (mkEvent "00:00:06:15" "00:00:08:15" "sub00001.png" 100 200 1 1)
             6.5%float "00:00:17:29"%string).
    + reflexivity.
    + vm_compute. reflexivity.
    + vm_compute. reflexivity.
    + vm_compute. reflexivity.
Defined.

(** C9, as first stated, fails: the event of the Show frame at 10 s is
    ended by the clear command at 13 s; the clear command at 20 s, which
    finds no event open, still rewrites its end. *)
Lemma second_clear_rewrites_closed_event :
  run Sample.cfg Sample.saved Sample.time_base
    [Sample.show 900000 0 2000; Sample.clear 1170000; Sample.clear 2700000]
  = Ok [mkEvent "00:00:10:00" "00:00:13:00" "sub00000.png" 100 200 1 1]
  /\ run Sample.cfg Sample.saved Sample.time_base
       [Sample.show 900000 0 2000; Sample.clear 1170000; Sample.clear 1800000;
        Sample.clear 2700000]
     = Ok [mkEvent "00:00:10:00" "00:00:19:29" "sub00000.png" 100 200 1 1]
  /\ process_frame Sample.cfg Sample.saved (mkFrame None 1800000 20 20 20 0 0)
       true (mkFrame None 2700000 30 30 30 0 0)
       (mkState [mkEvent "00:00:10:00" "00:00:13:00" "sub00000.png" 100 200 1 1] 1)
     = Ok (mkState [mkEvent "00:00:10:00" "00:00:19:29" "sub00000.png" 100 200 1 1] 1).
Proof.
  repeat split; vm_compute; reflexivity.
Qed.

(** ** Order of the events *)

Lemma process_frame_in_tcs cfg save cur has_next next st st' :
  process_frame cfg save cur has_next next st = Ok st' ->
  map in_tc (events st') = map in_tc (events st)
  \/ exists tc, frame_in_tc cfg cur has_next next = Some tc
                /\ map in_tc (events st') = map in_tc (events st) ++ [tc].
Proof.
  intros H.
  destruct (process_frame_cases _ _ _ _ _ _ _ H)
    as [-> | [(_ & _ & _ & tc & _ & ->)
             | (b & s & e & ti & to & Hb & _ & _ & Hr & _ & _ & Hi & _ & ->)]].
  - left; reflexivity.
  - left. simpl. apply set_back_out_tc_in_tc.
  - right. exists ti. split.
    + unfold frame_in_tc. rewrite Hb.
      destruct (resolve_times cfg cur has_next next) as [a_start a_end].
      simpl in Hr. rewrite Hr, Hi. reflexivity.
    + simpl. rewrite map_app. reflexivity.
Qed.

Lemma frame_loop_in_tcs cfg save rest :
  forall cur st st',
    frame_loop cfg save cur rest st = Ok st' ->
    exists new,
      map in_tc (events st') = map in_tc (events st) ++ new
      /\ Subsequence (map Some new) (decode_order_in_tcs cfg cur rest).
Proof.
  induction rest as [|next rest' IH]; intros cur st st' H; simpl in H.
  - destruct (process_frame_in_tcs _ _ _ _ _ _ _ H) as [E | (tc & Htc & E)].
    + exists []. rewrite app_nil_r. split; [exact E | apply sub_nil].
    + exists [tc]. split; [exact E|]. simpl. rewrite Htc. apply sub_take, sub_nil.
  - apply bind_ok in H. destruct H as (st1 & H1 & H).
    assert (Hrest : exists new2,
               map in_tc (events st') = map in_tc (events st1) ++ new2
               /\ Subsequence (map Some new2) (decode_order_in_tcs cfg next rest')).
    { destruct (_ || _).
      - apply IH. exact H.
      - inversion H; subst st'. exists []. rewrite app_nil_r.
        split; [reflexivity | apply sub_nil]. }
    destruct Hrest as (new2 & E2 & S2).
    destruct (process_frame_in_tcs _ _ _ _ _ _ _ H1) as [E1 | (tc & Htc & E1)].
    + exists new2. rewrite E2, E1. split; [reflexivity|].
      simpl. apply sub_skip. exact S2.
    + exists (tc :: new2). rewrite E2, E1, <- app_assoc. split; [reflexivity|].
      simpl. rewrite Htc. apply sub_take. exact S2.
Qed.

(** C8 (amended). The events of the final list stand in decode order: their
    start timecodes are, in the same order, a subsequence of the start
    timecodes the loop computes frame by frame as the source returns the
    frames.  Nothing reorders them, and nothing makes them non-decreasing. *)
Theorem events_in_decode_order cfg save frames evs :
  main_events cfg save frames = Ok evs ->
  Subsequence (map Some (map in_tc evs)) (in_tcs_in_decode_order cfg frames).
Proof.
  unfold main_events. destruct frames as [|first rest].
  - intros H; inversion H. apply sub_nil.
  - intros H. apply bind_ok in H. destruct H as (st & Hloop & H).
    inversion H; subst evs.
    destruct (frame_loop_in_tcs _ _ _ _ _ _ Hloop) as (new & E & S).
    simpl in E. rewrite E. exact S.
Qed.

Lemma events_in_decode_order_witness :
  Subsequence
    [Some "00:00:15:00"%string; Some "00:00:11:00"%string]
    (in_tcs_in_decode_order Sample.cfg
       [mkFrame (Some (mkBitmap [16; 32; 48; 255] 1 1 4)) 900000 10 15 17 100 200;
        mkFrame None 945000 10.5 10.5 10.5 0 0;
        mkFrame (Some (mkBitmap [16; 32; 48; 255] 1 1 4)) 990000 11 11 13 100 200]).
Proof.
  apply (events_in_decode_order Sample.cfg Sample.saved
           [mkFrame (Some (mkBitmap [16; 32; 48; 255] 1 1 4)) 900000 10 15 17 100 200;
            mkFrame None 945000 10.5 10.5 10.5 0 0;
            mkFrame (Some (mkBitmap [16; 32; 48; 255] 1 1 4)) 990000 11 11 13 100 200]
           [mkEvent "00:00:15:00" "00:00:10:15" "sub00000.png" 100 200 1 1;
            mkEvent "00:00:11:00" "00:00:13:00" "sub00001.png" 100 200 1 1]).
  vm_compute. reflexivity.
Defined.

(** C8, as first stated, fails: two Show frames with increasing primary
    timestamps (10 s and 11 s), the first with a start offset of 5 s, give
    events that start at 15 s and then at 11 s. *)
Lemma start_times_can_decrease :
  run Sample.cfg Sample.saved Sample.time_base
    [Sample.show 900000 5000 7000; Sample.show 990000 0 2000]
  = Ok [mkEvent "00:00:15:00" "00:00:16:29" "sub00000.png" 100 200 1 1;
        mkEvent "00:00:11:00" "00:00:13:00" "sub00001.png" 100 200 1 1]
  /\ tc_sorted ["00:00:15:00"; "00:00:11:00"]%string = false.
Proof.
  split; vm_compute; reflexivity.
Qed.

(** ** Duration of the events *)

(** C2 fails on the code.  The Show frame at 9.5 s with offsets 500 and
    2500 ms becomes the event from 10 s to 12 s, which passes the
    zero-duration test; the clear command at 9.75 s then rewrites its end
    without any test, and the final list holds an event that ends (at frame
    22 of second 9) before it starts.  With a start offset of 0, a clear
    command 10 ms after the Show frame leaves an event of duration zero. *)
Theorem clear_rewrite_skips_duration_test :
  run Sample.cfg Sample.saved Sample.time_base
    [Sample.show 855000 500 2500; Sample.clear 877500; Sample.clear 1800000]
  = Ok [mkEvent "00:00:10:00" "00:00:09:22" "sub00000.png" 100 200 1 1]
  /\ String.ltb "00:00:10:00" "00:00:09:22" = false
  /\ run Sample.cfg Sample.saved Sample.time_base
       [Sample.show 900000 0 5000; Sample.clear 900900; Sample.clear 1800000]
     = Ok [mkEvent "00:00:10:00" "00:00:10:00" "sub00000.png" 100 200 1 1].
Proof.
  repeat split; vm_compute; reflexivity.
Qed.

(** ** Compositing *)

Lemma store_nat_length data i v : List.length (store_nat data i v) = List.length data.
Proof.
  revert i. induction data as [|d data IH]; intros i; simpl; [reflexivity|].
  destruct i; simpl; [reflexivity | rewrite IH; reflexivity].
Qed.

Lemma nth_store_nat_same data i v :
  (i < List.length data)%nat -> nth i (store_nat data i v) 0 = v.
Proof.
  revert i. induction data as [|d data IH]; intros i H; simpl in *; [lia|].
  destruct i; simpl; [reflexivity | apply IH; lia].
Qed.

Lemma nth_store_nat_other data i j v :
  i <> j -> nth j (store_nat data i v) 0 = nth j data 0.
Proof.
  revert i j. induction data as [|d data IH]; intros i j H; simpl; [reflexivity|].
  destruct i, j; simpl; try reflexivity; [contradiction | apply IH; lia].
Qed.

Lemma store_length data i v : List.length (store data i v) = List.length data.
Proof. apply store_nat_length. Qed.

Lemma load_store_same data i v :
  0 <= i < Z.of_nat (List.length data) -> load (store data i v) i = v.
Proof.
  intros H. unfold load, store. apply nth_store_nat_same. lia.
Qed.

Lemma load_store_other data i j v :
  0 <= i -> 0 <= j -> i <> j -> load (store data i v) j = load data j.
Proof.
  intros Hi Hj H. unfold load, store. apply nth_store_nat_other. lia.
Qed.

Lemma store_pixel_length data offset p :
  List.length (store_pixel data offset p) = List.length data.
Proof.
  unfold store_pixel. rewrite !store_length. reflexivity.
Qed.

Lemma load_store_pixel data offset p :
  0 <= offset -> offset + 3 < Z.of_nat (List.length data) ->
  load_pixel (store_pixel data offset p) offset = p.
Proof.
  intros H0 H3. unfold load_pixel, store_pixel. destruct p as [r g b a]; simpl.
  f_equal.
  - rewrite !load_store_other by lia. apply load_store_same. lia.
  - rewrite !load_store_other by lia. apply load_store_same. rewrite store_length. lia.
  - rewrite !load_store_other by lia. apply load_store_same. rewrite !store_length. lia.
  - apply load_store_same. rewrite !store_length. lia.
Qed.

Lemma load_store_pixel_other data offset p i :
  0 <= offset -> 0 <= i -> i < offset \/ offset + 4 <= i ->
  load (store_pixel data offset p) i = load data i.
Proof.
  intros H0 Hi H. unfold store_pixel. rewrite !load_store_other by lia. reflexivity.
Qed.

Lemma composite_pixel_cases src dst :
  (px_a src <= 0 -> composite_pixel src dst = Ok dst)
  /\ (0 < px_a src -> px_a src = 255 \/ px_a dst = 0 -> composite_pixel src dst = Ok src)
  /\ (0 < px_a src -> px_a src <> 255 -> px_a dst <> 0 ->
      composite_pixel src dst = alpha_blend src dst).
Proof.
  unfold composite_pixel. repeat split.
  - intros H. destruct (Z.ltb_spec 0 (px_a src)); [lia | reflexivity].
  - intros H [E|E]; destruct (Z.ltb_spec 0 (px_a src)); try lia.
    + rewrite E. reflexivity.
    + rewrite E, orb_true_r. reflexivity.
  - intros H Hs Hd. destruct (Z.ltb_spec 0 (px_a src)); [|lia].
    destruct (Z.eqb_spec (px_a src) 255); [contradiction|].
    destruct (Z.eqb_spec (px_a dst) 0); [contradiction|]. reflexivity.
Qed.

Lemma unpack_argb_alpha_range argb : 0 <= px_a (unpack_argb argb) <= 255.
Proof.
  unfold unpack_argb. cbn [px_a].
  change 255 with (Z.ones 8) at 1 2. rewrite Z.land_ones by lia.
  change (2 ^ 8) with 256.
  pose proof (Z.mod_pos_bound (Z.shiftr argb 24) 256 ltac:(lia)). lia.
Qed.

(** C7 (amended). Drawing one source pixel of a rect at a place inside the
    composite changes the four bytes of that place and nothing else.  A
    source pixel of alpha 0 leaves them as they are; with alpha 255, or over
    a destination of alpha 0, a source pixel of positive alpha is stored as
    it is; otherwise the bytes are the single-precision blend
    [src*a + dst*(1-a)] (alpha: [src.a + dst.a*(1-a)]) with [a = src.a/255],
    truncated to 8 bits.  Source alpha is a byte, so these cases cover every
    source pixel.  In particular a pixel of alpha 128 drawn over the all-zero
    background is stored exactly. *)
Theorem draw_pixel_rule indices palette linesize dest_x dest_y width height y x data data' :
  let src := unpack_argb (load palette (load indices (y * linesize + x))) in
  let offset := ((dest_y + y) * width + (dest_x + x)) * 4 in
  let dst := load_pixel data offset in
  0 <= dest_x + x < width ->
  0 <= dest_y + y < height ->
  List.length data = Z.to_nat (width * height * 4) ->
  draw_pixel indices palette linesize dest_x dest_y width height y x data = Ok data' ->
  exists p,
    composite_pixel src dst = Ok p
    /\ load_pixel data' offset = p
    /\ List.length data' = List.length data
    /\ (forall i, 0 <= i -> i < offset \/ offset + 4 <= i -> load data' i = load data i)
    /\ (px_a src = 0 -> p = dst)
    /\ (0 < px_a src -> px_a src = 255 \/ px_a dst = 0 -> p = src)
    /\ (0 < px_a src < 255 -> px_a dst <> 0 -> alpha_blend src dst = Ok p)
    /\ (px_a src = 128 -> dst = mkRGBA 0 0 0 0 -> p = src)
    /\ 0 <= px_a src <= 255.
Proof.
  intros src offset dst Hx Hy Hlen H.
  unfold draw_pixel in H. fold src in H.
  replace ((0 <=? dest_x + x) && (dest_x + x <? width)
           && (0 <=? dest_y + y) && (dest_y + y <? height)) with true in H
    by (symmetry; rewrite !andb_true_iff, !Z.leb_le, !Z.ltb_lt; lia).
  fold offset in H. fold dst in H.
  apply bind_ok in H. destruct H as (p & Hp & H). inversion H; subst data'.
  assert (Hoff : 0 <= offset /\ offset + 3 < Z.of_nat (List.length data)).
  { rewrite Hlen. unfold offset. rewrite Z2Nat.id by nia. nia. }
  destruct (composite_pixel_cases src dst) as (C0 & C1 & C2).
  exists p. split; [exact Hp|]. split; [apply load_store_pixel; lia|].
  split; [apply store_pixel_length|].
  split; [intros i Hi Hout; apply load_store_pixel_other; lia|].
  split; [|split; [|split; [|split]]].
  - intros E. rewrite C0 in Hp by lia. congruence.
  - intros Ha Hc. rewrite (C1 Ha Hc) in Hp. congruence.
  - intros Ha Hd. rewrite C2 in Hp by lia. exact Hp.
  - intros Ha Hd. rewrite C1 in Hp; [congruence | lia |].
    right. rewrite Hd. reflexivity.
  - apply unpack_argb_alpha_range.
Qed.

Lemma draw_pixel_rule_witness :
  exists p,
    composite_pixel (mkRGBA 16 32 48 128) (mkRGBA 0 0 0 0) = Ok p
    /\ load_pixel [16; 32; 48; 128] 0 = p
    /\ p = mkRGBA 16 32 48 128.
Proof.
  destruct (draw_pixel_rule [0] [Sample.argb 128 16 32 48] 1 0 0 1 1 0 0
              [0; 0; 0; 0] [16; 32; 48; 128])
    as (p & Hp & Hl & _ & _ & _ & _ & _ & H128 & _);
    [lia | lia | reflexivity | vm_compute; reflexivity |].
  exists p. split; [exact Hp|]. split; [exact Hl|].
  apply H128; reflexivity.
Defined.

(** C7, as first stated, fails: a source pixel of alpha 0 over a destination
    of alpha 0 is not stored; the destination keeps its bytes. *)
Lemma transparent_source_not_copied :
  composite_pixel (unpack_argb (Sample.argb 0 16 32 48)) (mkRGBA 0 0 0 0)
  = Ok (mkRGBA 0 0 0 0)
  /\ unpack_argb (Sample.argb 0 16 32 48) = mkRGBA 16 32 48 0
  /\ composite_rects [Sample.dot (Sample.argb 0 16 32 48)]
     = Ok (mkBitmap [0; 0; 0; 0] 1 1 4, 100, 200).
Proof.
  repeat split; vm_compute; reflexivity.
Qed.

(** Samples of the blend and of whole composites. *)
Example blend_sample :
  composite_pixel (mkRGBA 10 20 30 128) (mkRGBA 200 100 50 255)
  = Ok (mkRGBA 104 59 39 255).
Proof. vm_compute. reflexivity. Qed.

Example composite_two_rects :
  composite_rects
    [mkRect true 0 0 1 1 1 (Some [0]) (Some [Sample.argb 255 1 2 3]);
     mkRect true 2 0 1 1 1 (Some [0]) (Some [Sample.argb 255 4 5 6])]
  = Ok (mkBitmap [1; 2; 3; 255; 0; 0; 0; 0; 4; 5; 6; 255] 3 1 12, 0, 0).
Proof. vm_compute. reflexivity. Qed.

(** ** The composite outside the rects *)

Lemma fold_undefined {S : Type} (body : Z -> S -> result S) l u :
  fold_left (fun acc i => s' <- acc ;; body i s') l (Undefined u) = Undefined u.
Proof.
  induction l as [|a l IH]; simpl; [reflexivity | exact IH].
Qed.

Lemma for_each_cons {S : Type} (body : Z -> S -> result S) a l s :
  for_each (a :: l) body s = s' <- body a s ;; for_each l body s'.
Proof.
  unfold for_each. simpl. destruct (body a s) as [s'|u]; simpl;
    [reflexivity | apply fold_undefined].
Qed.

(** An invariant of every pass whose index lies in [l] is an invariant of
    the loop over [l]. *)
Lemma for_each_invariant {S : Type} (P : S -> Prop) (body : Z -> S -> result S) l :
  (forall i s s', In i l -> P s -> body i s = Ok s' -> P s') ->
  forall s s', P s -> for_each l body s = Ok s' -> P s'.
Proof.
  induction l as [|a l IH]; intros Hbody s s' Hs H.
  - inversion H; subst. exact Hs.
  - rewrite for_each_cons in H. apply bind_ok in H. destruct H as (s1 & H1 & H).
    apply (IH (fun i t t' Hi => Hbody i t t' (or_intror Hi)) s1 s'); [|exact H].
    apply (Hbody a s s1); [left; reflexivity | exact Hs | exact H1].
Qed.

Lemma in_upto i n : In i (upto n) <-> 0 <= i < n.
Proof.
  unfold upto. rewrite in_map_iff. split.
  - intros (k & <- & Hk). apply in_seq in Hk. lia.
  - intros H. exists (Z.to_nat i). split; [lia|]. apply in_seq. lia.
Qed.

(** Drawing a source pixel leaves every other pixel of the composite as it
    was, and the buffer as long as it was. *)
Lemma draw_pixel_elsewhere indices palette linesize dest_x dest_y w h y x data data' cx cy :
  draw_pixel indices palette linesize dest_x dest_y w h y x data = Ok data' ->
  0 <= cx < w -> 0 <= cy ->
  (cx, cy) <> (dest_x + x, dest_y + y) ->
  load_pixel data' (pixel_offset w cx cy) = load_pixel data (pixel_offset w cx cy).
Proof.
  unfold draw_pixel. intros H Hcx Hcy Hne.
  destruct ((0 <=? dest_x + x) && (dest_x + x <? w)
            && (0 <=? dest_y + y) && (dest_y + y <? h)) eqn:Hin;
    [|inversion H; reflexivity].
  rewrite !andb_true_iff, !Z.leb_le, !Z.ltb_lt in Hin.
  apply bind_ok in H. destruct H as (p & _ & H). inversion H; subst data'.
  assert (Hoff : pixel_offset w cx cy + 4 <= ((dest_y + y) * w + (dest_x + x)) * 4
                 \/ ((dest_y + y) * w + (dest_x + x)) * 4 + 4 <= pixel_offset w cx cy).
  { unfold pixel_offset.
    assert (cy * w + cx <> (dest_y + y) * w + (dest_x + x)).
    { intros E. apply Hne.
      assert (cy = dest_y + y) by nia.
      assert (cx = dest_x + x) by nia.
      congruence. }
    lia. }
  assert (0 <= pixel_offset w cx cy) by (unfold pixel_offset; nia).
  assert (0 <= ((dest_y + y) * w + (dest_x + x)) * 4) by nia.
  unfold load_pixel. f_equal; apply load_store_pixel_other; lia.
Qed.

Lemma draw_rect_elsewhere min_x min_y w h rect data data' cx cy :
  draw_rect min_x min_y w h rect data = Ok data' ->
  0 <= cx < w -> 0 <= cy ->
  ~ covers min_x min_y rect cx cy ->
  load_pixel data' (pixel_offset w cx cy) = load_pixel data (pixel_offset w cx cy).
Proof.
  unfold draw_rect. intros H Hcx Hcy Hout.
  destruct (rect_is_bitmap rect); simpl in H; [|inversion H; reflexivity].
  destruct (rect_indices rect) as [indices|]; [|inversion H; reflexivity].
  destruct (rect_palette rect) as [palette|]; [|inversion H; reflexivity].
  revert H.
  apply (for_each_invariant
           (fun d => load_pixel d (pixel_offset w cx cy)
                     = load_pixel data (pixel_offset w cx cy)));
    [|reflexivity].
  intros y d d' Hy Hd.
  apply (for_each_invariant
           (fun d => load_pixel d (pixel_offset w cx cy)
                     = load_pixel data (pixel_offset w cx cy)));
    [|exact Hd].
  intros x e e' Hx He Hdraw. rewrite <- He.
  apply (draw_pixel_elsewhere _ _ _ _ _ _ _ _ _ _ _ _ _ Hdraw Hcx Hcy).
  apply in_upto in Hx. apply in_upto in Hy.
  intros E. inversion E. apply Hout. unfold covers. lia.
Qed.

Lemma nth_repeat_zero n i : nth i (repeat 0 n) 0 = 0.
Proof.
  revert i. induction n as [|n IH]; intros [|i]; simpl; auto.
Qed.

Lemma composite_fold_elsewhere min_x min_y w h rects cx cy :
  0 <= cx < w -> 0 <= cy ->
  (forall rect, In rect rects -> ~ covers min_x min_y rect cx cy) ->
  forall data data',
    fold_left (fun acc rect => d <- acc ;; draw_rect min_x min_y w h rect d)
              rects (Ok data) = Ok data' ->
    load_pixel data' (pixel_offset w cx cy) = load_pixel data (pixel_offset w cx cy).
Proof.
  intros Hcx Hcy. induction rects as [|rect rects IH]; intros Hout data data' H.
  - inversion H. reflexivity.
  - simpl in H. destruct (draw_rect min_x min_y w h rect data) as [d1|u] eqn:E1.
    + rewrite (IH (fun r Hr => Hout r (or_intror Hr)) d1 data' H).
      apply (draw_rect_elsewhere _ _ _ _ _ _ _ _ _ E1 Hcx Hcy).
      apply Hout. left; reflexivity.
    + exfalso. clear -H. induction rects as [|r rs IHr]; simpl in H; [discriminate | auto].
Qed.

(** X5. The composite bitmap is fully transparent (all four bytes zero) at
    every pixel that lies under none of the rects. *)
Theorem composite_transparent_outside_rects rects bmp min_x min_y cx cy :
  composite_rects rects = Ok (bmp, min_x, min_y) ->
  0 <= cx < bmp_width bmp -> 0 <= cy ->
  (forall rect, In rect rects -> ~ covers min_x min_y rect cx cy) ->
  load_pixel (bmp_data bmp) (pixel_offset (bmp_width bmp) cx cy) = mkRGBA 0 0 0 0.
Proof.
  unfold composite_rects.
  destruct (bounding_box rects) as [[[bx by_] ex] ey].
  intros H Hcx Hcy Hout.
  apply bind_ok in H. destruct H as (data & Hfold & H).
  inversion H; subst bmp min_x min_y; clear H. simpl in *.
  rewrite (composite_fold_elsewhere _ _ _ _ _ _ _ Hcx Hcy Hout _ _ Hfold).
  unfold load_pixel, load. rewrite !nth_repeat_zero. reflexivity.
Qed.

Lemma composite_transparent_outside_rects_witness :
  load_pixel [1; 2; 3; 255; 0; 0; 0; 0; 4; 5; 6; 255] (pixel_offset 3 1 0)
  = mkRGBA 0 0 0 0.
Proof.
  apply (composite_transparent_outside_rects
           [mkRect true 0 0 1 1 1 (Some [0]) (Some [Sample.argb 255 1 2 3]);
            mkRect true 2 0 1 1 1 (Some [0]) (Some [Sample.argb 255 4 5 6])]
           (mkBitmap [1; 2; 3; 255; 0; 0; 0; 0; 4; 5; 6; 255] 3 1 12) 0 0 1 0).
  - vm_compute. reflexivity.
  - simpl. lia.
  - lia.
  - intros rect [<- | [<- | []]]; unfold covers; simpl; lia.
Defined.

(** ** The composite under a single rect *)

(** A loop over distinct indices in which one pass, [a], takes [P] to [R]
    and every other pass keeps both. *)
Lemma for_each_visit {S : Type} (P R : S -> Prop) (body : Z -> S -> result S) a l :
  NoDup l -> In a l ->
  (forall i s s', In i l -> i <> a -> P s -> body i s = Ok s' -> P s') ->
  (forall i s s', In i l -> i <> a -> R s -> body i s = Ok s' -> R s') ->
  (forall s s', P s -> body a s = Ok s' -> R s') ->
  forall s s', P s -> for_each l body s = Ok s' -> R s'.
Proof.
  induction l as [|b l IH]; intros Hnd Hin HP HR Ha s s' Hs H; [contradiction|].
  rewrite for_each_cons in H. apply bind_ok in H. destruct H as (s1 & H1 & H).
  inversion Hnd as [|b' l' Hb Hnd']; subst.
  destruct (Z.eq_dec b a) as [->|Hne].
  - apply (for_each_invariant R body l) with (s := s1); [|eapply Ha; eassumption|exact H].
    intros i t t' Hi Ht Hbody. apply (HR i t t'); auto.
    + right; exact Hi.
    + intros ->. contradiction.
  - destruct Hin as [E|Hin]; [contradiction|].
    apply (IH Hnd' Hin) with (s := s1); auto.
    + intros i t t' Hi. apply HP. right; exact Hi.
    + intros i t t' Hi. apply HR. right; exact Hi.
    + apply (HP b s s1); auto. left; reflexivity.
Qed.

Lemma NoDup_upto n : NoDup (upto n).
Proof.
  unfold upto. apply NoDup_map_NoDup_ForallPairs; [|apply seq_NoDup].
  intros a b _ _ H. lia.
Qed.

Lemma draw_pixel_length indices palette linesize dest_x dest_y w h y x data data' :
  draw_pixel indices palette linesize dest_x dest_y w h y x data = Ok data' ->
  List.length data' = List.length data.
Proof.
  unfold draw_pixel. destruct (_ && _); intros H; [|inversion H; reflexivity].
  apply bind_ok in H. destruct H as (p & _ & H). inversion H.
  apply store_pixel_length.
Qed.

Lemma draw_pixel_here indices palette linesize dest_x dest_y w h y x data data' :
  draw_pixel indices palette linesize dest_x dest_y w h y x data = Ok data' ->
  0 <= dest_x + x < w -> 0 <= dest_y + y < h ->
  List.length data = Z.to_nat (w * h * 4) ->
  composite_pixel (source_pixel indices palette linesize x y)
    (load_pixel data (pixel_offset w (dest_x + x) (dest_y + y)))
  = Ok (load_pixel data' (pixel_offset w (dest_x + x) (dest_y + y))).
Proof.
  intros H Hx Hy Hlen. unfold draw_pixel in H.
  replace ((0 <=? dest_x + x) && (dest_x + x <? w)
           && (0 <=? dest_y + y) && (dest_y + y <? h)) with true in H
    by (symmetry; rewrite !andb_true_iff, !Z.leb_le, !Z.ltb_lt; lia).
  apply bind_ok in H. destruct H as (p & Hp & H). inversion H; subst data'.
  unfold pixel_offset, source_pixel. rewrite Hp. f_equal. symmetry.
  apply load_store_pixel; [nia|]. rewrite Hlen, Z2Nat.id by nia. nia.
Qed.

(** What one rect does to a pixel it covers. *)
Lemma draw_rect_here min_x min_y w h rect indices palette data data' x y :
  draw_rect min_x min_y w h rect data = Ok data' ->
  rect_is_bitmap rect = true ->
  rect_indices rect = Some indices -> rect_palette rect = Some palette ->
  0 <= x < rect_w rect -> 0 <= y < rect_h rect ->
  0 <= rect_x rect - min_x + x < w -> 0 <= rect_y rect - min_y + y < h ->
  List.length data = Z.to_nat (w * h * 4) ->
  List.length data' = List.length data
  /\ composite_pixel (source_pixel indices palette (rect_linesize rect) x y)
       (load_pixel data (pixel_offset w (rect_x rect - min_x + x) (rect_y rect - min_y + y)))
     = Ok (load_pixel data' (pixel_offset w (rect_x rect - min_x + x)
                                            (rect_y rect - min_y + y))).
Proof.
  unfold draw_rect. intros H Hb Hi Hp Hx Hy Hcx Hcy Hlen.
  rewrite Hb, Hi, Hp in H. simpl in H.
  set (cx := rect_x rect - min_x + x) in *. set (cy := rect_y rect - min_y + y) in *.
  set (src := source_pixel indices palette (rect_linesize rect) x y).
  set (p0 := load_pixel data (pixel_offset w cx cy)).
  set (P := fun d : list Z =>
              List.length d = List.length data /\ load_pixel d (pixel_offset w cx cy) = p0).
  set (R := fun d : list Z =>
              List.length d = List.length data
              /\ composite_pixel src p0 = Ok (load_pixel d (pixel_offset w cx cy))).
  assert (Other : forall (Q : list Z -> Prop) v,
             (forall d, Q d <-> List.length d = List.length data
                                /\ v (load_pixel d (pixel_offset w cx cy))) ->
             forall y' x' d d',
               0 <= x' < rect_w rect -> (x', y') <> (x, y) -> Q d ->
               draw_pixel indices palette (rect_linesize rect) (rect_x rect - min_x)
                 (rect_y rect - min_y) w h y' x' d = Ok d' -> Q d').
  { intros Q v HQ y' x' d d' Hx' Hne Hd Hdraw. apply HQ. apply HQ in Hd.
    destruct Hd as (Hl & Hv). split.
    - rewrite (draw_pixel_length _ _ _ _ _ _ _ _ _ _ _ Hdraw). exact Hl.
    - rewrite (draw_pixel_elsewhere _ _ _ _ _ _ _ _ _ _ _ cx cy Hdraw); [exact Hv|lia|lia|].
      intros E. inversion E. apply Hne. f_equal; unfold cx, cy in *; lia. }
  assert (OP := Other P (fun p => p = p0) (fun d => iff_refl _)).
  assert (OR := Other R (fun p => composite_pixel src p0 = Ok p) (fun d => iff_refl _)).
  assert (Hfinal : R data').
  { revert H. apply (for_each_visit P R _ y (upto (rect_h rect)));
      [apply NoDup_upto | apply in_upto; lia | | | | split; reflexivity].
    - intros y' d d' Hy' Hne Hd.
      apply (for_each_invariant P); [|exact Hd].
      intros x' e e' Hx' He. apply in_upto in Hx'.
      apply (OP y' x'); [lia | congruence | exact He].
    - intros y' d d' Hy' Hne Hd.
      apply (for_each_invariant R); [|exact Hd].
      intros x' e e' Hx' He. apply in_upto in Hx'.
      apply (OR y' x'); [lia | congruence | exact He].
    - intros d d' Hd.
      apply (for_each_visit P R _ x (upto (rect_w rect)));
        [apply NoDup_upto | apply in_upto; lia | | | | exact Hd].
      + intros x' e e' Hx' Hne He. apply in_upto in Hx'.
        apply (OP y x'); [lia | congruence | exact He].
      + intros x' e e' Hx' Hne He. apply in_upto in Hx'.
        apply (OR y x'); [lia | congruence | exact He].
      + intros e e' (Hl & He) Hdraw. split.
        * rewrite (draw_pixel_length _ _ _ _ _ _ _ _ _ _ _ Hdraw). exact Hl.
        * pose proof (draw_pixel_here _ _ _ _ _ _ _ _ _ _ _ Hdraw) as Hh.
          fold cx cy in Hh. rewrite He in Hh. apply Hh; lia. }
  exact Hfinal.
Qed.

Lemma draw_rect_length min_x min_y w h rect data data' :
  draw_rect min_x min_y w h rect data = Ok data' ->
  List.length data' = List.length data.
Proof.
  unfold draw_rect. intros H.
  destruct (rect_is_bitmap rect); simpl in H; [|inversion H; reflexivity].
  destruct (rect_indices rect) as [indices|]; [|inversion H; reflexivity].
  destruct (rect_palette rect) as [palette|]; [|inversion H; reflexivity].
  revert H.
  apply (for_each_invariant (fun d => List.length d = List.length data)); [|reflexivity].
  intros y d d' _ Hd.
  apply (for_each_invariant (fun d => List.length d = List.length data)); [|exact Hd].
  intros x e e' _ He Hdraw.
  rewrite (draw_pixel_length _ _ _ _ _ _ _ _ _ _ _ Hdraw). exact He.
Qed.

Lemma composite_fold_ok min_x min_y w h rects acc data' :
  fold_left (fun acc rect => d <- acc ;; draw_rect min_x min_y w h rect d) rects acc
  = Ok data' ->
  exists data, acc = Ok data.
Proof.
  destruct acc as [data|u]; [eauto|].
  intros H. exfalso. induction rects as [|r rs IH]; simpl in H; [discriminate | auto].
Qed.

Lemma composite_fold_length min_x min_y w h rects :
  forall data data',
    fold_left (fun acc rect => d <- acc ;; draw_rect min_x min_y w h rect d)
              rects (Ok data) = Ok data' ->
    List.length data' = List.length data.
Proof.
  induction rects as [|rect rects IH]; intros data data' H.
  - inversion H. reflexivity.
  - simpl in H. destruct (composite_fold_ok _ _ _ _ _ _ _ H) as (d1 & E1).
    rewrite E1 in H. rewrite (IH _ _ H).
    apply (draw_rect_length _ _ _ _ _ _ _ E1).
Qed.

(** X6. A pixel of the composite that lies under exactly one rect holds that
    rect's source pixel, byte for byte, when the source alpha is positive
    (whether 255 or not, since the background there is transparent), and
    stays transparent when the source alpha is 0. *)
Theorem composite_under_one_rect before rect after bmp min_x min_y indices palette x y :
  composite_rects (before ++ rect :: after) = Ok (bmp, min_x, min_y) ->
  rect_is_bitmap rect = true ->
  rect_indices rect = Some indices -> rect_palette rect = Some palette ->
  0 <= x < rect_w rect -> 0 <= y < rect_h rect ->
  0 <= rect_x rect - min_x + x < bmp_width bmp ->
  0 <= rect_y rect - min_y + y < bmp_height bmp ->
  (forall r, In r (before ++ after) ->
             ~ covers min_x min_y r (rect_x rect - min_x + x) (rect_y rect - min_y + y)) ->
  load_pixel (bmp_data bmp)
    (pixel_offset (bmp_width bmp) (rect_x rect - min_x + x) (rect_y rect - min_y + y))
  = if 0 <? px_a (source_pixel indices palette (rect_linesize rect) x y)
    then source_pixel indices palette (rect_linesize rect) x y
    else mkRGBA 0 0 0 0.
Proof.
  unfold composite_rects.
  destruct (bounding_box (before ++ rect :: after)) as [[[bx by_] ex] ey].
  intros H Hb Hi Hp Hx Hy Hcx Hcy Hout.
  apply bind_ok in H. destruct H as (data & Hfold & H).
  inversion H; subst bmp min_x min_y; clear H.
  cbn [bmp_width bmp_height bmp_data] in *.
  set (w := ex - bx) in *. set (h := ey - by_) in *.
  set (cx := rect_x rect - bx + x) in *. set (cy := rect_y rect - by_ + y) in *.
  set (blank := repeat 0 (Z.to_nat (w * h * 4))) in *.
  rewrite fold_left_app in Hfold. simpl in Hfold.
  destruct (composite_fold_ok _ _ _ _ _ _ _ Hfold) as (d2 & E2).
  rewrite E2 in Hfold.
  apply bind_ok in E2. destruct E2 as (d1 & E1 & E2).
  assert (Hlen1 : List.length d1 = Z.to_nat (w * h * 4)).
  { rewrite (composite_fold_length _ _ _ _ _ _ _ E1). apply repeat_length. }
  assert (Hp1 : load_pixel d1 (pixel_offset w cx cy) = mkRGBA 0 0 0 0).
  { rewrite (composite_fold_elsewhere bx by_ w h before cx cy) with (data := blank);
      [| lia | lia | | exact E1].
    - unfold load_pixel, load, blank. rewrite !nth_repeat_zero. reflexivity.
    - intros r Hr. apply Hout. apply in_or_app. left; exact Hr. }
  destruct (draw_rect_here _ _ _ _ _ _ _ _ _ x y E2 Hb Hi Hp Hx Hy Hcx Hcy Hlen1)
    as (_ & Hhere).
  fold cx cy in Hhere. rewrite Hp1 in Hhere.
  rewrite (composite_fold_elsewhere bx by_ w h after cx cy) with (data := d2);
    [| lia | lia | | exact Hfold].
  - unfold composite_pixel in Hhere. cbn [px_a] in Hhere.
    change (0 =? 0) with true in Hhere. rewrite orb_true_r in Hhere.
    set (src := source_pixel indices palette (rect_linesize rect) x y) in *.
    clearbody src.
    set (got := load_pixel d2 (pixel_offset w cx cy)) in *. clearbody got.
    destruct (0 <? px_a src); congruence.
  - intros r Hr. apply Hout. apply in_or_app. right; exact Hr.
Qed.

Lemma composite_under_one_rect_witness :
  load_pixel [1; 2; 3; 128; 0; 0; 0; 0; 4; 5; 6; 255] (pixel_offset 3 0 0)
  = mkRGBA 1 2 3 128.
Proof.
  apply (composite_under_one_rect []
           (mkRect true 0 0 1 1 1 (Some [0]) (Some [Sample.argb 128 1 2 3]))
           [mkRect true 2 0 1 1 1 (Some [0]) (Some [Sample.argb 255 4 5 6])]
           (mkBitmap [1; 2; 3; 128; 0; 0; 0; 0; 4; 5; 6; 255] 3 1 12) 0 0
           [0] [Sample.argb 128 1 2 3] 0 0).
  - vm_compute. reflexivity.
  - reflexivity.
  - reflexivity.
  - reflexivity.
  - simpl. lia.
  - simpl. lia.
  - simpl. lia.
  - simpl. lia.
  - intros r [<- | []]. unfold covers; simpl. lia.
Defined.

(** ** Further properties of the code *)

(** Video-format classification: 1080 gives ["1080i"] or ["1080p"] by the
    interlace flag, 720 is always ["720p"], 480 gives ["480i"] or ["480p"],
    and any other height falls back to ["1080p"]. *)
Theorem determine_video_format_table (canvas_height : Z) (is_interlaced : bool) :
  determine_video_format 1080 false = "1080p"%string
  /\ determine_video_format 1080 true = "1080i"%string
  /\ determine_video_format 720 is_interlaced = "720p"%string
  /\ determine_video_format 480 false = "480p"%string
  /\ determine_video_format 480 true = "480i"%string
  /\ (canvas_height <> 1080 /\ canvas_height <> 720 /\ canvas_height <> 480 ->
      determine_video_format canvas_height is_interlaced = "1080p"%string).
Proof.
  repeat split; try reflexivity.
  intros (H1 & H2 & H3). unfold determine_video_format.
  destruct (Z.eqb_spec canvas_height 1080); [contradiction|].
  destruct (Z.eqb_spec canvas_height 720); [contradiction|].
  destruct (Z.eqb_spec canvas_height 480); [contradiction|].
  reflexivity.
Qed.

Lemma determine_video_format_table_witness :
  determine_video_format 1088 true = "1080p"%string.
Proof.
  apply (determine_video_format_table 1088 true). lia.
Defined.

(** A clear command that is the last frame of the stream is read as the
    lookahead of the frame before it but never processed itself: the loop
    ends as soon as the current frame has no bitmap and the source is
    exhausted. *)
Theorem trailing_clear_not_processed cfg save cur c st :
  bitmap c = None ->
  frame_loop cfg save cur [c] st = process_frame cfg save cur true c st.
Proof.
  intros Hc. simpl. rewrite Hc. simpl.
  destruct (process_frame cfg save cur true c st); reflexivity.
Qed.

Lemma trailing_clear_not_processed_witness :
  run Sample.cfg Sample.saved Sample.time_base
    [Sample.show 900000 0 2000; Sample.clear 1350000]
  = Ok [mkEvent "00:00:10:00" "00:00:12:00" "sub00000.png" 100 200 1 1]
  /\ frame_loop Sample.cfg Sample.saved
       (mkFrame (Some (mkBitmap [16; 32; 48; 255] 1 1 4)) 900000 10 10 12 100 200)
       [mkFrame None 1350000 15 15 15 0 0] (mkState [] 0)
     = process_frame Sample.cfg Sample.saved
         (mkFrame (Some (mkBitmap [16; 32; 48; 255] 1 1 4)) 900000 10 10 12 100 200)
         true (mkFrame None 1350000 15 15 15 0 0) (mkState [] 0).
Proof.
  split; [vm_compute; reflexivity|].
  apply (trailing_clear_not_processed Sample.cfg Sample.saved). reflexivity.
Defined.

Lemma process_frame_valid_times cfg save cur has_next next has_next' next' st :
  display_times_valid cur = true ->
  process_frame cfg save cur has_next next st
  = process_frame cfg save cur has_next' next' st.
Proof.
  intros Hv. unfold process_frame, resolve_times. rewrite Hv. reflexivity.
Qed.

Lemma frame_loop_last_clear cfg save last c st :
  bitmap c = None -> display_times_valid last = true ->
  frame_loop cfg save last [c] st = frame_loop cfg save last [] st.
Proof.
  intros Hc Hv. cbn [frame_loop]. rewrite Hc. cbn [orb].
  rewrite (process_frame_valid_times cfg save last true c false blank_frame st Hv).
  destruct (process_frame cfg save last false blank_frame st); reflexivity.
Qed.

Lemma frame_loop_trailing_clear cfg save last c :
  bitmap c = None -> bitmap last <> None -> display_times_valid last = true ->
  forall frames cur st,
    frame_loop cfg save cur (frames ++ [last; c]) st
    = frame_loop cfg save cur (frames ++ [last]) st.
Proof.
  intros Hc Hl Hv.
  induction frames as [|g gs IH]; intros cur st.
  - cbn [app frame_loop].
    destruct (process_frame cfg save cur true last st) as [st'|u]; [|reflexivity].
    cbn [bind]. destruct (bitmap last); [|contradiction]. cbn [orb].
    apply frame_loop_last_clear; assumption.
  - cbn [app frame_loop].
    destruct (process_frame cfg save cur true g st) as [st'|u]; [|reflexivity].
    cbn [bind].
    assert (H1 : match gs ++ [last; c] with [] => false | _ :: _ => true end = true)
      by (destruct gs; reflexivity).
    assert (H2 : match gs ++ [last] with [] => false | _ :: _ => true end = true)
      by (destruct gs; reflexivity).
    rewrite H1, H2, !orb_true_r. apply IH.
Qed.

(** X1. A clear command at the very end of the stream is never applied:
    when the frame before it is a Show frame with valid display times, the
    events are those of the stream without the clear command, so the last
    event keeps its own end.  (A clear command followed by any other frame
    does rewrite that end.) *)
Theorem trailing_clear_keeps_explicit_end cfg save frames last c :
  bitmap c = None -> bitmap last <> None -> display_times_valid last = true ->
  main_events cfg save (frames ++ [last; c]) = main_events cfg save (frames ++ [last]).
Proof.
  intros Hc Hl Hv. unfold main_events.
  destruct frames as [|first rest].
  - cbn [app]. rewrite (frame_loop_last_clear cfg save last c _ Hc Hv).
    reflexivity.
  - cbn [app]. rewrite (frame_loop_trailing_clear cfg save last c Hc Hl Hv rest first).
    reflexivity.
Qed.

Lemma trailing_clear_keeps_explicit_end_witness :
  main_events Sample.cfg Sample.saved
    [mkFrame (Some (mkBitmap [16; 32; 48; 255] 1 1 4)) 900000 10 10 12 100 200;
     mkFrame None 945000 10.5 10.5 10.5 0 0]
  = main_events Sample.cfg Sample.saved
      [mkFrame (Some (mkBitmap [16; 32; 48; 255] 1 1 4)) 900000 10 10 12 100 200].
Proof.
  apply (trailing_clear_keeps_explicit_end Sample.cfg Sample.saved []
           (mkFrame (Some (mkBitmap [16; 32; 48; 255] 1 1 4)) 900000 10 10 12 100 200)
           (mkFrame None 945000 10.5 10.5 10.5 0 0)).
  - reflexivity.
  - discriminate.
  - reflexivity.
Defined.

(** X2. An event is appended for a Show frame only when the zero-duration test
    lets it through: its end, in seconds, is not at or before its start. *)
Theorem appended_event_passes_duration_test cfg save cur has_next next st st' bmp :
  bitmap cur = Some bmp ->
  process_frame cfg save cur has_next next st = Ok st' ->
  st' <> st ->
  exists ev s e,
    events st' = events st ++ [ev]
    /\ (e <=? s)%float = false
    /\ time_to_tc s (bdn_fps cfg) = Ok (in_tc ev)
    /\ time_to_tc e (bdn_fps cfg) = Ok (out_tc ev).
Proof.
  intros Hb H Hne.
  destruct (process_frame_show _ _ _ _ _ _ _ _ Hb H)
    as [-> | (ev & s & e & Hev & _ & Hz & Hi & Ho & _)]; [contradiction|].
  exists ev, s, e. auto.
Qed.

Lemma appended_event_passes_duration_test_witness :
  exists ev s e,
    [mkEvent "00:00:10:00" "00:00:12:00" "sub00000.png" 100 200 1 1] = [ev]
    /\ (e <=? s)%float = false
    /\ time_to_tc s 29.97%float = Ok (in_tc ev)
    /\ time_to_tc e 29.97%float = Ok (out_tc ev).
Proof.
  apply (appended_event_passes_duration_test Sample.cfg Sample.saved
           (mkFrame (Some (mkBitmap [16; 32; 48; 255] 1 1 4)) 900000 10 10 12 100 200)
           false blank_frame (mkState [] 0)
           (mkState [mkEvent "00:00:10:00" "00:00:12:00" "sub00000.png" 100 200 1 1] 1)
           (mkBitmap [16; 32; 48; 255] 1 1 4)).
  - reflexivity.
  - vm_compute. reflexivity.
  - discriminate.
Defined.

Lemma set_back_out_tc_png_file tc l : map png_file (set_back_out_tc tc l) = map png_file l.
Proof.
  destruct l as [|a l] using rev_ind; [reflexivity|].
  rewrite set_back_out_tc_app, !map_app. reflexivity.
Qed.

Lemma process_frame_numbered cfg save cur has_next next st st' :
  frame_index st = Z.of_nat (List.length (events st)) ->
  numbered (base_name cfg) (events st) ->
  process_frame cfg save cur has_next next st = Ok st' ->
  frame_index st' = Z.of_nat (List.length (events st'))
  /\ numbered (base_name cfg) (events st').
Proof.
  intros Hidx Hnum H. unfold numbered in *.
  destruct (process_frame_cases _ _ _ _ _ _ _ H)
    as [-> | [(_ & _ & _ & tc & _ & ->)
             | (b & s & e & ti & to & _ & _ & _ & _ & _ & _ & _ & _ & ->)]].
  - auto.
  - simpl. rewrite set_back_out_tc_length, set_back_out_tc_png_file. auto.
  - simpl. rewrite length_app, map_app; simpl.
    rewrite Nat.add_1_r, seq_S, map_app; simpl.
    rewrite <- Hnum, Hidx. split; [lia | reflexivity].
Qed.

Lemma frame_loop_numbered cfg save rest :
  forall cur st st',
    frame_index st = Z.of_nat (List.length (events st)) ->
    numbered (base_name cfg) (events st) ->
    frame_loop cfg save cur rest st = Ok st' ->
    numbered (base_name cfg) (events st').
Proof.
  induction rest as [|next rest' IH]; intros cur st st' Hidx Hnum H; simpl in H.
  - apply (process_frame_numbered _ _ _ _ _ _ _ Hidx Hnum H).
  - apply bind_ok in H. destruct H as (st1 & H1 & H).
    destruct (process_frame_numbered _ _ _ _ _ _ _ Hidx Hnum H1) as (Hidx1 & Hnum1).
    destruct (_ || _).
    + apply (IH _ _ _ Hidx1 Hnum1 H).
    + inversion H; subst st'. exact Hnum1.
Qed.

(** X3. The PNG files are numbered in the order of the events: the k-th event
    of the final list names the base name followed by k, zero-padded to five
    digits, and [".png"]. *)
Theorem png_files_numbered cfg save frames evs :
  main_events cfg save frames = Ok evs ->
  map png_file evs
  = map (fun k => generate_png_filename (Z.of_nat k) (base_name cfg))
        (seq 0 (List.length evs)).
Proof.
  unfold main_events. destruct frames as [|first rest].
  - intros H; inversion H. reflexivity.
  - intros H. apply bind_ok in H. destruct H as (st & Hloop & H).
    inversion H; subst evs.
    apply (frame_loop_numbered cfg save rest first (mkState [] 0) st);
      [reflexivity | reflexivity | exact Hloop].
Qed.

Lemma png_files_numbered_witness :
  map png_file
    [mkEvent "00:00:15:00" "00:00:10:15" "sub00000.png" 100 200 1 1;
     mkEvent "00:00:11:00" "00:00:13:00" "sub00001.png" 100 200 1 1]
  = ["sub00000.png"; "sub00001.png"]%string.
Proof.
  apply (png_files_numbered Sample.cfg Sample.saved
           [mkFrame (Some (mkBitmap [16; 32; 48; 255] 1 1 4)) 900000 10 15 17 100 200;
            mkFrame None 945000 10.5 10.5 10.5 0 0;
            mkFrame (Some (mkBitmap [16; 32; 48; 255] 1 1 4)) 990000 11 11 13 100 200]).
  vm_compute. reflexivity.
Defined.

(** ** Strings *)

Lemma chars_app a b : chars (a ++ b) = chars a ++ chars b.
Proof.
  unfold chars. induction a as [|c a IH]; simpl; [reflexivity | rewrite IH; reflexivity].
Qed.

Lemma chars_inj a b : chars a = chars b -> a = b.
Proof.
  unfold chars. intros H.
  rewrite <- (string_of_list_ascii_of_string a), <- (string_of_list_ascii_of_string b), H.
  reflexivity.
Qed.

Lemma append_inv_head (p a b : string) : (p ++ a = p ++ b)%string -> a = b.
Proof.
  intros H. apply chars_inj. apply (f_equal chars) in H.
  rewrite !chars_app in H. apply app_inv_head in H. exact H.
Qed.

Lemma append_inv_tail (a b t : string) : (a ++ t = b ++ t)%string -> a = b.
Proof.
  intros H. apply chars_inj. apply (f_equal chars) in H.
  rewrite !chars_app in H. apply app_inv_tail in H. exact H.
Qed.

Lemma length_chars s : List.length (chars s) = String.length s.
Proof.
  unfold chars. induction s as [|c s IH]; simpl; [reflexivity | rewrite IH; reflexivity].
Qed.

Lemma string_length_app a b :
  String.length (a ++ b) = (String.length a + String.length b)%nat.
Proof.
  rewrite <- !length_chars, chars_app. apply length_app.
Qed.

(** ** [xml_escape] *)

Lemma escape_char_cases c :
  (xml_special c = true
   /\ (escape_char c = "&amp;" \/ escape_char c = "&lt;" \/ escape_char c = "&gt;"
       \/ escape_char c = "&quot;" \/ escape_char c = "&apos;")%string)
  \/ (xml_special c = false /\ escape_char c = String c EmptyString).
Proof.
  unfold xml_special, escape_char.
  destruct (Ascii.eqb c "&"); [left; simpl; auto|].
  destruct (Ascii.eqb c "<"); [left; simpl; auto|].
  destruct (Ascii.eqb c ">"); [left; simpl; auto|].
  destruct (Ascii.eqb c "034"); [left; simpl; auto 6|].
  destruct (Ascii.eqb c "'"); [left; simpl; auto 6|].
  right. auto.
Qed.

Lemma xml_escape_app a b : xml_escape (a ++ b) = (xml_escape a ++ xml_escape b)%string.
Proof.
  induction a as [|c a IH]; simpl; [reflexivity|].
  rewrite IH. apply chars_inj. rewrite !chars_app, app_assoc. reflexivity.
Qed.

Lemma xml_escape_safe s :
  (forall c, In c (chars s) -> xml_special c = false) -> xml_escape s = s.
Proof.
  induction s as [|c s IH]; intros H; simpl; [reflexivity|].
  destruct (escape_char_cases c) as [(Hs & _) | (_ & ->)].
  - rewrite (H c) in Hs; [discriminate | left; reflexivity].
  - simpl. rewrite IH; [reflexivity|]. intros d Hd. apply H. right. exact Hd.
Qed.

Lemma escape_char_chars c d :
  In d (chars (escape_char c)) ->
  d <> "<"%char /\ d <> ">"%char /\ d <> "034"%char /\ d <> "'"%char.
Proof.
  destruct (escape_char_cases c) as [(_ & [E|[E|[E|[E|E]]]]) | (Hs & E)]; rewrite E.
  1-5: simpl; intros H;
       repeat (destruct H as [<- | H]; [repeat split; discriminate|]); contradiction.
  simpl. intros [<- | []].
  unfold xml_special in Hs. rewrite !orb_false_iff in Hs.
  destruct Hs as ((((_ & H1) & H2) & H3) & H4).
  repeat split; intros ->; discriminate.
Qed.

Lemma xml_escape_chars (str : string) (c : ascii) :
  In c (chars (xml_escape str)) ->
  c <> "<"%char /\ c <> ">"%char /\ c <> "034"%char /\ c <> "'"%char.
Proof.
  induction str as [|a s IH]; simpl; [contradiction|].
  rewrite chars_app, in_app_iff. intros [H | H].
  - apply (escape_char_chars a c H).
  - apply IH. exact H.
Qed.

(** X9. The text [xml_escape] returns never holds a raw [<], [>], double
    quote or apostrophe, whatever the input. *)
Theorem xml_escape_no_markup (str : string) (c : ascii) :
  In c (chars (xml_escape str)) ->
  c <> "<"%char /\ c <> ">"%char /\ c <> "034"%char /\ c <> "'"%char.
Proof.
  induction str as [|a s IH]; simpl; [contradiction|].
  rewrite chars_app, in_app_iff. intros [H | H].
  - apply (escape_char_chars a c H).
  - apply IH. exact H.
Qed.

Lemma xml_escape_no_markup_witness :
  In "&"%char (chars (xml_escape "a<b"))
  /\ ("&"%char <> "<"%char /\ "&"%char <> ">"%char
      /\ "&"%char <> "034"%char /\ "&"%char <> "'"%char).
Proof.
  assert (H : In "&"%char (chars (xml_escape "a<b"))) by (simpl; auto).
  split; [exact H | exact (xml_escape_no_markup "a<b" "&" H)].
Defined.

Lemma escape_char_head c :
  exists h t, escape_char c = String h t
              /\ (xml_special c = true -> h = "&"%char)
              /\ (xml_special c = false -> h = c /\ t = EmptyString).
Proof.
  destruct (escape_char_cases c) as [(Hs & [E|[E|[E|[E|E]]]]) | (Hs & E)];
    rewrite E, Hs; eexists _, _; (split; [reflexivity|]); split; intros H;
    try discriminate; auto.
Qed.

Lemma xml_special_amp : xml_special "&" = true.
Proof. reflexivity. Qed.

(** X10. [xml_escape] loses nothing: two strings with the same escaped text
    are the same string. *)
Theorem xml_escape_injective (a b : string) :
  xml_escape a = xml_escape b -> a = b.
Proof.
  revert b. induction a as [|c a IH]; intros [|d b]; simpl; intros H.
  - reflexivity.
  - destruct (escape_char_head d) as (h & t & E & _). rewrite E in H. discriminate.
  - destruct (escape_char_head c) as (h & t & E & _). rewrite E in H. discriminate.
  - assert (Hcd : c = d /\ xml_escape a = xml_escape b).
    { destruct (escape_char_cases c) as [(Hc & Ec) | (Hc & Ec)];
        destruct (escape_char_cases d) as [(Hd & Ed) | (Hd & Ed)].
      - (* both replaced: the entity names tell the characters apart *)
        unfold xml_special, escape_char in *.
        destruct (Ascii.eqb_spec c "&"), (Ascii.eqb_spec d "&"),
                 (Ascii.eqb_spec c "<"), (Ascii.eqb_spec d "<"),
                 (Ascii.eqb_spec c ">"), (Ascii.eqb_spec d ">"),
                 (Ascii.eqb_spec c "034"), (Ascii.eqb_spec d "034"),
                 (Ascii.eqb_spec c "'"), (Ascii.eqb_spec d "'");
          subst; simpl in *; try discriminate; inversion H; auto.
      - rewrite Ed in H. exfalso.
        destruct (escape_char_head c) as (h & t & E & Hh & _). rewrite E in H.
        specialize (Hh Hc). subst h. simpl in H. inversion H. subst d.
        rewrite xml_special_amp in Hd. discriminate.
      - rewrite Ec in H. exfalso.
        destruct (escape_char_head d) as (h & t & E & Hh & _). rewrite E in H.
        specialize (Hh Hd). subst h. simpl in H. inversion H. subst c.
        rewrite xml_special_amp in Hc. discriminate.
      - rewrite Ec, Ed in H. simpl in H. inversion H. auto. }
    destruct Hcd as (-> & Hrest). f_equal. apply IH. exact Hrest.
Qed.

Lemma xml_escape_injective_witness : "a<b&c"%string = "a<b&c"%string.
Proof.
  apply (xml_escape_injective "a<b&c" "a<b&c"). reflexivity.
Defined.

(** ** Zero-padded numbers and PNG file names *)

Lemma read_decimal_fill0 k s : read_decimal (fill0 k s) = read_decimal s.
Proof.
  induction k as [|k IH]; [reflexivity|].
  unfold read_decimal in *. cbn [fill0 NilEmpty.uint_of_string].
  destruct (NilEmpty.uint_of_string (fill0 k s)) as [d|];
    destruct (NilEmpty.uint_of_string s) as [d'|]; simpl in *;
    try discriminate; try reflexivity.
  exact IH.
Qed.

Lemma read_decimal_string_of_int n :
  0 <= n -> read_decimal (NilZero.string_of_int (Z.to_int n)) = Some n.
Proof.
  intros Hn. destruct n as [|p|p]; [reflexivity| |lia].
  unfold read_decimal. cbn [Z.to_int NilZero.string_of_int].
  unfold NilZero.string_of_uint.
  assert (Hnn : Pos.to_uint p <> Decimal.Nil)
    by apply DecimalPos.Unsigned.to_uint_nonnil.
  destruct (Pos.to_uint p) eqn:E; try contradiction;
    rewrite <- E, NilEmpty.usu; cbn [option_map]; f_equal;
    unfold Z.of_uint; rewrite DecimalPos.Unsigned.of_to; reflexivity.
Qed.

Lemma read_decimal_setw w n : 0 <= n -> read_decimal (setw w n) = Some n.
Proof.
  intros Hn. unfold setw. cbv zeta.
  rewrite read_decimal_fill0. apply read_decimal_string_of_int. exact Hn.
Qed.

Lemma setw_injective w i j : 0 <= i -> 0 <= j -> setw w i = setw w j -> i = j.
Proof.
  intros Hi Hj H.
  assert (E : read_decimal (setw w i) = read_decimal (setw w j)) by (rewrite H; reflexivity).
  rewrite !read_decimal_setw in E by assumption. congruence.
Qed.

Lemma generate_png_filename_injective base i j :
  0 <= i -> 0 <= j ->
  generate_png_filename i base = generate_png_filename j base -> i = j.
Proof.
  unfold generate_png_filename. intros Hi Hj H.
  apply append_inv_head in H. apply append_inv_tail in H.
  apply (setw_injective 5); assumption.
Qed.

(** X4. No two events of a run name the same PNG file: the file names of
    the final event list are pairwise distinct, so no saved bitmap is
    overwritten by a later one. *)
Theorem png_files_distinct cfg save frames evs :
  main_events cfg save frames = Ok evs ->
  NoDup (map png_file evs).
Proof.
  intros H.
  assert (Hn : numbered (base_name cfg) evs).
  { unfold main_events in H. destruct frames as [|first rest].
    - inversion H. reflexivity.
    - apply bind_ok in H. destruct H as (st & Hloop & H).
      inversion H; subst evs.
      apply (frame_loop_numbered cfg save rest first (mkState [] 0) st);
        [reflexivity | reflexivity | exact Hloop]. }
  unfold numbered in Hn. rewrite Hn.
  apply NoDup_map_NoDup_ForallPairs; [|apply seq_NoDup].
  intros a b _ _ E.
  apply generate_png_filename_injective in E; lia.
Qed.

Lemma png_files_distinct_witness :
  NoDup (map png_file
    [mkEvent "00:00:15:00" "00:00:10:15" "sub00000.png" 100 200 1 1;
     mkEvent "00:00:11:00" "00:00:13:00" "sub00001.png" 100 200 1 1]).
Proof.
  apply (png_files_distinct Sample.cfg Sample.saved
           [mkFrame (Some (mkBitmap [16; 32; 48; 255] 1 1 4)) 900000 10 15 17 100 200;
            mkFrame None 945000 10.5 10.5 10.5 0 0;
            mkFrame (Some (mkBitmap [16; 32; 48; 255] 1 1 4)) 990000 11 11 13 100 200]).
  vm_compute. reflexivity.
Defined.

(** ** The bounding box and the composite buffer *)

Lemma bounding_box_fold rects : forall a b c d a' b' c' d',
  fold_left
    (fun '(min_x, min_y, max_x, max_y) rect =>
       if rect_is_bitmap rect then
         (Z.min min_x (rect_x rect), Z.min min_y (rect_y rect),
          Z.max max_x (rect_x rect + rect_w rect),
          Z.max max_y (rect_y rect + rect_h rect))
       else (min_x, min_y, max_x, max_y))
    rects (a, b, c, d) = (a', b', c', d') ->
  (a' <= a /\ b' <= b /\ c <= c' /\ d <= d')
  /\ forall rect, In rect rects -> rect_is_bitmap rect = true ->
       a' <= rect_x rect /\ b' <= rect_y rect
       /\ rect_x rect + rect_w rect <= c' /\ rect_y rect + rect_h rect <= d'.
Proof.
  induction rects as [|r rs IH]; intros a b c d a' b' c' d' H.
  - simpl in H. inversion H; subst. split; [lia | intros ? []].
  - cbn [fold_left] in H. destruct (rect_is_bitmap r) eqn:Hb.
    + apply IH in H. destruct H as (Hm & Hin). split; [lia|].
      intros rect [<- | Hr] Hbr; [lia | apply Hin; assumption].
    + apply IH in H. destruct H as (Hm & Hin). split; [lia|].
      intros rect [<- | Hr] Hbr; [congruence | apply Hin; assumption].
Qed.

Lemma bounding_box_contains rects min_x min_y max_x max_y rect :
  bounding_box rects = (min_x, min_y, max_x, max_y) ->
  In rect rects -> rect_is_bitmap rect = true ->
  min_x <= rect_x rect /\ min_y <= rect_y rect
  /\ rect_x rect + rect_w rect <= max_x /\ rect_y rect + rect_h rect <= max_y.
Proof.
  unfold bounding_box. intros H. apply bounding_box_fold in H.
  destruct H as (_ & H). apply H.
Qed.

Lemma composite_rects_inv rects bmp min_x min_y :
  composite_rects rects = Ok (bmp, min_x, min_y) ->
  exists max_x max_y data,
    bounding_box rects = (min_x, min_y, max_x, max_y)
    /\ bmp = mkBitmap data (max_x - min_x) (max_y - min_y) ((max_x - min_x) * 4)
    /\ fold_left
         (fun acc rect =>
            d <- acc ;; draw_rect min_x min_y (max_x - min_x) (max_y - min_y) rect d)
         rects (Ok (repeat 0 (Z.to_nat ((max_x - min_x) * (max_y - min_y) * 4))))
       = Ok data.
Proof.
  unfold composite_rects.
  destruct (bounding_box rects) as [[[bx by_] ex] ey].
  intros H. apply bind_ok in H. destruct H as (data & Hfold & H).
  inversion H; subst. exists ex, ey, data. auto.
Qed.

(** X7. The composite bitmap is the bounding box of the bitmap rects: every
    bitmap rect lies inside it, so that the bounds test of the drawing loop
    passes for each of its pixels; the buffer holds [width * height * 4]
    bytes and the stride is [width * 4]. *)
Theorem composite_is_bounding_box rects bmp min_x min_y :
  composite_rects rects = Ok (bmp, min_x, min_y) ->
  List.length (bmp_data bmp) = Z.to_nat (bmp_width bmp * bmp_height bmp * 4)
  /\ bmp_stride bmp = bmp_width bmp * 4
  /\ forall rect, In rect rects -> rect_is_bitmap rect = true ->
       (min_x <= rect_x rect /\ rect_x rect + rect_w rect <= min_x + bmp_width bmp)
       /\ (min_y <= rect_y rect /\ rect_y rect + rect_h rect <= min_y + bmp_height bmp)
       /\ forall x y, 0 <= x < rect_w rect -> 0 <= y < rect_h rect ->
            0 <= rect_x rect - min_x + x < bmp_width bmp
            /\ 0 <= rect_y rect - min_y + y < bmp_height bmp.
Proof.
  intros H. apply composite_rects_inv in H.
  destruct H as (max_x & max_y & data & Hbox & -> & Hfold).
  cbn [bmp_data bmp_width bmp_height bmp_stride].
  split; [|split; [reflexivity|]].
  - rewrite (composite_fold_length _ _ _ _ _ _ _ Hfold). apply repeat_length.
  - intros rect Hin Hb.
    pose proof (bounding_box_contains _ _ _ _ _ _ Hbox Hin Hb) as Hc.
    repeat split; lia.
Qed.

Lemma composite_is_bounding_box_witness :
  List.length [1; 2; 3; 255; 0; 0; 0; 0; 4; 5; 6; 255] = Z.to_nat (3 * 1 * 4).
Proof.
  apply (composite_is_bounding_box
           [mkRect true 0 0 1 1 1 (Some [0]) (Some [Sample.argb 255 1 2 3]);
            mkRect true 2 0 1 1 1 (Some [0]) (Some [Sample.argb 255 4 5 6])]
           (mkBitmap [1; 2; 3; 255; 0; 0; 0; 0; 4; 5; 6; 255] 3 1 12) 0 0).
  vm_compute. reflexivity.
Defined.

(** X8. Rects are drawn in order, later ones on top: where the last rect
    that covers a pixel has an opaque source pixel (alpha 255), the composite
    holds exactly that source pixel, whatever the earlier rects drew there. *)
Theorem composite_opaque_on_top before rect after bmp min_x min_y indices palette x y :
  composite_rects (before ++ rect :: after) = Ok (bmp, min_x, min_y) ->
  rect_is_bitmap rect = true ->
  rect_indices rect = Some indices -> rect_palette rect = Some palette ->
  0 <= x < rect_w rect -> 0 <= y < rect_h rect ->
  px_a (source_pixel indices palette (rect_linesize rect) x y) = 255 ->
  (forall r, In r after ->
             ~ covers min_x min_y r (rect_x rect - min_x + x) (rect_y rect - min_y + y)) ->
  load_pixel (bmp_data bmp)
    (pixel_offset (bmp_width bmp) (rect_x rect - min_x + x) (rect_y rect - min_y + y))
  = source_pixel indices palette (rect_linesize rect) x y.
Proof.
  intros H Hb Hi Hp Hx Hy Ha Hout.
  apply composite_rects_inv in H.
  destruct H as (max_x & max_y & data & Hbox & -> & Hfold).
  cbn [bmp_data bmp_width bmp_height].
  assert (Hin : In rect (before ++ rect :: after))
    by (apply in_or_app; right; left; reflexivity).
  pose proof (bounding_box_contains _ _ _ _ _ _ Hbox Hin Hb) as Hc.
  set (w := max_x - min_x) in *. set (h := max_y - min_y) in *.
  set (cx := rect_x rect - min_x + x) in *. set (cy := rect_y rect - min_y + y) in *.
  assert (Hcx : 0 <= cx < w) by (unfold cx, w; lia).
  assert (Hcy : 0 <= cy < h) by (unfold cy, h; lia).
  rewrite fold_left_app in Hfold. cbn [fold_left] in Hfold.
  destruct (composite_fold_ok _ _ _ _ _ _ _ Hfold) as (d2 & E2).
  rewrite E2 in Hfold.
  apply bind_ok in E2. destruct E2 as (d1 & E1 & E2).
  assert (Hlen1 : List.length d1 = Z.to_nat (w * h * 4)).
  { rewrite (composite_fold_length _ _ _ _ _ _ _ E1). apply repeat_length. }
  destruct (draw_rect_here _ _ _ _ _ _ _ _ _ x y E2 Hb Hi Hp Hx Hy Hcx Hcy Hlen1)
    as (_ & Hhere).
  fold cx cy in Hhere.
  rewrite (composite_fold_elsewhere min_x min_y w h after cx cy) with (data := d2);
    [| lia | lia | exact Hout | exact Hfold].
  set (src := source_pixel indices palette (rect_linesize rect) x y) in *.
  clearbody src.
  set (got := load_pixel d2 (pixel_offset w cx cy)) in *. clearbody got.
  set (old := load_pixel d1 (pixel_offset w cx cy)) in *. clearbody old.
  destruct (composite_pixel_cases src old) as (_ & Hcopy & _).
  rewrite Hcopy in Hhere by (try left; lia). congruence.
Qed.

Lemma composite_opaque_on_top_witness :
  load_pixel [4; 5; 6; 255] (pixel_offset 1 0 0) = mkRGBA 4 5 6 255.
Proof.
  apply (composite_opaque_on_top
           [mkRect true 0 0 1 1 1 (Some [0]) (Some [Sample.argb 200 1 2 3])]
           (mkRect true 0 0 1 1 1 (Some [0]) (Some [Sample.argb 255 4 5 6]))
           []
           (mkBitmap [4; 5; 6; 255] 1 1 4) 0 0
           [0] [Sample.argb 255 4 5 6] 0 0).
  - vm_compute. reflexivity.
  - reflexivity.
  - reflexivity.
  - reflexivity.
  - simpl. lia.
  - simpl. lia.
  - vm_compute. reflexivity.
  - intros r [].
Defined.

(** ** What holds of every event of a run *)

Lemma Forall_set_back_out_tc (P : SubtitleEvent -> Prop) tc l :
  (forall e, P e -> P (with_out_tc tc e)) ->
  Forall P l -> Forall P (set_back_out_tc tc l).
Proof.
  intros Hw. destruct l as [|a l _] using rev_ind; [auto|].
  rewrite set_back_out_tc_app. intros H.
  apply Forall_app in H. destruct H as (Hl & Ha).
  apply Forall_app. split; [exact Hl|].
  inversion Ha; subst. constructor; [apply Hw; assumption | constructor].
Qed.

(** A property of the loop state that every pass keeps, for the frames of
    the stream, holds when the loop ends. *)
Lemma frame_loop_invariant cfg save (Q : SubtitleFrame -> Prop) (I : LoopState -> Prop) :
  (forall cur has_next next st st',
     Q cur -> I st -> process_frame cfg save cur has_next next st = Ok st' -> I st') ->
  forall rest cur st st',
    Q cur -> Forall Q rest -> I st ->
    frame_loop cfg save cur rest st = Ok st' -> I st'.
Proof.
  intros Hstep. induction rest as [|next rest' IH]; intros cur st st' Hc Hr Hi H;
    simpl in H.
  - apply (Hstep _ _ _ _ _ Hc Hi H).
  - apply bind_ok in H. destruct H as (st1 & H1 & H).
    pose proof (Hstep _ _ _ _ _ Hc Hi H1) as Hi1.
    inversion Hr; subst.
    destruct (_ || _).
    + apply (IH next st1 st'); assumption.
    + inversion H; subst st'. exact Hi1.
Qed.

Lemma main_events_invariant cfg save (Q : SubtitleFrame -> Prop)
    (P : SubtitleEvent -> Prop) frames evs :
  (forall cur has_next next st st',
     Q cur -> Forall P (events st) ->
     process_frame cfg save cur has_next next st = Ok st' -> Forall P (events st')) ->
  Forall Q frames ->
  main_events cfg save frames = Ok evs ->
  Forall P evs.
Proof.
  intros Hstep HQ H. unfold main_events in H. destruct frames as [|first rest].
  - inversion H. constructor.
  - apply bind_ok in H. destruct H as (st & Hloop & H). inversion H; subst evs.
    inversion HQ; subst.
    apply (frame_loop_invariant cfg save Q (fun st => Forall P (events st)) Hstep
             rest first (mkState [] 0) st); auto.
Qed.

(** X11. Every event of the final list shows a frame of the stream: its
    position and size are those of that frame's bitmap, neither dimension is
    zero, and the bitmap was saved under the event's file name. *)
Theorem events_show_saved_frames cfg save frames evs :
  main_events cfg save frames = Ok evs ->
  Forall (fun e => ev_width e <> 0 /\ ev_height e <> 0
                   /\ exists f, In f frames /\ shows_frame save e f) evs.
Proof.
  apply (main_events_invariant cfg save (fun f => In f frames)).
  - intros cur has_next next st st' Hin Hst H.
    destruct (process_frame_cases _ _ _ _ _ _ _ H)
      as [-> | [(_ & _ & _ & tc & _ & ->)
               | (b & s & e & ti & to & Hb & Hw & Hh & _ & _ & Hs & _ & _ & ->)]].
    + exact Hst.
    + cbn [events]. apply Forall_set_back_out_tc; [|exact Hst].
      intros e He. exact He.
    + cbn [events]. apply Forall_app. split; [exact Hst|].
      constructor; [|constructor]. cbn [ev_width ev_height].
      split; [exact Hw|]. split; [exact Hh|].
      exists cur. split; [exact Hin|]. exists b. cbn.
      repeat split; try reflexivity; assumption.
  - apply Forall_forall. auto.
Qed.

Lemma events_show_saved_frames_witness :
  Forall (fun e => ev_width e <> 0 /\ ev_height e <> 0
                   /\ exists f,
                        In f [mkFrame (Some (mkBitmap [16; 32; 48; 255] 1 1 4))
                                900000 10 15 17 100 200;
                              mkFrame None 945000 10.5 10.5 10.5 0 0]
                        /\ shows_frame Sample.saved e f)
    [mkEvent "00:00:15:00" "00:00:16:29" "sub00000.png" 100 200 1 1].
Proof.
  apply (events_show_saved_frames Sample.cfg Sample.saved
           [mkFrame (Some (mkBitmap [16; 32; 48; 255] 1 1 4)) 900000 10 15 17 100 200;
            mkFrame None 945000 10.5 10.5 10.5 0 0]).
  vm_compute. reflexivity.
Defined.

(** X12. In a stream without clear commands every event of the final list
    has passed the zero-duration test: its timecodes are those of a start
    and an end of which the end lies after the start.  (With clear commands
    this fails, since a clear command rewrites the end untested.) *)
Theorem durations_positive_without_clear cfg save frames evs :
  forallb (fun f => negb (clear_command f)) frames = true ->
  main_events cfg save frames = Ok evs ->
  Forall (positive_duration (bdn_fps cfg)) evs.
Proof.
  intros Hnc.
  apply (main_events_invariant cfg save (fun f => clear_command f = false)).
  - intros cur has_next next st st' Hq Hst H.
    destruct (process_frame_cases _ _ _ _ _ _ _ H)
      as [-> | [(Hb & Ht & _)
               | (b & s & e & ti & to & _ & _ & _ & _ & Hz & _ & Hi & Ho & ->)]].
    + exact Hst.
    + unfold clear_command in Hq. rewrite Hb, Ht in Hq. discriminate.
    + cbn [events]. apply Forall_app. split; [exact Hst|].
      constructor; [|constructor]. exists s, e. cbn.
      repeat split; assumption.
  - apply Forall_forall. intros f Hf.
    rewrite forallb_forall in Hnc. specialize (Hnc f Hf).
    destruct (clear_command f); [discriminate | reflexivity].
Qed.

Lemma durations_positive_without_clear_witness :
  Forall (positive_duration 29.97%float)
    [mkEvent "00:00:10:00" "00:00:12:00" "sub00000.png" 100 200 1 1;
     mkEvent "00:00:11:00" "00:00:13:00" "sub00001.png" 100 200 1 1].
Proof.
  apply (durations_positive_without_clear Sample.cfg Sample.saved
           [mkFrame (Some (mkBitmap [16; 32; 48; 255] 1 1 4)) 900000 10 10 12 100 200;
            mkFrame (Some (mkBitmap [16; 32; 48; 255] 1 1 4)) 990000 11 11 13 100 200]).
  - reflexivity.
  - vm_compute. reflexivity.
Defined.

(** ** The width of a timecode *)

Lemma setw2_two_digits v :
  0 <= v < 100 ->
  exists a b, setw2 v = String a (String b EmptyString)
              /\ is_digit a = true /\ is_digit b = true.
Proof.
  intros Hv.
  assert (Hall : forallb (fun v => match setw2 v with
                                   | String a (String b EmptyString) =>
                                       is_digit a && is_digit b
                                   | _ => false
                                   end) (upto 100) = true)
    by (vm_compute; reflexivity).
  rewrite forallb_forall in Hall.
  specialize (Hall v (proj2 (in_upto v 100) Hv)).
  destruct (setw2 v) as [|a [|b [|c r]]]; try discriminate.
  apply andb_true_iff in Hall. exists a, b. tauto.
Qed.

Lemma format_tc_shaped h m s f :
  0 <= h < 100 -> 0 <= m < 100 -> 0 <= s < 100 -> 0 <= f < 100 ->
  timecode_shaped (format_tc h m s f) = true
  /\ xml_escape (format_tc h m s f) = format_tc h m s f.
Proof.
  intros Hh Hm Hs Hf. unfold format_tc.
  destruct (setw2_two_digits h Hh) as (h1 & h2 & -> & Hh1 & Hh2).
  destruct (setw2_two_digits m Hm) as (m1 & m2 & -> & Hm1 & Hm2).
  destruct (setw2_two_digits s Hs) as (s1 & s2 & -> & Hs1 & Hs2).
  destruct (setw2_two_digits f Hf) as (f1 & f2 & -> & Hf1 & Hf2).
  split.
  - unfold timecode_shaped. cbn [append chars list_ascii_of_string].
    rewrite Hh1, Hh2, Hm1, Hm2, Hs1, Hs2, Hf1, Hf2. reflexivity.
  - assert (Hd : forall c, is_digit c = true -> escape_char c = String c EmptyString).
    { intros c Hc. unfold escape_char.
      destruct (Ascii.eqb_spec c "&"); [subst; discriminate|].
      destruct (Ascii.eqb_spec c "<"); [subst; discriminate|].
      destruct (Ascii.eqb_spec c ">"); [subst; discriminate|].
      destruct (Ascii.eqb_spec c "034"); [subst; discriminate|].
      destruct (Ascii.eqb_spec c "'"); [subst; discriminate|].
      reflexivity. }
    cbn [append xml_escape].
    rewrite (Hd h1), (Hd h2), (Hd m1), (Hd m2), (Hd s1), (Hd s2), (Hd f1), (Hd f2)
      by assumption.
    reflexivity.
Qed.

Lemma string_of_uint_length d :
  String.length (NilEmpty.string_of_uint d) = Decimal.nb_digits d.
Proof.
  induction d; simpl; congruence.
Qed.

Lemma fill0_length k s : String.length (fill0 k s) = (k + String.length s)%nat.
Proof.
  induction k as [|k IH]; simpl; [reflexivity | rewrite IH; reflexivity].
Qed.

Lemma setw_length_min w n : (w <= String.length (setw w n))%nat.
Proof.
  unfold setw. cbv zeta. rewrite fill0_length. lia.
Qed.

Lemma two_digits_below_100 d :
  (Decimal.nb_digits d <= 2)%nat -> (Pos.of_uint d <= 99)%N.
Proof.
  intros H.
  destruct d as [|d|d|d|d|d|d|d|d|d|d]; try (simpl; lia);
    (destruct d as [|d|d|d|d|d|d|d|d|d|d]; try (simpl; lia);
     (destruct d; simpl in H; try lia; vm_compute; discriminate)).
Qed.

Lemma setw2_three_digits v : 100 <= v -> (3 <= String.length (setw2 v))%nat.
Proof.
  intros Hv. destruct v as [|p|p]; try lia.
  unfold setw2, setw. cbv zeta. rewrite fill0_length.
  cbn [Z.to_int NilZero.string_of_int]. unfold NilZero.string_of_uint.
  pose proof (DecimalPos.Unsigned.to_uint_nonnil p) as Hnn.
  pose proof (DecimalPos.Unsigned.of_to p) as Hof.
  assert (Hlen : (3 <= Decimal.nb_digits (Pos.to_uint p))%nat).
  { destruct (Nat.le_gt_cases (Decimal.nb_digits (Pos.to_uint p)) 2) as [Hle|Hgt]; [|lia].
    apply two_digits_below_100 in Hle. rewrite Hof in Hle. lia. }
  destruct (Pos.to_uint p) eqn:E; try contradiction;
    cbv match; rewrite string_of_uint_length; lia.
Qed.

Lemma timecode_shaped_length s : timecode_shaped s = true -> String.length s = 11%nat.
Proof.
  unfold timecode_shaped. rewrite <- length_chars.
  destruct (chars s) as [|c1 [|c2 [|c3 [|c4 [|c5 [|c6 [|c7 [|c8 [|c9 [|c10 [|c11 [|c12 r]]]]]]]]]]]];
    try discriminate.
  reflexivity.
Qed.

Lemma format_tc_length h m s f :
  String.length (format_tc h m s f)
  = (String.length (setw2 h) + String.length (setw2 m)
     + String.length (setw2 s) + String.length (setw2 f) + 3)%nat.
Proof.
  unfold format_tc. rewrite !string_length_app. simpl. lia.
Qed.

(** X13. For a nominal rate from 1 to 100, [time_to_tc] returns a string of
    the fixed shape [HH:MM:SS:FF] exactly when the frame count stays below
    100 hours of frames; from 100 hours on, the hours take a third digit. *)
Theorem time_to_tc_fixed_width (seconds fps : float) (total n : Z) (s : string) :
  total_frames seconds fps = Ok total ->
  round_to_int fps = Ok n ->
  1 <= n <= 100 ->
  time_to_tc seconds fps = Ok s ->
  (timecode_shaped s = true <-> total < 360000 * n).
Proof.
  intros Ht Hn Hn1 H. unfold time_to_tc in H.
  apply bind_ok in H. destruct H as (t & Hf & H). inversion H; subst s; clear H.
  destruct (time_to_tc_fields_inv _ _ _ Hf) as (total' & n' & Ht' & Hn' & _ & Hside & ->).
  assert (total' = total) by congruence. assert (n' = n) by congruence. subst total' n'.
  assert (H0 : 0 <= total) by (destruct Hside; lia).
  pose proof (split_fields_bounds total n Hside) as (Hh & Hm & Hs).
  assert (Hfr : 0 <= tc_frames (split_fields total n) < n)
    by (unfold split_fields; cbn [tc_frames]; apply Z.mod_pos_bound; lia).
  assert (Hhours : tc_hours (split_fields total n) = total / (n * 3600)) by reflexivity.
  split.
  - intros Hshape. apply timecode_shaped_length in Hshape.
    rewrite format_tc_length in Hshape.
    destruct (Z.lt_ge_cases total (360000 * n)) as [|Hge]; [assumption|exfalso].
    assert (H100 : 100 <= tc_hours (split_fields total n)).
    { rewrite Hhours. apply Z.div_le_lower_bound; lia. }
    pose proof (setw2_three_digits _ H100).
    pose proof (setw_length_min 2 (tc_minutes (split_fields total n))).
    pose proof (setw_length_min 2 (tc_secs (split_fields total n))).
    pose proof (setw_length_min 2 (tc_frames (split_fields total n))).
    unfold setw2 in *. lia.
  - intros Hlt. apply format_tc_shaped; try lia.
    rewrite Hhours in *. split; [lia|]. apply Z.div_lt_upper_bound; lia.
Qed.

Lemma time_to_tc_fixed_width_witness :
  timecode_shaped "00:00:10:00" = true <-> 300 < 360000 * 30.
Proof.
  apply (time_to_tc_fixed_width 10 29.97 300 30 "00:00:10:00");
    try (vm_compute; reflexivity).
  lia.
Defined.

(** The frame count of a time up to one day at a rate below 64 stays below
    [2^23] frames: the exact product is below [2^17 * 2^6], and rounding
    adds less than the gap. *)
Lemma product_below_one_day x fps mf ef :
  Prim2SF fps = S754_finite false mf ef ->
  Z.pos (digits2_pos mf) <= 53 -> -100 <= ef <= -47 ->
  (0 <=? x)%float = true -> (x <=? 86400)%float = true ->
  exists total, std_round (x * fps)%float = Some total /\ 0 <= total <= 2 ^ 23.
Proof.
  intros Ef Hdf Hef H0 HB.
  pose proof (not_below_zero x H0) as Hneg.
  rewrite FloatAxioms.leb_spec in HB.
  replace (Prim2SF 86400) with (S754_finite false 5937362789990400 (-36)) in HB
    by (vm_compute; reflexivity).
  rewrite FloatAxioms.leb_spec in H0.
  replace (Prim2SF 0) with (S754_zero false) in H0 by reflexivity.
  unfold std_round. rewrite FloatAxioms.mul_spec, Ef.
  pose proof (Prim2SF_valid x) as Hv.
  destruct (Prim2SF x) as [s|s| |s mx ex] eqn:Ex.
  - exists 0. simpl. split; [reflexivity | lia].
  - destruct s; discriminate.
  - discriminate.
  - rewrite (not_negative_finite _ _ _ _ Hneg Ex) in *.
    destruct (valid_binary_finite _ _ _ Hv) as (Hdx & Hex).
    apply SFleb_finite_exponent in HB.
    unfold SF64mul, SFmul. simpl xorb.
    set (M := Z.pos (mx * mf)). set (E := ex + ef).
    pose proof (binary_round_aux_scaled prec emax false M E 1200
                  ltac:(reflexivity) ltac:(unfold E; lia)) as Hb.
    pose proof (binary_round_aux_sign prec emax false M E loc_Exact) as Hs.
    cbv zeta in Hb.
    assert (Hmx : Z.pos mx <= 2 ^ 53 - 1).
    { pose proof (digits2_pos_bound mx).
      assert (2 ^ Z.pos (digits2_pos mx) <= 2 ^ 53) by (apply Z.pow_le_mono_r; lia).
      lia. }
    assert (Hmf : Z.pos mf <= 2 ^ 53 - 1).
    { pose proof (digits2_pos_bound mf).
      assert (2 ^ Z.pos (digits2_pos mf) <= 2 ^ 53) by (apply Z.pow_le_mono_r; lia).
      lia. }
    assert (HM : M <= (2 ^ 53 - 1) * (2 ^ 53 - 1)).
    { unfold M. rewrite Pos2Z.inj_mul. apply Z.mul_le_mono_nonneg; lia. }
    assert (Hd : Zdigits2 M <= 106).
    { unfold M. simpl Zdigits2.
      pose proof (digits2_pos_lower (mx * mf)) as Hl. fold M in Hl.
      destruct (Z_le_gt_dec (Z.pos (digits2_pos (mx * mf))) 106) as [|Hgt]; [assumption|].
      assert (2 ^ 106 <= 2 ^ (Z.pos (digits2_pos (mx * mf)) - 1))
        by (apply Z.pow_le_mono_r; lia).
      assert ((2 ^ 53 - 1) * (2 ^ 53 - 1) < 2 ^ 106) by reflexivity.
      lia. }
    assert (He1 : Z.max E (fexp prec emax (Zdigits2 M + E)) <= -30).
    { unfold fexp. change (SpecFloat.emin prec emax) with (-1074). change prec with 53.
      unfold E. lia. }
    assert (Hsum : M * 2 ^ (E + 1200)
                   + 2 ^ (Z.max E (fexp prec emax (Zdigits2 M + E)) + 1200)
                   <= 2 ^ (23 + 1200)).
    { assert (H1 : 2 ^ (E + 1200) <= 2 ^ (-83 + 1200))
        by (apply Z.pow_le_mono_r; unfold E; lia).
      assert (H2 : 2 ^ (Z.max E (fexp prec emax (Zdigits2 M + E)) + 1200)
                   <= 2 ^ (-30 + 1200))
        by (apply Z.pow_le_mono_r; lia).
      assert (H3 : 0 < 2 ^ (E + 1200)) by (apply Z.pow_pos_nonneg; unfold E; lia).
      assert (H4 : (2 ^ 53 - 1) * (2 ^ 53 - 1) * 2 ^ (-83 + 1200) + 2 ^ (-30 + 1200)
                   <= 2 ^ (23 + 1200)) by (vm_compute; discriminate).
      assert (H5 : M * 2 ^ (E + 1200)
                   <= (2 ^ 53 - 1) * (2 ^ 53 - 1) * 2 ^ (-83 + 1200))
        by (apply Z.mul_le_mono_nonneg; unfold M; lia).
      lia. }
    destruct (binary_round_aux prec emax false M E loc_Exact) as [s'|s'| |s' m e].
    + exists 0. split; [reflexivity | lia].
    + exfalso. destruct Hb as (e & He & Hle).
      assert (2 ^ (23 + 1200) < 2 ^ (e + 1200)).
      { apply Z.pow_lt_mono_r; [lia | | ].
        - unfold E in *. change (emax - prec) with 971 in He. lia.
        - change (emax - prec) with 971 in He. lia. }
      lia.
    + contradiction.
    + subst s'. exists (round_magnitude m e). split; [reflexivity|].
      split; [apply round_magnitude_nonneg|].
      destruct Hb as (HEe & Hb).
      apply (round_magnitude_scaled m e 1200 23); unfold E in *; lia.
Qed.

(** X14. At each of the rates 23.976, 24, 25, 29.97, 30, 59.94 and 60 and for
    every time from 0 to one day, [time_to_tc] returns a string of the fixed
    shape [HH:MM:SS:FF], which [xml_escape] leaves as it is. *)
Theorem time_to_tc_one_day_shape (fps seconds : float) :
  In fps tested_rates ->
  (0 <=? seconds)%float = true -> (seconds <=? 86400)%float = true ->
  exists s, time_to_tc seconds fps = Ok s
            /\ timecode_shaped s = true
            /\ xml_escape s = s.
Proof.
  intros Hrate H0 HB.
  destruct (tested_rate_shape fps Hrate) as (mf & ef & n & Ef & Hd & He & Hn & Hin).
  destruct (product_below_one_day seconds fps mf ef Ef Hd He H0 HB) as (total & Ht & Hr).
  assert (Hmax : Int.max = 2147483647) by reflexivity.
  assert (H23 : 2 ^ 23 = 8388608) by reflexivity.
  assert (Hn24 : 24 <= n <= 60) by (simpl in Hin; lia).
  assert (Hf : time_to_tc_fields seconds fps = Ok (split_fields total n)).
  { apply time_to_tc_fields_defined; try lia.
    - rewrite (clamp_seconds_id _ H0). exact Ht.
    - exact Hn. }
  assert (Hside : same_side total n) by (left; lia).
  pose proof (split_fields_bounds total n Hside) as (Hh & Hm & Hs).
  assert (Hfr : 0 <= tc_frames (split_fields total n) < n)
    by (unfold split_fields; cbn [tc_frames]; apply Z.mod_pos_bound; lia).
  assert (Hhours : tc_hours (split_fields total n) < 100).
  { unfold split_fields; cbn [tc_hours]. apply Z.div_lt_upper_bound; lia. }
  unfold time_to_tc. rewrite Hf. cbn [bind].
  eexists. split; [reflexivity|].
  apply format_tc_shaped; lia.
Qed.

Lemma time_to_tc_one_day_shape_witness :
  exists s, time_to_tc 3661.5 29.97 = Ok s
            /\ timecode_shaped s = true
            /\ xml_escape s = s.
Proof.
  apply (time_to_tc_one_day_shape 29.97 3661.5).
  - simpl. tauto.
  - reflexivity.
  - reflexivity.
Defined.

(** X15. The rate [main] hands to the generator is always positive: a zero,
    negative or NaN rate is replaced by 29.97.  A positive rate below one
    half is kept, though, and rounds to a nominal rate of 0, with which
    [time_to_tc] divides by zero. *)
Theorem low_rate_divides_by_zero (video_fps seconds : float) (total : Z) :
  (0 <? choose_fps video_fps)%float = true
  /\ ((0 <? video_fps)%float = true ->
      round_to_int video_fps = Ok 0 ->
      total_frames seconds video_fps = Ok total ->
      time_to_tc seconds (choose_fps video_fps) = Undefined DivByZero).
Proof.
  unfold choose_fps. split.
  - destruct (0 <? video_fps)%float eqn:E; [exact E | reflexivity].
  - intros Hpos Hn Ht. rewrite Hpos.
    unfold time_to_tc, time_to_tc_fields. rewrite Ht, Hn. reflexivity.
Qed.

Lemma low_rate_divides_by_zero_witness :
  (0 <? choose_fps 0.25)%float = true
  /\ time_to_tc 10 (choose_fps 0.25) = Undefined DivByZero.
Proof.
  destruct (low_rate_divides_by_zero 0.25 10 3) as (H1 & H2).
  split; [exact H1|].
  apply H2; vm_compute; reflexivity.
Defined.

(** ** The canvas size *)

(** X16. When [main] gets past the canvas checks, the canvas is one of
    1920x1080, 1440x1080, 1280x720 and 720x480, parsed back from its own
    text without error, and the video format is named after the canvas
    height and the interlace flag: the fallback branch of
    [determine_video_format] is never taken from [main].  The checks fail
    only when [determine_canvas_size] returns the empty string. *)
Theorem canvas_is_supported resolution video_width video_height is_interlaced :
  match canvas_and_format resolution video_width video_height is_interlaced with
  | Some (canvas_size, w, h, format) =>
      In (canvas_size, w, h)
         [("1920x1080", 1920, 1080); ("1440x1080", 1440, 1080);
          ("1280x720", 1280, 720); ("720x480", 720, 480)]%string
      /\ format = ((if (h =? 1080)%Z then "1080" else if (h =? 720)%Z then "720" else "480")
                   ++ (if is_interlaced && negb (h =? 720)%Z then "i" else "p"))%string
  | None => determine_canvas_size resolution video_width video_height = EmptyString
  end.
Proof.
  unfold canvas_and_format, determine_canvas_size.
  destruct resolution as [res|].
  - destruct (String.eqb_spec res "1920x1080") as [->|_];
      [destruct is_interlaced; (split; [simpl; auto 6 | reflexivity])|].
    destruct (String.eqb_spec res "1440x1080") as [->|_];
      [destruct is_interlaced; (split; [simpl; auto 6 | reflexivity])|].
    destruct (String.eqb_spec res "1280x720") as [->|_];
      [destruct is_interlaced; (split; [simpl; auto 6 | reflexivity])|].
    destruct (String.eqb_spec res "720x480") as [->|_];
      [destruct is_interlaced; (split; [simpl; auto 6 | reflexivity])|].
    reflexivity.
  - destruct ((video_width =? 1920) && (video_height =? 1080));
      [destruct is_interlaced; (split; [simpl; auto 6 | reflexivity])|].
    destruct ((video_width =? 1440) && (video_height =? 1080));
      [destruct is_interlaced; (split; [simpl; auto 6 | reflexivity])|].
    destruct ((video_width =? 1280) && (video_height =? 720));
      [destruct is_interlaced; (split; [simpl; auto 6 | reflexivity])|].
    destruct ((video_width =? 720) && (video_height =? 480));
      [destruct is_interlaced; (split; [simpl; auto 6 | reflexivity])|].
    reflexivity.
Qed.

Lemma string_of_uint_digits d :
  Forall (fun c => is_digit c = true) (chars (NilEmpty.string_of_uint d)).
Proof.
  induction d; simpl; constructor; auto.
Qed.

Lemma digit_prefix_digits s :
  Forall (fun c => is_digit c = true) (chars s) -> digit_prefix s = s.
Proof.
  induction s as [|c s IH]; simpl; [reflexivity|].
  intros H. inversion H; subst. rewrite H2, IH by assumption. reflexivity.
Qed.

Lemma digit_not_space_or_sign c :
  is_digit c = true ->
  is_space c = false /\ c <> "-"%char /\ c <> "+"%char /\ c <> "x"%char.
Proof.
  intros H. repeat split; try (intros ->; discriminate).
  unfold is_digit, is_space in *.
  apply andb_true_iff in H. destruct H as (H1 & H2).
  apply Nat.leb_le in H1. apply Nat.leb_le in H2.
  apply orb_false_iff. split.
  - apply Nat.eqb_neq. lia.
  - apply andb_false_iff. right. apply Nat.leb_gt. lia.
Qed.

(** [stoi] on a run of digits that starts the string. *)
Lemma stoi_digits c s :
  Forall (fun c => is_digit c = true) (chars (String c s)) ->
  stoi (String c s)
  = match read_decimal (String c s) with
    | Some v => if Int.in_range v then Some v else None
    | None => None
    end.
Proof.
  intros H. pose proof (digit_prefix_digits _ H) as Hp.
  inversion H as [|c' l Hc Hl]; subst.
  destruct (digit_not_space_or_sign c Hc) as (Hsp & Hm & Hpl & _).
  unfold stoi. cbn [skip_spaces]. rewrite Hsp.
  assert (Hsign : match String c s with
                  | String "-" rest => (true, rest)
                  | String "+" rest => (false, rest)
                  | _ => (false, String c s)
                  end = (false, String c s)).
  { destruct c as [[] [] [] [] [] [] [] []]; try reflexivity; contradiction. }
  rewrite Hsign, Hp. reflexivity.
Qed.

Lemma to_string_pos p :
  to_string (Z.pos p) = NilEmpty.string_of_uint (Pos.to_uint p)
  /\ exists c s, NilEmpty.string_of_uint (Pos.to_uint p) = String c s.
Proof.
  unfold to_string. cbn [Z.to_int NilZero.string_of_int]. unfold NilZero.string_of_uint.
  pose proof (DecimalPos.Unsigned.to_uint_nonnil p) as Hnn.
  destruct (Pos.to_uint p) eqn:E; try contradiction; split; try reflexivity;
    simpl; eauto.
Qed.

Lemma read_decimal_to_uint p :
  read_decimal (NilEmpty.string_of_uint (Pos.to_uint p)) = Some (Z.pos p).
Proof.
  unfold read_decimal. rewrite NilEmpty.usu. cbn [option_map]. f_equal.
  unfold Z.of_uint. rewrite DecimalPos.Unsigned.of_to. reflexivity.
Qed.

Lemma stoi_to_string n : Int.in_range n = true -> stoi (to_string n) = Some n.
Proof.
  intros Hr. destruct n as [|p|p].
  - reflexivity.
  - destruct (to_string_pos p) as (-> & c & s & E).
    pose proof (string_of_uint_digits (Pos.to_uint p)) as Hd.
    pose proof (read_decimal_to_uint p) as Hrd.
    rewrite E in *. rewrite (stoi_digits c s Hd), Hrd, Hr. reflexivity.
  - destruct (to_string_pos p) as (_ & c & s & E).
    pose proof (string_of_uint_digits (Pos.to_uint p)) as Hd.
    pose proof (read_decimal_to_uint p) as Hrd.
    unfold to_string. cbn [Z.to_int NilZero.string_of_int]. unfold NilZero.string_of_uint.
    pose proof (DecimalPos.Unsigned.to_uint_nonnil p) as Hnn.
    assert (Hs : match Pos.to_uint p with
                 | Decimal.Nil => "0"%string
                 | _ => NilEmpty.string_of_uint (Pos.to_uint p)
                 end = NilEmpty.string_of_uint (Pos.to_uint p))
      by (destruct (Pos.to_uint p); try contradiction; reflexivity).
    rewrite Hs. unfold stoi. cbn [skip_spaces]. change (is_space "-") with false.
    cbv iota. rewrite (digit_prefix_digits _ Hd). rewrite E in *.
    rewrite Hrd. change (- Z.pos p) with (Z.neg p). rewrite Hr. reflexivity.
Qed.

Lemma to_string_no_x n : ~ In "x"%char (chars (to_string n)).
Proof.
  assert (Hu : forall d, ~ In "x"%char (chars (NilEmpty.string_of_uint d))).
  { intros d Hin. pose proof (string_of_uint_digits d) as Hd.
    rewrite Forall_forall in Hd. specialize (Hd _ Hin). discriminate. }
  assert (Hz : forall d, ~ In "x"%char (chars (NilZero.string_of_uint d))).
  { intros d. unfold NilZero.string_of_uint.
    destruct d; try apply Hu. simpl. intros [H|[]]. discriminate. }
  unfold to_string. destruct (Z.to_int n) as [d|d]; cbn [NilZero.string_of_int].
  - apply Hz.
  - intros [H|H]; [discriminate | exact (Hz d H)].
Qed.

Lemma find_char_app c a b :
  ~ In c (chars a) -> find_char c (a ++ String c b) = Some (String.length a).
Proof.
  induction a as [|d a IH]; simpl; intros H.
  - rewrite Ascii.eqb_refl. reflexivity.
  - destruct (Ascii.eqb_spec d c) as [->|_]; [exfalso; apply H; left; reflexivity|].
    rewrite IH by (intros Hin; apply H; right; exact Hin). reflexivity.
Qed.

Lemma substring_prefix a b : substring 0 (String.length a) (a ++ b) = a.
Proof.
  induction a as [|c a IH]; simpl.
  - destruct b; reflexivity.
  - rewrite IH. reflexivity.
Qed.

Lemma substring_all s : substring 0 (String.length s) s = s.
Proof.
  induction s as [|c s IH]; simpl; [reflexivity | rewrite IH; reflexivity].
Qed.

Lemma substr_from_suffix a c b :
  substr_from (String.length a + 1) (a ++ String c b) = b.
Proof.
  unfold substr_from. induction a as [|d a IH].
  - simpl. rewrite Nat.sub_0_r. apply substring_all.
  - simpl in *. exact IH.
Qed.

(** X17. [parse_canvas_size] reads back any size written as two decimal
    [int]s with an ['x'] between them. *)
Theorem parse_canvas_size_round_trip (w h : Z) :
  Int.in_range w = true -> Int.in_range h = true ->
  parse_canvas_size (to_string w ++ "x" ++ to_string h) = Some (w, h).
Proof.
  intros Hw Hh. unfold parse_canvas_size.
  change ("x" ++ to_string h)%string with (String "x" (to_string h)).
  rewrite (find_char_app "x" _ _ (to_string_no_x w)).
  rewrite substring_prefix, substr_from_suffix.
  rewrite (stoi_to_string w Hw), (stoi_to_string h Hh). reflexivity.
Qed.

Lemma parse_canvas_size_round_trip_witness :
  parse_canvas_size "1280x-720" = Some (1280, -720).
Proof.
  apply (parse_canvas_size_round_trip 1280 (-720)); reflexivity.
Defined.

(** ** The document *)

Example fixed3_samples :
  fixed3 29.97 = "29.970"%string /\ fixed3 23.976 = "23.976"%string
  /\ fixed3 59.94 = "59.940"%string /\ fixed3 25 = "25.000"%string
  /\ fixed3 0.0625 = "0.062"%string /\ fixed3 0.1875 = "0.188"%string.
Proof. repeat split; vm_compute; reflexivity. Qed.

Lemma count_char_app c a b :
  count_char c (a ++ b) = (count_char c a + count_char c b)%nat.
Proof.
  unfold count_char. rewrite chars_app, filter_app, length_app. reflexivity.
Qed.

Lemma count_char_absent c s :
  (forall d, In d (chars s) -> d <> c) -> count_char c s = 0%nat.
Proof.
  unfold count_char. induction (chars s) as [|d l IH]; intros H; [reflexivity|].
  simpl. destruct (Ascii.eqb_spec c d) as [-> | _].
  - exfalso. apply (H d); [left|]; reflexivity.
  - apply IH. intros d' Hd'. apply H. right. exact Hd'.
Qed.

Lemma is_markup_cases c :
  is_markup c = true -> c = "<"%char \/ c = ">"%char \/ c = "034"%char.
Proof.
  unfold is_markup. rewrite !orb_true_iff.
  intros [[H|H]|H]; apply Ascii.eqb_eq in H; auto.
Qed.

Lemma count_char_xml_escape c s : is_markup c = true -> count_char c (xml_escape s) = 0%nat.
Proof.
  intros Hc. apply count_char_absent. intros d Hd.
  destruct (xml_escape_chars s d Hd) as (H1 & H2 & H3 & _).
  destruct (is_markup_cases c Hc) as [-> | [-> | ->]]; assumption.
Qed.

(** The characters of a number: digits and the minus sign. *)
Lemma to_string_chars n d :
  In d (chars (to_string n)) -> is_digit d = true \/ d = "-"%char.
Proof.
  assert (Hu : forall u, In d (chars (NilZero.string_of_uint u)) -> is_digit d = true).
  { intros u. unfold NilZero.string_of_uint.
    pose proof (string_of_uint_digits u) as Hd. rewrite Forall_forall in Hd.
    destruct u; try apply Hd. simpl. intros [<- | []]. reflexivity. }
  unfold to_string. destruct (Z.to_int n) as [u|u]; cbn [NilZero.string_of_int].
  - intros H. left. apply (Hu u). exact H.
  - intros [<- | H]; [right; reflexivity | left; apply (Hu u); exact H].
Qed.

Lemma setw_chars w n d :
  In d (chars (setw w n)) -> is_digit d = true \/ d = "-"%char.
Proof.
  unfold setw. cbv zeta. fold (to_string n).
  induction (w - String.length (to_string n))%nat as [|k IH]; simpl.
  - apply to_string_chars.
  - intros [<- | H]; [left; reflexivity | apply IH; exact H].
Qed.

Lemma numeric_not_markup c d :
  is_markup c = true -> is_digit d = true \/ d = "-"%char -> d <> c.
Proof.
  intros Hc Hd E. subst d.
  destruct (is_markup_cases c Hc) as [-> | [-> | ->]];
    destruct Hd as [Hd|Hd]; discriminate.
Qed.

Lemma count_char_to_string c n : is_markup c = true -> count_char c (to_string n) = 0%nat.
Proof.
  intros Hc. apply count_char_absent. intros d Hd.
  apply (numeric_not_markup c d Hc). apply (to_string_chars n d Hd).
Qed.

Lemma count_char_fixed3 c x : is_markup c = true -> count_char c (fixed3 x) = 0%nat.
Proof.
  intros Hc. unfold fixed3.
  destruct (Prim2SF x) as [s|s| |s m e].
  - destruct s; destruct (is_markup_cases c Hc) as [-> | [-> | ->]]; reflexivity.
  - destruct s; destruct (is_markup_cases c Hc) as [-> | [-> | ->]]; reflexivity.
  - destruct (is_markup_cases c Hc) as [-> | [-> | ->]]; reflexivity.
  - cbv zeta. rewrite !count_char_app, count_char_to_string by exact Hc.
    rewrite (count_char_absent c (setw 3 _)).
    + destruct s; destruct (is_markup_cases c Hc) as [-> | [-> | ->]]; reflexivity.
    + intros d Hd. apply (numeric_not_markup c d Hc). apply (setw_chars _ _ d Hd).
Qed.

Lemma count_char_event_xml c e :
  is_markup c = true ->
  count_char c (event_xml e) = if Ascii.eqb c "034" then 14%nat else 4%nat.
Proof.
  intros Hc. unfold event_xml.
  rewrite !count_char_app, !count_char_xml_escape, !count_char_to_string by exact Hc.
  destruct (is_markup_cases c Hc) as [-> | [-> | ->]]; reflexivity.
Qed.

Lemma count_char_events c events :
  is_markup c = true ->
  count_char c (fold_right (fun e rest => event_xml e ++ rest)%string EmptyString events)
  = ((if Ascii.eqb c "034" then 14 else 4) * List.length events)%nat.
Proof.
  intros Hc. induction events as [|e events IH].
  - cbn [fold_right List.length]. rewrite Nat.mul_0_r. reflexivity.
  - cbn [fold_right List.length].
    rewrite count_char_app, IH, (count_char_event_xml c e Hc). lia.
Qed.

(** X18. All markup of the document comes from the generator: whatever the
    timecodes and file names of the events hold, the document has ten [<]
    and ten [>] plus four of each per event, and twenty double quotes plus
    fourteen per event, provided the video format, which is written
    unescaped, holds none of the three. *)
Theorem document_markup_is_the_generators info events c :
  is_markup c = true ->
  (forall d, In d (chars (info_video_format info)) -> is_markup d = false) ->
  count_char c (bdn_document info events)
  = if Ascii.eqb c "034"
    then (20 + 14 * List.length events)%nat
    else (10 + 4 * List.length events)%nat.
Proof.
  intros Hc Hvf.
  assert (Hv : count_char c (info_video_format info) = 0%nat).
  { apply count_char_absent. intros d Hd E. subst d.
    rewrite (Hvf c Hd) in Hc. discriminate. }
  unfold bdn_document, document_head, document_foot.
  rewrite !count_char_app, (count_char_events c events Hc), Hv, (count_char_fixed3 c _ Hc).
  destruct (is_markup_cases c Hc) as [-> | [-> | ->]]; cbn; lia.
Qed.

Lemma document_markup_is_the_generators_witness :
  count_char "<"
    (bdn_document (mkInfo 1920 1080 29.97 "1080i")
       [mkEvent "00:00:10:00" "00:00:12:00" "a<b>&c.png" 100 200 1 1])
  = 14%nat.
Proof.
  apply (document_markup_is_the_generators (mkInfo 1920 1080 29.97 "1080i")
           [mkEvent "00:00:10:00" "00:00:12:00" "a<b>&c.png" 100 200 1 1] "<").
  - reflexivity.
  - cbn. intros d H.
    repeat (destruct H as [<- | H]; [reflexivity|]). contradiction.
Defined.

(** ** Sizes of the saved bitmaps *)

(** X19. With the checks of [save_bitmap_as_png], every event of the final
    list has a positive width and a positive height, whatever the decoder
    delivered and whatever the file system answers. *)
Theorem events_have_positive_size cfg write_png frames evs :
  main_events cfg (save_bitmap_as_png write_png) frames = Ok evs ->
  Forall (fun e => 0 < ev_width e /\ 0 < ev_height e) evs.
Proof.
  apply (main_events_invariant cfg _ (fun _ => True)).
  - intros cur has_next next st st' _ Hst H.
    destruct (process_frame_cases _ _ _ _ _ _ _ H)
      as [-> | [(_ & _ & _ & tc & _ & ->)
               | (b & s & e & ti & to & _ & _ & _ & _ & _ & Hs & _ & _ & ->)]].
    + exact Hst.
    + cbn [events]. apply Forall_set_back_out_tc; [|exact Hst].
      intros e He. exact He.
    + cbn [events]. apply Forall_app. split; [exact Hst|].
      constructor; [|constructor]. cbn [ev_width ev_height].
      unfold save_bitmap_as_png in Hs.
      destruct (bmp_data b); [discriminate|]. cbn [orb] in Hs.
      destruct (Z.leb_spec (bmp_width b) 0); [discriminate|].
      destruct (Z.leb_spec (bmp_height b) 0); [discriminate|].
      lia.
  - apply Forall_forall. auto.
Qed.

Lemma events_have_positive_size_witness :
  Forall (fun e => 0 < ev_width e /\ 0 < ev_height e)
    [mkEvent "00:00:10:00" "00:00:12:00" "sub00000.png" 100 200 1 1].
Proof.
  apply (events_have_positive_size Sample.cfg (fun _ _ => true)
           [mkFrame (Some (mkBitmap [16; 32; 48; 255] 1 1 4)) 900000 10 10 12 100 200;
            mkFrame (Some (mkBitmap [] 0 (-1) 0)) 990000 11 11 13 100 200]).
  vm_compute. reflexivity.
Defined.

(** ** The options of the decoder *)

Lemma map_find_set_same key value m : map_find key (map_set key value m) = Some value.
Proof.
  induction m as [|[k v] m IH]; simpl.
  - rewrite String.eqb_refl. reflexivity.
  - destruct (String.compare key k) eqn:E; simpl.
    + rewrite String.eqb_refl. reflexivity.
    + rewrite String.eqb_refl. reflexivity.
    + destruct (String.eqb_spec key k) as [->|_]; [|exact IH].
      pose proof (String.compare_antisym k k) as Ha. rewrite E in Ha. discriminate.
Qed.

Lemma map_find_set_other key value m key' :
  key' <> key -> map_find key' (map_set key value m) = map_find key' m.
Proof.
  intros Hne. induction m as [|[k v] m IH]; simpl.
  - destruct (String.eqb_spec key' key); [contradiction | reflexivity].
  - destruct (String.compare key k) eqn:E; simpl.
    + apply String.compare_eq_iff in E. subst k.
      destruct (String.eqb_spec key' key); [contradiction | reflexivity].
    + destruct (String.eqb_spec key' key); [contradiction | reflexivity].
    + rewrite IH. reflexivity.
Qed.

Lemma map_find_set_default key value m key' :
  map_find key' (set_default key value m)
  = match map_find key' m with
    | Some v => Some v
    | None => if String.eqb key' key then Some value else None
    end.
Proof.
  unfold set_default. destruct (String.eqb_spec key' key) as [->|Hne].
  - destruct (map_find key m) eqn:E; [rewrite E; reflexivity|].
    rewrite map_find_set_same. reflexivity.
  - destruct (map_find key m) eqn:E.
    + destruct (map_find key' m); reflexivity.
    + rewrite (map_find_set_other _ _ _ _ Hne). destruct (map_find key' m); reflexivity.
Qed.

Lemma map_find_filter (keep : string -> bool) key m :
  map_find key (filter (fun '(k, _) => keep k) m)
  = if keep key then map_find key m else None.
Proof.
  induction m as [|[k v] m IH]; simpl.
  - destruct (keep key); reflexivity.
  - destruct (keep k) eqn:Ek; simpl.
    + destruct (String.eqb_spec key k) as [->|_]; [rewrite Ek; reflexivity | exact IH].
    + destruct (String.eqb_spec key k) as [->|_]; [rewrite Ek in *; exact IH | exact IH].
Qed.

Lemma map_find_defaults key m :
  map_find key (setup_libaribcaption_defaults m)
  = match map_find key m with
    | Some v => Some v
    | None => default_value key
    end.
Proof.
  unfold setup_libaribcaption_defaults, default_value.
  rewrite !map_find_set_default.
  destruct (map_find key m); [reflexivity|].
  destruct (String.eqb key "outline_width"); [reflexivity|].
  destruct (String.eqb key "replace_msz_ascii"); [reflexivity|].
  destruct (String.eqb key "replace_msz_japanese"); [reflexivity|].
  destruct (String.eqb key "replace_drcs"); reflexivity.
Qed.

(** X20. What reaches the ARIB decoder: [sub_type] is always [bitmap] and
    [canvas_size] is the one [main] determined, whatever the user's map
    holds for these keys; every other option of the user is passed on with
    the user's value, and the four defaults are added only for keys the
    user left out. *)
Theorem decoder_options_passed (user_opts : dict) (canvas_size : string) (w h : Z) :
  parse_canvas_size canvas_size = Some (w, h) ->
  exists rest,
    init_decoder_dict true (decoder_options user_opts canvas_size)
    = Some (("sub_type", "bitmap") :: ("canvas_size", canvas_size) :: rest)%string
    /\ map_find "sub_type" rest = None
    /\ map_find "canvas_size" rest = None
    /\ forall key,
         key <> "sub_type"%string -> key <> "canvas_size"%string ->
         map_find key rest
         = match map_find key user_opts with
           | Some v => Some v
           | None => default_value key
           end.
Proof.
  intros Hparse. unfold init_decoder_dict, decoder_options.
  rewrite map_find_defaults, map_find_set_same, Hparse.
  eexists. split; [reflexivity|].
  pose proof (map_find_filter
                (fun k => negb (String.eqb k "sub_type")
                          && negb (String.eqb k "canvas_size"))%string) as Hf.
  split; [rewrite Hf; reflexivity|]. split; [rewrite Hf; reflexivity|].
  intros key H1 H2. rewrite Hf.
  destruct (String.eqb_spec key "sub_type"); [contradiction|].
  destruct (String.eqb_spec key "canvas_size"); [contradiction|].
  cbn [negb andb].
  rewrite map_find_defaults, (map_find_set_other _ _ _ _ H2). reflexivity.
Qed.

Lemma decoder_options_passed_witness :
  exists rest,
    init_decoder_dict true
      (decoder_options [("outline_width", "1.5"); ("sub_type", "text")]%string "1920x1080")
    = Some (("sub_type", "bitmap") :: ("canvas_size", "1920x1080") :: rest)%string
    /\ map_find "sub_type" rest = None
    /\ map_find "canvas_size" rest = None
    /\ forall key,
         key <> "sub_type"%string -> key <> "canvas_size"%string ->
         map_find key rest
         = match map_find key [("outline_width", "1.5"); ("sub_type", "text")]%string with
           | Some v => Some v
           | None => default_value key
           end.
Proof.
  apply (decoder_options_passed [("outline_width", "1.5"); ("sub_type", "text")]%string
           "1920x1080" 1920 1080).
  reflexivity.
Defined.

(** ** The option string *)

Lemma is_excluded_opt_cases key :
  is_excluded_opt key = true <->
  key = "sub_type"%string \/ key = "ass_single_rect"%string \/ key = "canvas_size"%string.
Proof.
  unfold is_excluded_opt, EXCLUDED_OPTS. cbn [existsb].
  rewrite !orb_true_iff, !String.eqb_eq. intuition discriminate.
Qed.

Lemma parse_loop_excluded key n : forall s m,
  is_excluded_opt key = true ->
  map_find key (parse_loop n s m) = map_find key m.
Proof.
  induction n as [|n IH]; intros s m Hk; [reflexivity|].
  cbn [parse_loop]. cbv zeta.
  destruct (ltrim s) as [|c r]; [reflexivity|].
  destruct (find_char "=" (String c r)) as [eq_pos|]; [|reflexivity].
  destruct (scan_value None false "000" _) as [value rest].
  rewrite IH by exact Hk.
  destruct (is_excluded_opt (rtrim (ltrim (substring 0 eq_pos (String c r))))) eqn:E;
    [reflexivity|].
  apply map_find_set_other. intros ->. congruence.
Qed.

(** X21. No option string makes the parser store [sub_type],
    [ass_single_rect] or [canvas_size]: whatever the text, the entry of such
    a key is after the call what it was before. *)
Theorem excluded_options_never_stored (opts_str : string) (result : dict) (key : string) :
  In key EXCLUDED_OPTS ->
  map_find key (parse_libaribcaption_opts opts_str result) = map_find key result.
Proof.
  intros Hin. apply parse_loop_excluded.
  apply is_excluded_opt_cases. simpl in Hin. intuition.
Qed.

Lemma excluded_options_never_stored_witness :
  map_find "sub_type"
    (parse_libaribcaption_opts "sub_type=text, outline_width = 1.5 ,font='A,B'" [])
  = None.
Proof.
  apply (excluded_options_never_stored
           "sub_type=text, outline_width = 1.5 ,font='A,B'" [] "sub_type").
  simpl. auto.
Defined.

Example parse_libaribcaption_opts_sample :
  parse_libaribcaption_opts "sub_type=text, outline_width = 1.5 ,font='A,B',x=1,2" []
  = [("font", "A,B"); ("outline_width", "1.5"); ("x", "1,2")]%string.
Proof. vm_compute. reflexivity. Qed.

Lemma is_plain_inv c :
  is_plain c = true -> is_blank c = false /\ c <> ","%char /\ is_quote c = false.
Proof.
  unfold is_plain. rewrite !andb_true_iff, !negb_true_iff.
  intros ((H1 & H2) & H3). repeat split; try assumption.
  intros ->. discriminate.
Qed.

Lemma plain_key_inv k :
  plain_key k = true ->
  exists c k', k = String c k' /\ is_blank c = false
               /\ Forall (fun c => is_plain c = true) (chars k)
               /\ ~ In "="%char (chars k) /\ ~ In ","%char (chars k).
Proof.
  unfold plain_key. rewrite andb_true_iff, negb_true_iff, forallb_forall.
  intros (Hne & Hall).
  assert (Hp : Forall (fun c => is_plain c = true) (chars k)).
  { apply Forall_forall. intros c Hc. specialize (Hall c Hc).
    apply andb_true_iff in Hall. tauto. }
  destruct k as [|c k']; [discriminate|].
  exists c, k'. split; [reflexivity|].
  split; [inversion Hp; subst; apply is_plain_inv; assumption|].
  split; [exact Hp|]. split.
  - intros Hin. specialize (Hall _ Hin). discriminate.
  - intros Hin. specialize (Hall _ Hin). discriminate.
Qed.

Lemma rtrim_plain s : Forall (fun c => is_plain c = true) (chars s) -> rtrim s = s.
Proof.
  induction s as [|c s IH]; [reflexivity|].
  intros H. inversion H as [|c' l Hc Hl]; subst. cbn [rtrim]. rewrite (IH Hl).
  destruct s; [|reflexivity].
  destruct (is_plain_inv c Hc) as (-> & _). reflexivity.
Qed.

Lemma ltrim_plain s : Forall (fun c => is_plain c = true) (chars s) -> ltrim s = s.
Proof.
  destruct s as [|c s]; [reflexivity|].
  intros H. inversion H as [|c' l Hc Hl]; subst. cbn [ltrim].
  destruct (is_plain_inv c Hc) as (-> & _). reflexivity.
Qed.

Lemma strip_quotes_plain s :
  Forall (fun c => is_plain c = true) (chars s) -> strip_quotes s = s.
Proof.
  destruct s as [|c s]; [reflexivity|].
  intros H. inversion H as [|c' l Hc Hl]; subst.
  destruct (is_plain_inv c Hc) as (_ & _ & Hq).
  unfold is_quote in Hq. apply orb_false_iff in Hq. destruct Hq as (Hq1 & Hq2).
  unfold strip_quotes.
  destruct (get (String.length (String c s) - 1) (String c s)); [|reflexivity].
  rewrite Hq1, Hq2. cbn [andb orb]. rewrite andb_false_r. reflexivity.
Qed.

Lemma plain_value_inv v :
  plain_value v = true -> Forall (fun c => is_plain c = true) (chars v).
Proof.
  unfold plain_value. rewrite forallb_forall. apply Forall_forall.
Qed.

(** The scan of a plain value runs to the end of the text, or to the first
    comma when a key follows it. *)
Lemma scan_value_plain v : forall prev quote_char,
  Forall (fun c => is_plain c = true) (chars v) ->
  scan_value prev false quote_char v = (v, EmptyString)
  /\ forall rest, next_is_key rest = true ->
       scan_value prev false quote_char (v ++ String "," rest) = (v, rest).
Proof.
  induction v as [|c v IH]; intros prev quote_char H.
  - split; [reflexivity|]. intros rest Hk. cbn. rewrite Hk. reflexivity.
  - inversion H as [|c' l Hc Hl]; subst.
    destruct (is_plain_inv c Hc) as (_ & Hcomma & Hq).
    destruct (IH (Some c) quote_char Hl) as (IH1 & IH2).
    assert (Hce : Ascii.eqb c "," = false) by (apply Ascii.eqb_neq; exact Hcomma).
    split.
    + cbn [scan_value]. rewrite Hq, Hce. cbn [andb]. rewrite IH1. reflexivity.
    + intros rest Hk. cbn [append scan_value]. rewrite Hq, Hce. cbn [andb].
      rewrite (IH2 rest Hk). reflexivity.
Qed.

Lemma find_char_absent c s : ~ In c (chars s) -> find_char c s = None.
Proof.
  induction s as [|d s IH]; [reflexivity|].
  intros H. cbn [find_char].
  destruct (Ascii.eqb_spec d c) as [->|_]; [exfalso; apply H; left; reflexivity|].
  rewrite IH; [reflexivity|]. intros Hin. apply H. right. exact Hin.
Qed.

Lemma next_is_key_plain k rest :
  plain_key k = true -> next_is_key (k ++ String "=" rest) = true.
Proof.
  intros Hk. destruct (plain_key_inv k Hk) as (c & k' & E & Hb & Hp & Heq & Hcomma).
  unfold next_is_key.
  assert (Hl : ltrim (k ++ String "=" rest) = (k ++ String "=" rest)%string).
  { rewrite E. cbn [append ltrim]. rewrite Hb. reflexivity. }
  rewrite Hl, (find_char_app "=" k rest Heq), substring_prefix.
  unfold trim. rewrite (ltrim_plain k Hp), (rtrim_plain k Hp).
  rewrite (find_char_absent "," k Hcomma).
  rewrite E. reflexivity.
Qed.

Lemma parse_loop_step n k v tail rest m :
  plain_key k = true -> plain_value v = true ->
  scan_value None false "000" (v ++ tail) = (v, rest) ->
  parse_loop (S n) (k ++ String "=" (v ++ tail)) m
  = parse_loop n rest (if is_excluded_opt k then m else map_set k v m).
Proof.
  intros Hk Hv Hscan.
  destruct (plain_key_inv k Hk) as (c & k' & E & Hb & Hp & Heq & Hcomma).
  pose proof (plain_value_inv v Hv) as Hpv.
  cbn [parse_loop]. cbv zeta.
  assert (Hl : ltrim (k ++ String "=" (v ++ tail)) = String c (k' ++ String "=" (v ++ tail))).
  { rewrite E. cbn [append ltrim]. rewrite Hb. reflexivity. }
  rewrite Hl.
  change (String c (k' ++ String "=" (v ++ tail)))
    with (String c k' ++ String "=" (v ++ tail))%string.
  rewrite <- E.
  rewrite (find_char_app "=" k _ Heq), substring_prefix, substr_from_suffix.
  rewrite (ltrim_plain k Hp), (rtrim_plain k Hp), Hscan.
  rewrite (ltrim_plain v Hpv), (rtrim_plain v Hpv), (strip_quotes_plain v Hpv).
  rewrite E. reflexivity.
Qed.

Lemma append_empty_r s : (s ++ EmptyString)%string = s.
Proof.
  induction s as [|c s IH]; [reflexivity | simpl; rewrite IH; reflexivity].
Qed.

Lemma parse_loop_join l : forall n m,
  Forall (fun '(k, v) => plain_key k = true /\ plain_value v = true) l ->
  (List.length l <= n)%nat ->
  parse_loop n (join_opts l) m = store_opts l m.
Proof.
  induction l as [|[k v] l IH]; intros n m Hl Hn.
  - destruct n; reflexivity.
  - inversion Hl as [|x l0 Hkv Hl']; subst. cbn beta iota in Hkv.
    destruct Hkv as (Hk & Hv).
    destruct n as [|n]; [simpl in Hn; lia|].
    cbn [List.length] in Hn.
    unfold store_opts. cbn [fold_left]. fold (store_opts l).
    destruct l as [|[k2 v2] l2].
    + cbn [join_opts].
      change (k ++ "=" ++ v)%string with (k ++ String "=" v)%string.
      rewrite <- (append_empty_r v) at 1.
      rewrite (parse_loop_step n k v EmptyString EmptyString m Hk Hv).
      * destruct n; reflexivity.
      * rewrite append_empty_r.
        apply (scan_value_plain v None "000" (plain_value_inv v Hv)).
    + assert (Hj : join_opts ((k, v) :: (k2, v2) :: l2)
                   = (k ++ String "=" (v ++ String "," (join_opts ((k2, v2) :: l2))))%string)
        by reflexivity.
      rewrite Hj.
      rewrite (parse_loop_step n k v _ (join_opts ((k2, v2) :: l2)) m Hk Hv).
      * apply IH; [exact Hl' | lia].
      * apply (scan_value_plain v None "000" (plain_value_inv v Hv)).
        inversion Hl' as [|y l1 Hkv2 _]; subst. cbn beta iota in Hkv2.
        destruct Hkv2 as (Hk2 & _).
        destruct l2 as [|[k3 v3] l3]; cbn [join_opts].
        -- change (k2 ++ "=" ++ v2)%string with (k2 ++ String "=" v2)%string.
           apply next_is_key_plain. exact Hk2.
        -- change (k2 ++ "=" ++ v2 ++ "," ++ join_opts ((k3, v3) :: l3))%string
             with (k2 ++ String "=" (v2 ++ "," ++ join_opts ((k3, v3) :: l3)))%string.
           apply next_is_key_plain. exact Hk2.
Qed.

Lemma join_opts_length l :
  Forall (fun '(k, v) => plain_key k = true /\ plain_value v = true) l ->
  (List.length l <= String.length (join_opts l))%nat.
Proof.
  induction l as [|[k v] l IH]; intros Hl; [simpl; lia|].
  inversion Hl as [|x l0 Hkv Hl']; subst. cbn beta iota in Hkv.
    destruct Hkv as (Hk & Hv).
  destruct (plain_key_inv k Hk) as (c & k' & E & _).
  specialize (IH Hl').
  destruct l as [|[k2 v2] l2].
  - cbn [join_opts List.length]. rewrite E. simpl. lia.
  - assert (Hj : join_opts ((k, v) :: (k2, v2) :: l2)
                 = (k ++ "=" ++ v ++ "," ++ join_opts ((k2, v2) :: l2))%string)
      by reflexivity.
    rewrite Hj, !string_length_app. cbn [List.length] in *. rewrite E.
    cbn [String.length]. lia.
Qed.

(** X22. A list of plain [key=value] pairs written with commas between is
    read back pair by pair: each pair is stored under its key, in order (a
    later pair replaces an earlier one of the same key), except the pairs of
    the three excluded keys, which are dropped. *)
Theorem parse_libaribcaption_opts_round_trip (l : list (string * string)) (result : dict) :
  Forall (fun '(k, v) => plain_key k = true /\ plain_value v = true) l ->
  parse_libaribcaption_opts (join_opts l) result = store_opts l result.
Proof.
  intros Hl. unfold parse_libaribcaption_opts.
  apply parse_loop_join; [exact Hl|].
  pose proof (join_opts_length l Hl). lia.
Qed.

Lemma parse_libaribcaption_opts_round_trip_witness :
  parse_libaribcaption_opts "outline_width=1.5,sub_type=text,font=Hiragino" []
  = [("font", "Hiragino"); ("outline_width", "1.5")]%string.
Proof.
  apply (parse_libaribcaption_opts_round_trip
           [("outline_width", "1.5"); ("sub_type", "text"); ("font", "Hiragino")]%string []).
  repeat constructor.
Defined.

(** *** The fuel of [parse_loop] is never used up *)

Lemma ltrim_length s : (String.length (ltrim s) <= String.length s)%nat.
Proof.
  induction s as [|c s IH]; [reflexivity|].
  cbn [ltrim]. destruct (is_blank c); cbn [String.length]; lia.
Qed.

Lemma scan_value_length s : forall prev in_quotes quote_char,
  (String.length (snd (scan_value prev in_quotes quote_char s)) <= String.length s)%nat.
Proof.
  induction s as [|c s IH]; intros prev in_quotes quote_char; [reflexivity|].
  cbn [scan_value].
  destruct (is_quote c && _).
  - destruct (if negb in_quotes then _ else _) as [q' c'].
    specialize (IH (Some c) q' c').
    destruct (scan_value (Some c) q' c' s) as [value rest].
    cbn [snd String.length] in *. lia.
  - destruct (Ascii.eqb c "," && negb in_quotes && next_is_key s).
    + cbn [snd String.length]. lia.
    + specialize (IH (Some c) in_quotes quote_char).
      destruct (scan_value (Some c) in_quotes quote_char s) as [value rest].
      cbn [snd String.length] in *. lia.
Qed.

Lemma find_char_lt c s n : find_char c s = Some n -> (n < String.length s)%nat.
Proof.
  revert n. induction s as [|d s IH]; intros n; [discriminate|].
  cbn [find_char String.length]. destruct (Ascii.eqb d c).
  - intros H. inversion H. lia.
  - destruct (find_char c s) as [k|]; [|discriminate].
    intros H. inversion H. specialize (IH k eq_refl). lia.
Qed.

Lemma substring_length s : forall n m,
  (String.length (substring n m s) <= m)%nat.
Proof.
  induction s as [|c s IH]; intros n m.
  - destruct n, m; simpl; lia.
  - destruct n as [|n].
    + destruct m as [|m]; [simpl; lia|]. cbn [substring String.length].
      specialize (IH 0%nat m). lia.
    + cbn [substring]. apply IH.
Qed.

(** More fuel than the text is long changes nothing. *)
Lemma parse_loop_fuel n : forall s m,
  (String.length s < n)%nat ->
  parse_loop n s m = parse_loop (S (String.length s)) s m.
Proof.
  assert (Hgen : forall k s m n1 n2,
            (String.length s < k)%nat -> (k <= n1)%nat -> (k <= n2)%nat ->
            parse_loop n1 s m = parse_loop n2 s m).
  { induction k as [|k IH]; intros s m n1 n2 Hs H1 H2; [lia|].
    destruct n1 as [|n1]; [lia|]. destruct n2 as [|n2]; [lia|].
    cbn [parse_loop]. cbv zeta.
    pose proof (ltrim_length s) as Hl.
    destruct (ltrim s) as [|c r] eqn:El; [reflexivity|].
    destruct (find_char "=" (String c r)) as [eq_pos|] eqn:Ef; [|reflexivity].
    pose proof (find_char_lt _ _ _ Ef) as Hlt.
    pose proof (scan_value_length (substr_from (eq_pos + 1) (String c r))
                  None false "000"%char) as Hsc.
    pose proof (substring_length (String c r) (eq_pos + 1)
                  (String.length (String c r) - (eq_pos + 1))) as Hsub.
    fold (substr_from (eq_pos + 1) (String c r)) in Hsub.
    destruct (scan_value None false "000" (substr_from (eq_pos + 1) (String c r)))
      as [value rest].
    cbn [snd] in Hsc.
    apply IH; lia. }
  intros s m Hs. apply (Hgen (S (String.length s))); lia.
Qed.

(** ** The command line *)

Lemma parse_arguments_invariant (all : list string) n : forall args opts o,
  (List.length args <= n)%nat ->
  incl args all ->
  (o_input_file opts = EmptyString
   \/ (In (o_input_file opts) all /\ not_dashed (o_input_file opts) = true)) ->
  (forall key, In key EXCLUDED_OPTS -> map_find key (o_libaribcaption_opts opts) = None) ->
  parse_arguments args opts = Parsed o ->
  o_input_file o <> EmptyString
  /\ In (o_input_file o) all /\ not_dashed (o_input_file o) = true
  /\ forall key, In key EXCLUDED_OPTS -> map_find key (o_libaribcaption_opts o) = None.
Proof.
  induction n as [|n IH]; intros args opts o Hlen Hincl Hin Hex H.
  - destruct args; [|simpl in Hlen; lia]. cbn [parse_arguments] in H.
    destruct (String.eqb_spec (o_input_file opts) EmptyString) as [E|E]; [discriminate|].
    inversion H; subst o. destruct Hin as [Hin|(Hin & Hd)]; [contradiction|]. auto.
  - destruct args as [|arg rest].
    + cbn [parse_arguments] in H.
      destruct (String.eqb_spec (o_input_file opts) EmptyString) as [E|E]; [discriminate|].
      inversion H; subst o. destruct Hin as [Hin|(Hin & Hd)]; [contradiction|]. auto.
    + assert (Harg : In arg all) by (apply Hincl; left; reflexivity).
      assert (Hrest : incl rest all) by (intros x Hx; apply Hincl; right; exact Hx).
      match goal with
      | |- ?G =>
          assert (Hplain : plain_argument arg opts (parse_arguments rest) = Parsed o -> G)
      end.
      { intros Hp. unfold plain_argument in Hp.
        destruct (String.eqb arg "--debug").
        - apply (IH rest _ o) in Hp; [exact Hp | simpl in Hlen; lia | exact Hrest
                                       | exact Hin | exact Hex].
        - destruct (not_dashed arg) eqn:Hd; [|discriminate].
          destruct (String.eqb (o_input_file opts) EmptyString); [|discriminate].
          apply (IH rest _ o) in Hp; [exact Hp | simpl in Hlen; lia | exact Hrest
                                       | right; cbn; auto | exact Hex]. }
      cbn [parse_arguments] in H.
      destruct (String.eqb arg "--help" || String.eqb arg "-h"); [discriminate|].
      destruct (String.eqb arg "--version" || String.eqb arg "-v"); [discriminate|].
      destruct rest as [|value rest']; [exact (Hplain H)|].
      assert (Hrest' : incl rest' all)
        by (intros x Hx; apply Hincl; right; right; exact Hx).
      destruct (String.eqb arg "--libaribcaption-opt").
      * apply (IH rest' _ o) in H; [exact H | simpl in Hlen; lia | exact Hrest'
                                     | exact Hin |].
        cbn [o_libaribcaption_opts]. intros key Hk.
        unfold parse_libaribcaption_opts.
        rewrite parse_loop_excluded; [apply Hex; exact Hk|].
        apply is_excluded_opt_cases. simpl in Hk. intuition.
      * destruct (String.eqb arg "--output").
        -- apply (IH rest' _ o) in H; [exact H | simpl in Hlen; lia | exact Hrest'
                                        | exact Hin | exact Hex].
        -- destruct (String.eqb arg "--resolution" || String.eqb arg "-r").
           ++ apply (IH rest' _ o) in H; [exact H | simpl in Hlen; lia | exact Hrest'
                                           | exact Hin | exact Hex].
           ++ exact (Hplain H).
Qed.

(** X23. When [parse_options] returns, the options name an input file: an
    argument that is not empty and does not start with a dash; and the
    libaribcaption options hold no entry for [sub_type], [ass_single_rect]
    or [canvas_size], however often [--libaribcaption-opt] was given. *)
Theorem parse_options_result (args : list string) (o : Options) :
  parse_options args = Parsed o ->
  o_input_file o <> EmptyString
  /\ In (o_input_file o) args
  /\ not_dashed (o_input_file o) = true
  /\ forall key, In key EXCLUDED_OPTS -> map_find key (o_libaribcaption_opts o) = None.
Proof.
  unfold parse_options. destruct args as [|a args]; [discriminate|].
  intros H.
  apply (parse_arguments_invariant (a :: args) (List.length (a :: args))
           (a :: args) default_options o);
    [lia | apply incl_refl | left; reflexivity | reflexivity | exact H].
Qed.

Lemma parse_options_result_witness :
  "in.ts"%string <> EmptyString
  /\ In "in.ts"%string
        ["--libaribcaption-opt"; "sub_type=text,font=A"; "in.ts"; "--debug"]%string
  /\ not_dashed "in.ts" = true
  /\ forall key, In key EXCLUDED_OPTS -> map_find key [("font", "A")]%string = None.
Proof.
  apply (parse_options_result
           ["--libaribcaption-opt"; "sub_type=text,font=A"; "in.ts"; "--debug"]%string
           (mkOptions "in.ts" None None [("font", "A")]%string None None true false false)).
  vm_compute. reflexivity.
Defined.

(** ** From the decoded subtitles to the events *)

Lemma subtitle_frame_of_bitmap tb p f bmp :
  subtitle_frame_of tb p = Ok (Some f) ->
  bitmap f = Some bmp ->
  composite_rects (sub_rects (subtitle p)) = Ok (bmp, frame_x f, frame_y f).
Proof.
  unfold subtitle_frame_of.
  destruct (display_times tb p) as [start stop].
  destruct (sub_rects (subtitle p)) as [|r rs] eqn:Er.
  - intros H Hb. inversion H; subst f. discriminate.
  - destruct (existsb rect_is_bitmap (r :: rs)); [|discriminate].
    intros H Hb. apply bind_ok in H. destruct H as ([[b x] y] & Hc & H).
    inversion H; subst f. cbn [bitmap frame_x frame_y] in *.
    inversion Hb; subst b. exact Hc.
Qed.

Lemma decode_frames_from_stream tb stream : forall frames,
  decode_frames tb stream = Ok frames ->
  Forall (fun f => exists p, In p stream /\ subtitle_frame_of tb p = Ok (Some f)) frames.
Proof.
  induction stream as [|p rest IH]; intros frames H.
  - inversion H. constructor.
  - cbn [decode_frames] in H.
    apply bind_ok in H. destruct H as (f & Hf & H).
    apply bind_ok in H. destruct H as (fs & Hfs & H). inversion H; subst frames.
    assert (Hrest : Forall (fun f => exists q, In q (p :: rest)
                                               /\ subtitle_frame_of tb q = Ok (Some f)) fs).
    { eapply Forall_impl; [|apply (IH fs Hfs)].
      intros a (q & Hq & Ha). exists q. split; [right; exact Hq | exact Ha]. }
    destruct f as [fr|]; [|exact Hrest].
    constructor; [|exact Hrest]. exists p. split; [left; reflexivity | exact Hf].
Qed.

(** X24. From the stream to the list: the position and the size of every
    event are the bounding box of the bitmap rects of one decoded subtitle
    of the stream. *)
Theorem events_are_bounding_boxes cfg save tb stream evs :
  run cfg save tb stream = Ok evs ->
  Forall (fun e => exists p,
            In p stream
            /\ bounding_box (sub_rects (subtitle p))
               = (ev_x e, ev_y e, ev_x e + ev_width e, ev_y e + ev_height e)) evs.
Proof.
  unfold run. intros H. apply bind_ok in H. destruct H as (frames & Hd & H).
  revert H.
  apply (main_events_invariant cfg save
           (fun f => exists p, In p stream /\ subtitle_frame_of tb p = Ok (Some f)));
    [|apply (decode_frames_from_stream tb stream frames Hd)].
  intros cur has_next next st st' (p & Hp & Hf) Hst H.
  destruct (process_frame_cases _ _ _ _ _ _ _ H)
    as [-> | [(_ & _ & _ & tc & _ & ->)
             | (b & s & e & ti & to & Hb & _ & _ & _ & _ & _ & _ & _ & ->)]].
  - exact Hst.
  - cbn [events]. apply Forall_set_back_out_tc; [|exact Hst].
    intros e He. exact He.
  - cbn [events]. apply Forall_app. split; [exact Hst|].
    constructor; [|constructor]. cbn [ev_x ev_y ev_width ev_height].
    exists p. split; [exact Hp|].
    pose proof (subtitle_frame_of_bitmap tb p cur b Hf Hb) as Hc.
    apply composite_rects_inv in Hc.
    destruct Hc as (max_x & max_y & data & Hbox & -> & _).
    cbn [bmp_width bmp_height]. rewrite Hbox. f_equal; [f_equal|]; lia.
Qed.

Lemma events_are_bounding_boxes_witness :
  Forall (fun e => exists p,
            In p [Sample.show 900000 0 2000; Sample.clear 1350000]
            /\ bounding_box (sub_rects (subtitle p))
               = (ev_x e, ev_y e, ev_x e + ev_width e, ev_y e + ev_height e))
    [mkEvent "00:00:10:00" "00:00:12:00" "sub00000.png" 100 200 1 1].
Proof.
  apply (events_are_bounding_boxes Sample.cfg Sample.saved Sample.time_base
           [Sample.show 900000 0 2000; Sample.clear 1350000]).
  vm_compute. reflexivity.
Defined.

(** ** Display times and timestamps at the edges *)

(** X25. When the decoder gives [0xFFFFFFFF] for the start or the end
    display time, the frame's start and end are both its timestamp, the
    loop's test of the display times fails, and the event runs from the
    timestamp less the stream start to what the lookahead gives: one second
    more when there is no next frame. *)
Theorem absent_display_times_fall_back tb p f cfg :
  subtitle_frame_of tb p = Ok (Some f) ->
  display_times_given (subtitle p) = false ->
  start_time f = timestamp f
  /\ end_time f = timestamp f
  /\ display_times_valid f = false
  /\ resolve_times cfg f false blank_frame
     = ((timestamp f - video_start_time cfg)%float,
        (timestamp f - video_start_time cfg + 1)%float).
Proof.
  intros Hf Hg. destruct (subtitle_frame_of_times _ _ _ Hf) as (Ht & Hs & He).
  unfold display_times in Hs, He. rewrite Hg in Hs, He. cbn [fst snd] in Hs, He.
  assert (Hv : display_times_valid f = false).
  { unfold display_times_valid. rewrite Hs, He, ltb_irrefl. apply andb_false_r. }
  repeat split; try congruence.
  unfold resolve_times, adjust_timestamp. rewrite Hv. reflexivity.
Qed.

Lemma absent_display_times_fall_back_witness :
  display_times_valid
    (mkFrame (Some (mkBitmap [16; 32; 48; 255] 1 1 4)) 900000 10 10 10 100 200) = false
  /\ resolve_times Sample.cfg_late
       (mkFrame (Some (mkBitmap [16; 32; 48; 255] 1 1 4)) 900000 10 10 10 100 200)
       false blank_frame
     = (8.5%float, 9.5%float).
Proof.
  destruct (absent_display_times_fall_back Sample.time_base
              (Sample.show 900000 0 4294967295)
              (mkFrame (Some (mkBitmap [16; 32; 48; 255] 1 1 4)) 900000 10 10 10 100 200)
              Sample.cfg_late) as (_ & _ & Hv & Hr).
  - vm_compute. reflexivity.
  - reflexivity.
  - split; [exact Hv | exact Hr].
Defined.

Lemma zero_times_not_positive q : (0 <? Z_to_double 0 * q)%float = false.
Proof.
  rewrite FloatAxioms.ltb_spec, FloatAxioms.mul_spec.
  replace (Prim2SF (Z_to_double 0)) with (S754_zero false) by (vm_compute; reflexivity).
  replace (Prim2SF 0) with (S754_zero false) by reflexivity.
  destruct (Prim2SF q) as [s|s| |s m e]; try reflexivity; destruct s; reflexivity.
Qed.

(** X26. A clear command at PTS 0, or without any PTS, is ignored: its
    timestamp is not positive, so the loop leaves the events as they are. *)
Theorem clear_at_zero_ignored cfg save tb p f has_next next st :
  subtitle_frame_of tb p = Ok (Some f) ->
  sub_rects (subtitle p) = [] ->
  frame_pts p = 0 \/ frame_pts p = AV_NOPTS_VALUE ->
  process_frame cfg save f has_next next st = Ok st.
Proof.
  intros Hf Hr Hp.
  destruct (subtitle_frame_of_times _ _ _ Hf) as (Ht & _).
  assert (Hb : bitmap f = None).
  { unfold subtitle_frame_of in Hf. destruct (display_times tb p) as [a b].
    rewrite Hr in Hf. inversion Hf. reflexivity. }
  assert (Hz : (0 <? timestamp f)%float = false).
  { rewrite Ht. unfold base_timestamp, pts_to_seconds.
    destruct Hp as [-> | ->].
    - cbn [Z.eqb negb AV_NOPTS_VALUE]. change (0 =? AV_NOPTS_VALUE) with false.
      cbn [negb]. apply zero_times_not_positive.
    - rewrite Z.eqb_refl. reflexivity. }
  unfold process_frame. rewrite Hb, Hz. reflexivity.
Qed.

Lemma clear_at_zero_ignored_witness :
  process_frame Sample.cfg Sample.saved (mkFrame None 0 0 0 0 0 0) false blank_frame
    (mkState [mkEvent "00:00:10:00" "00:00:12:00" "sub00000.png" 100 200 1 1] 1)
  = Ok (mkState [mkEvent "00:00:10:00" "00:00:12:00" "sub00000.png" 100 200 1 1] 1).
Proof.
  apply (clear_at_zero_ignored Sample.cfg Sample.saved Sample.time_base (Sample.clear 0)).
  - vm_compute. reflexivity.
  - reflexivity.
  - left. reflexivity.
Defined.

(** ** Samples of [time_to_tc] *)

Example time_to_tc_sample_1 : time_to_tc 10%float 29.97%float = Ok "00:00:10:00"%string.
Proof. vm_compute. reflexivity. Qed.

Example time_to_tc_sample_2 : time_to_tc 3661.5%float 30%float = Ok "01:01:01:15"%string.
Proof. vm_compute. reflexivity. Qed.

Example time_to_tc_sample_3 : time_to_tc (-4)%float 25%float = Ok "00:00:00:00"%string.
Proof. vm_compute. reflexivity. Qed.

Example time_to_tc_sample_4 : time_to_tc 1%float 0.25%float = Undefined DivByZero.
Proof. vm_compute. reflexivity. Qed.
